(** * gim: video reconstruction batch driver and camera statistics

    Shallow embedding of [camera_stats.py] (magnitude bucketing and recall
    tables) and [video_cut.py] (time-limit guard, per-video job with
    checkpoint recovery, per-GPU process scheduler), with the properties
    stated in the specification of the repository. *)

From Stdlib Require Import List String Ascii ZArith QArith Floats Lia Bool Arith PeanoNat.
From Stdlib Require Import DecimalString Permutation.
Import ListNotations.

Set Implicit Arguments.
Open Scope nat_scope.
Open Scope list_scope.

(** ** Python values shared by both files *)

(** Exceptions the modelled code can raise. [KeyboardInterrupt] is a
    [BaseException] and is not caught by [except Exception]. The
    exceptions of a job carry their message [str(e)], which the job logs.
    [IndexError], [KeyError], [ZeroDivisionError] and [TypeError] are
    raised by the statements of the main process, where nothing reads
    their message: they are kept by class. [AssertionError] is the failed
    [assert] of the recovery, which has no message. [Error] is any other
    exception derived from [Exception] that comes out of the libraries a
    job calls, by the name of its class and its message. *)
Inductive Exn : Type :=
| KeyboardInterrupt
| TimeoutException (msg : string)
| IndexError
| KeyError
| AssertionError
| ZeroDivisionError
| TypeError
| RuntimeError (msg : string)
| ValueError (msg : string)
| OSError (msg : string)
| Error (class_name msg : string).

Inductive Result (A : Type) : Type :=
| Ok (a : A)
| Raise (e : Exn).
Arguments Ok {A} a.
Arguments Raise {A} e.

Definition bind {A B} (r : Result A) (k : A -> Result B) : Result B :=
  match r with
  | Ok a => k a
  | Raise e => Raise e
  end.

Notation "x <- r ;; k" := (bind r (fun x => k))
  (at level 61, r at next level, right associativity).

(** Python dictionaries keep insertion order: an association list whose
    assignment overwrites in place or appends a new key at the end. *)
Section Dict.
Variables (K V : Type) (eqb : K -> K -> bool).

Definition dict := list (K * V).

Fixpoint dget (k : K) (d : dict) : option V :=
  match d with
  | [] => None
  | (k', v) :: rest => if eqb k k' then Some v else dget k rest
  end.

Fixpoint dset (k : K) (v : V) (d : dict) : dict :=
  match d with
  | [] => [(k, v)]
  | (k', v') :: rest =>
      if eqb k k' then (k', v) :: rest else (k', v') :: dset k v rest
  end.

(** [del d[k]] when the key is there, nothing otherwise. *)
Fixpoint dremove (k : K) (d : dict) : dict :=
  match d with
  | [] => []
  | (k', v) :: rest => if eqb k k' then rest else (k', v) :: dremove k rest
  end.

Definition dkeys (d : dict) : list K := map fst d.

(** [d[k]] on a plain dict. *)
Definition dindex (k : K) (d : dict) : Result V :=
  match dget k d with
  | Some v => Ok v
  | None => Raise KeyError
  end.

(** [d[k]] on a [defaultdict(factory)]: a missing key is inserted. *)
Definition ddindex (factory : V) (k : K) (d : dict) : V * dict :=
  match dget k d with
  | Some v => (v, d)
  | None => (factory, dset k factory d)
  end.
End Dict.

Definition str (n : nat) : string := NilZero.string_of_uint (Nat.to_uint n).

(** ** camera_stats.py *)

Module CameraStats.

(** [magnitudes = [10, 100, 1000, np.inf]]: three Python integers and the
    float infinity. *)
Inductive magnitude : Type :=
| MInt (z : Z)
| MInf.

Definition magnitudes : list magnitude := [MInt 10; MInt 100; MInt 1000; MInf].

(** Keys of the per-duration dictionaries: a magnitude or the string
    ['failed']. *)
Inductive key : Type :=
| KMag (m : magnitude)
| KFailed.

Definition magnitude_eqb (a b : magnitude) : bool :=
  match a, b with
  | MInt x, MInt y => Z.eqb x y
  | MInf, MInf => true
  | _, _ => false
  end.

Definition key_eqb (a b : key) : bool :=
  match a, b with
  | KMag x, KMag y => magnitude_eqb x y
  | KFailed, KFailed => true
  | _, _ => false
  end.

(** The float64 a magnitude is converted to when compared with a float64. *)
Definition to_float (m : magnitude) : float :=
  match m with
  | MInt z => PrimFloat.of_uint63 (Uint63.of_Z z)
  | MInf => infinity
  end.

(** [param_value < mag] on float64. *)
Definition lt_mag (param_value : float) (mag : magnitude) : bool :=
  PrimFloat.ltb param_value (to_float mag).

(** Second component of a [detailed_stats] entry: the string ['failed'] or
    the absolute parameter value. *)
Inductive detail : Type :=
| DFailed
| DValue (param_value : float).

(** A video's entry of [camera_stats]: duration string (or ['total']) to
    summary vector. *)
Definition Camera := dict string (list float).
Definition CameraDict := dict string Camera.

Definition counts := dict key nat.
Definition listing := dict key (list (string * detail)).

Record State : Type := mkState {
  magnitude_stats : dict string counts;
  total_counts : dict string nat;
  detailed_stats : dict string listing
}.

(** [{mag: 0 for mag in magnitudes}] and [{mag: [] for mag in magnitudes}]. *)
Definition new_counts : counts := map (fun mag => (KMag mag, 0%nat)) magnitudes.
Definition new_listing : listing := map (fun mag => (KMag mag, [])) magnitudes.

(** [table[duration][k] = f(table[duration][k])] on a [defaultdict] of
    plain dictionaries: the shape of both in-place updates of the loop. *)
Definition update_entry {V : Type} (factory : dict key V) (f : V -> V)
  (duration : string) (k : key) (table : dict string (dict key V))
  : Result (dict string (dict key V)) :=
  let '(inner, table1) := ddindex String.eqb factory duration table in
  v <- dindex key_eqb k inner ;;
  Ok (dset String.eqb duration (dset key_eqb k (f v) inner) table1).

(** [magnitude_stats[duration][k] += 1]. *)
Definition incr_count (duration : string) (k : key) (ms : dict string counts)
  : Result (dict string counts) :=
  update_entry new_counts S duration k ms.

(** [detailed_stats[duration][k].append(entry)]. *)
Definition append_detail (duration : string) (k : key) (entry : string * detail)
  (ds : dict string listing) : Result (dict string listing) :=
  update_entry new_listing (fun l => l ++ [entry]) duration k ds.

(** [total_counts[duration] += 1]. *)
Definition incr_total (duration : string) (tc : dict string nat) : dict string nat :=
  let '(c, tc1) := ddindex String.eqb 0%nat duration tc in
  dset String.eqb duration (S c) tc1.

(** First loop: [magnitude_stats[duration]['failed'] = 0] and
    [detailed_stats[duration]['failed'] = []] for every duration. *)
Definition init_duration (st : State) (duration : string) : State :=
  let '(c, ms1) := ddindex String.eqb new_counts duration (magnitude_stats st) in
  let ms2 := dset String.eqb duration (dset key_eqb KFailed 0%nat c) ms1 in
  let '(l, ds1) := ddindex String.eqb new_listing duration (detailed_stats st) in
  let ds2 := dset String.eqb duration (dset key_eqb KFailed [] l) ds1 in
  mkState ms2 (total_counts st) ds2.

Definition init_state (durations : list string) : State :=
  fold_left init_duration durations (mkState [] [] []).

(** [for mag in magnitudes: ...; if param_value < mag: ...; break]. *)
Fixpoint scan_magnitudes (mags : list magnitude) (video_name duration : string)
  (summary : list float) (param_index : nat) (st : State) : Result State :=
  match mags with
  | [] => Ok st
  | mag :: rest =>
      match nth_error summary param_index with
      | None => Raise IndexError
      | Some x =>
          let param_value := abs x in
          if lt_mag param_value mag then
            ms <- incr_count duration (KMag mag) (magnitude_stats st) ;;
            ds <- append_detail duration (KMag mag) (video_name, DValue param_value)
                    (detailed_stats st) ;;
            Ok (mkState ms (total_counts st) ds)
          else scan_magnitudes rest video_name duration summary param_index st
      end
  end.

(** Body of [for duration in durations] for one video. *)
Definition visit (param_index : nat) (video_name : string) (camera : Camera)
  (st : State) (duration : string) : Result State :=
  st1 <- match dget String.eqb duration camera with
         | None =>
             ms <- incr_count duration KFailed (magnitude_stats st) ;;
             ds <- append_detail duration KFailed (video_name, DFailed)
                     (detailed_stats st) ;;
             Ok (mkState ms (total_counts st) ds)
         | Some summary =>
             scan_magnitudes magnitudes video_name duration summary param_index st
         end ;;
  Ok (mkState (magnitude_stats st1) (incr_total duration (total_counts st1))
        (detailed_stats st1)).

Fixpoint visit_durations (param_index : nat) (video_name : string) (camera : Camera)
  (durations : list string) (st : State) : Result State :=
  match durations with
  | [] => Ok st
  | duration :: rest =>
      st1 <- visit param_index video_name camera st duration ;;
      visit_durations param_index video_name camera rest st1
  end.

Fixpoint visit_videos (param_index : nat) (camera_stats : CameraDict)
  (durations : list string) (st : State) : Result State :=
  match camera_stats with
  | [] => Ok st
  | (video_name, camera) :: rest =>
      st1 <- visit_durations param_index video_name camera durations st ;;
      visit_videos param_index rest durations st1
  end.

(** [count / total_counts[duration]]: the quotient as an exact rational. *)
Definition ratio (count total : nat) : Q := Qmake (Z.of_nat count) (Pos.of_nat total).

(** Last loop: recall rates of the durations with a positive total. *)
Fixpoint recall_rates (ms : dict string counts) (tc : dict string nat)
  : dict string (dict key Q) :=
  match ms with
  | [] => []
  | (duration, mag_counts) :: rest =>
      let '(total, tc1) := ddindex String.eqb 0%nat duration tc in
      if (0 <? total)%nat then
        (duration, map (fun '(mag, count) => (mag, ratio count total)) mag_counts)
          :: recall_rates rest tc1
      else recall_rates rest tc1
  end.

Definition analyze_camera_stats_magnitude (camera_stats : CameraDict)
  (durations : list string) (param_index : nat)
  : Result (dict string (dict key Q) * dict string listing) :=
  st <- visit_videos param_index camera_stats durations (init_state durations) ;;
  Ok (recall_rates (magnitude_stats st) (total_counts st), detailed_stats st).

End CameraStats.


(** ** video_cut.py *)

Module VideoCut.
Local Open Scope string_scope.

(** *** The time-limit guard *)

(** What happens to the [threading.Timer] of one [time_limit] call. *)
Inductive TimerEvent : Type :=
| TimerStart (seconds : nat)
| TimerCancel.

(** A [KeyboardInterrupt] reaches the main thread from the timer's
    [_thread.interrupt_main()] or from a user's interrupt; the exception
    object does not say which. *)
Inductive Interrupt : Type :=
| FromTimer
| FromUser.

(** Outcome of the block guarded by [with time_limit(...)]: it completes,
    a [KeyboardInterrupt] reaches it, or the code it calls raises an
    exception derived from [Exception], of the class [class_name] and with
    the message [msg] (line 50 raises [ZeroDivisionError] with the message
    of the interpreter for a video without frame rate, the reconstruction
    raises what [torch] and [pycolmap] raise). An exit of the interpreter
    inside the block, and an interrupt outside it, are not modelled. *)
Inductive Block (A : Type) : Type :=
| Completes (a : A)
| Interrupted (cause : Interrupt)
| Fails (class_name msg : string).
Arguments Completes {A} a.
Arguments Interrupted {A} cause.
Arguments Fails {A} class_name msg.

Definition run_block {A : Type} (body : Block A) : Result A :=
  match body with
  | Completes a => Ok a
  | Interrupted _ => Raise KeyboardInterrupt
  | Fails class_name msg => Raise (Error class_name msg)
  end.

(** [time_limit]: start the timer, run the block, turn a
    [KeyboardInterrupt] into [TimeoutException], cancel the timer in
    [finally]. *)
Definition time_limit {A : Type} (seconds : nat) (body : Block A)
  : Result A * list TimerEvent :=
  let timer := [TimerStart seconds] in
  let r := match run_block body with
           | Raise KeyboardInterrupt => Raise (TimeoutException "Task timed out")
           | r => r
           end in
  (r, (timer ++ [TimerCancel])%list).

(** *** Reconstruction directories *)

(** A file of a sparse model, by what [pycolmap] reads from it. *)
Inductive File : Type :=
| ImagesBin (num_reg : nat)
| CamerasBin (params : list (list float))
| Points3DBin
| Unreadable.

Definition Dir := dict string File.

Inductive Node : Type :=
| RegularFile
| Directory (d : Dir).

Record Reconstruction : Type := {
  cameras : list (list float);
  num_reg_images : nat
}.

(** [pycolmap.Reconstruction(path)]. *)
Definition pycolmap_Reconstruction (d : Dir) : Result Reconstruction :=
  match dget String.eqb "cameras.bin" d, dget String.eqb "images.bin" d,
        dget String.eqb "points3D.bin" d with
  | Some (CamerasBin ps), Some (ImagesBin n), Some Points3DBin =>
      Ok {| cameras := ps; num_reg_images := n |}
  | _, _, _ => Raise (ValueError "cannot read the reconstruction")
  end.

Definition model_files : list string := ["images.bin"; "cameras.bin"; "points3D.bin"].

(** [for filename in [...]: if not Path(...).exists(): raise RuntimeError]. *)
Fixpoint check_files (names : list string) (d : Dir) : Result unit :=
  match names with
  | [] => Ok tt
  | filename :: rest =>
      match dget String.eqb filename d with
      | None => Raise (RuntimeError (filename ++ " reconstruction failed"))
      | Some _ => check_files rest d
      end
  end.

(** The loop over [os.listdir(model_path)] that keeps the directory with
    the most registered images. *)
Fixpoint largest_model (entries : list (string * Node)) (largest_path : option string)
  (largest_num_images : nat) : Result (option string * nat) :=
  match entries with
  | [] => Ok (largest_path, largest_num_images)
  | (path, Directory d) :: rest =>
      reconstruction <- pycolmap_Reconstruction d ;;
      let num_images := num_reg_images reconstruction in
      if Nat.ltb largest_num_images num_images
      then largest_model rest (Some path) num_images
      else largest_model rest largest_path largest_num_images
  | (path, RegularFile) :: rest => largest_model rest largest_path largest_num_images
  end.

(** [for filename in [...]: unlink the file of the sparse directory when it
    exists, then shutil.move the checkpoint's file into it]. *)
Fixpoint promote (names : list string) (checkpoint sparse : Dir) : Result Dir :=
  match names with
  | [] => Ok sparse
  | filename :: rest =>
      let sparse1 := dremove String.eqb filename sparse in
      match dget String.eqb filename checkpoint with
      | None => Raise (OSError ("No such file or directory: " ++ filename))
      | Some file => promote rest checkpoint (dset String.eqb filename file sparse1)
      end
  end.

(** *** numpy reductions *)

Section Numpy.
(** [np.mean] and [np.std] of one column. *)
Variables (mean std : list float -> float).

Definition column (j : nat) (rows : list (list float)) : list float :=
  map (fun row => nth j row 0%float) rows.

(** [np.concatenate((np.mean(rows, axis=0), np.std(rows, axis=0)), axis=-1)]:
    no rows give two zero-dimensional arrays, which [np.concatenate]
    refuses; rows of different lengths are refused by [np.array]. *)
Definition mean_std (rows : list (list float)) : Result (list float) :=
  match rows with
  | [] => Raise (ValueError "zero-dimensional arrays cannot be concatenated")
  | row :: rest =>
      if forallb (fun r => Nat.eqb (List.length r) (List.length row)) rest then
        let cols := map (fun j => column j rows) (seq 0 (List.length row)) in
        Ok (map mean cols ++ map std cols)%list
      else Raise (ValueError "inhomogeneous shape")
  end.

(** *** One video *)

(** What the environment does for one duration of one video. *)
Record JobEnv : Type := {
  block : Block unit;                 (* extract_frames and colmap_reconstruction *)
  sparse : Dir;                       (* reconstruction_dir when the block ends *)
  models : option (dict string Node); (* listing of reconstruction_dir/models *)
  elapsed_time : nat                  (* int(time.time() - start_time) *)
}.

(** Local state of [process_single_video]: the two collections, the
    messages handed to [logging.error] and the lines printed. *)
Record Acc : Type := mkAcc {
  camera_params : dict string (list float);
  camera_params_out_duration : list (list float);
  error_log : list string;
  stdout : list string
}.

(** State and exceptions: a raised exception keeps the state reached. *)
Definition M (A : Type) : Type := Acc -> Result A * Acc.

Definition ret {A : Type} (a : A) : M A := fun acc => (Ok a, acc).
Definition raise {A : Type} (e : Exn) : M A := fun acc => (Raise e, acc).
Definition lift {A : Type} (r : Result A) : M A := fun acc => (r, acc).

Definition bindM {A B : Type} (m : M A) (k : A -> M B) : M B :=
  fun acc =>
    match m acc with
    | (Ok a, acc1) => k a acc1
    | (Raise e, acc1) => (Raise e, acc1)
    end.

(** [try: m except ...: handler e], for the exceptions [handler] takes. *)
Definition try_except {A : Type} (m : M A) (handler : Exn -> option (M A)) : M A :=
  fun acc =>
    match m acc with
    | (Ok a, acc1) => (Ok a, acc1)
    | (Raise e, acc1) =>
        match handler e with
        | Some h => h acc1
        | None => (Raise e, acc1)
        end
    end.

(** [except Exception] takes everything but [KeyboardInterrupt]. *)
Definition is_Exception (e : Exn) : bool :=
  match e with
  | KeyboardInterrupt => false
  | _ => true
  end.

(** [str(e)] for the exceptions a job handles, which all carry their
    message (lemma [attempt_raises]). The exceptions of the main process
    are kept without message and never reach a handler of a job; the
    failed [assert] has none. *)
Definition exn_str (e : Exn) : string :=
  match e with
  | TimeoutException msg | RuntimeError msg | ValueError msg | OSError msg
  | Error _ msg => msg
  | KeyboardInterrupt | AssertionError
  | IndexError | KeyError | ZeroDivisionError | TypeError => ""
  end.

Definition append_out (params : list (list float)) : M unit :=
  fun acc => (Ok tt, mkAcc (camera_params acc)
                       (camera_params_out_duration acc ++ params)%list
                       (error_log acc) (stdout acc)).

Definition set_param (k : string) (v : list float) : M unit :=
  fun acc => (Ok tt, mkAcc (dset String.eqb k v (camera_params acc))
                       (camera_params_out_duration acc)
                       (error_log acc) (stdout acc)).

Definition logging_error (msg : string) : M unit :=
  fun acc => (Ok tt, mkAcc (camera_params acc) (camera_params_out_duration acc)
                       (error_log acc ++ [msg])%list (stdout acc)).

Definition print (msg : string) : M unit :=
  fun acc => (Ok tt, mkAcc (camera_params acc) (camera_params_out_duration acc)
                       (error_log acc) (stdout acc ++ [msg])%list).

(** Lines 162-169 and 192-199: parse the sparse directory, record every
    camera's parameters, store the summary of this duration. *)
Definition collect_cameras (d : Dir) (duration : nat) : M unit :=
  bindM (lift (pycolmap_Reconstruction d)) (fun reconstruction =>
  bindM (append_out (cameras reconstruction)) (fun _ =>
  bindM (lift (mean_std (cameras reconstruction))) (fun summary =>
  set_param (str duration) summary))).

(** The [try] block of one duration. *)
Definition attempt (timeout : nat) (env : JobEnv) (duration : nat) : M unit :=
  bindM (lift (fst (time_limit timeout (block env)))) (fun _ =>
  bindM (lift (check_files model_files (sparse env))) (fun _ =>
  collect_cameras (sparse env) duration)).

(** [f'Largest model is #{largest_path}'f'with {largest_num_images} images.'] *)
Definition largest_message (largest_path : string) (largest_num_images : nat)
  : string :=
  "Largest model is #" ++ largest_path ++ "with "
    ++ str largest_num_images ++ " images.".

(** The [try] block of the [except TimeoutException] handler. *)
Definition recover (env : JobEnv) (duration : nat) : M unit :=
  bindM (lift (match models env with
               | Some listing => Ok listing
               | None => Raise (OSError "No such file or directory: models")
               end)) (fun listing =>
  bindM (lift (largest_model listing None 0)) (fun '(largest_path, largest_num_images) =>
  match largest_path with
  | None => raise AssertionError
  | Some path =>
      bindM (print (largest_message path largest_num_images)) (fun _ =>
      let checkpoint := match dget String.eqb path listing with
                        | Some (Directory d) => d
                        | _ => []
                        end in
      bindM (lift (promote model_files checkpoint (sparse env))) (fun promoted =>
      collect_cameras promoted duration))
  end)).

(** The [except TimeoutException] handler: try the recovery; when it
    raises, log the timeout and go on with the next duration. *)
Definition on_timeout (video_name : string) (env : JobEnv) (duration : nat) : M unit :=
  try_except (recover env duration) (fun e =>
    if is_Exception e then
      Some (bindM (logging_error (video_name ++ " " ++ str duration
                     ++ "s: Timeout after " ++ str (elapsed_time env)
                     ++ " seconds")) (fun _ =>
            print ("Error processing " ++ video_name ++ " " ++ str duration
                     ++ "s: Timeout")))
    else None).

(** The [except Exception as e] handler. *)
Definition on_error (video_name : string) (duration : nat) (e : Exn) : M unit :=
  bindM (logging_error (video_name ++ " " ++ str duration ++ "s: " ++ exn_str e))
    (fun _ =>
     print ("Error processing " ++ video_name ++ " " ++ str duration
              ++ "s: " ++ exn_str e)).

(** Body of [for duration in durations]. *)
Definition process_duration (video_name : string) (timeout : nat)
  (job : nat * JobEnv) : M unit :=
  let '(duration, env) := job in
  try_except (attempt timeout env duration) (fun e =>
    match e with
    | TimeoutException _ => Some (on_timeout video_name env duration)
    | _ => if is_Exception e then Some (on_error video_name duration e) else None
    end).

Fixpoint process_durations (video_name : string) (timeout : nat)
  (jobs : list (nat * JobEnv)) : M unit :=
  match jobs with
  | [] => ret tt
  | job :: rest =>
      bindM (process_duration video_name timeout job) (fun _ =>
      process_durations video_name timeout rest)
  end.

(** What a process leaves behind: the result file, when it wrote one, the
    messages it handed to [logging.error], the lines it printed, and the
    exception that ended it, if any. *)
Record Output : Type := {
  result_file : option (dict string (list float));
  logged : list string;
  printed : list string;
  uncaught : option Exn
}.

Definition empty_acc : Acc := mkAcc [] [] [] [].

Definition process_single_video (video_name : string) (timeout : nat)
  (jobs : list (nat * JobEnv)) : Output :=
  match process_durations video_name timeout jobs empty_acc with
  | (Raise e, acc) =>
      {| result_file := None; logged := error_log acc; printed := stdout acc;
         uncaught := Some e |}
  | (Ok _, acc) =>
      match camera_params_out_duration acc with
      | [] =>
          {| result_file := None; logged := error_log acc; printed := stdout acc;
             uncaught := None |}
      | _ :: _ =>
          match mean_std (camera_params_out_duration acc) with
          | Raise e =>
              {| result_file := None; logged := error_log acc;
                 printed := stdout acc; uncaught := Some e |}
          | Ok total =>
              {| result_file := Some (dset String.eqb "total" total (camera_params acc));
                 logged := error_log acc; printed := stdout acc; uncaught := None |}
          end
      end
  end.
End Numpy.

(** *** Where the logged messages go *)

(** The handler of the root logger of a process. [process_videos] sets the
    file handler of [reconstruction_errors.log], with the format
    [%(message)s], in the main process. The process of a video is started
    with the [spawn] method and runs [process_single_video] only: it begins
    with no handler, and its first [logging.error] sets the default one,
    which writes [ERROR:root:<message>] on the standard error stream. *)
Inductive Handler : Type :=
| NoHandler
| FileHandler
| StreamHandler.

Record Sinks : Type := mkSinks {
  log_file : list string;   (* lines of reconstruction_errors.log *)
  stderr : list string      (* lines of the standard error stream *)
}.

(** [logging.error(msg)]. *)
Definition emit (state : Handler * Sinks) (msg : string) : Handler * Sinks :=
  let '(handler, sinks) := state in
  match handler with
  | FileHandler =>
      (FileHandler, mkSinks (log_file sinks ++ [msg])%list (stderr sinks))
  | NoHandler | StreamHandler =>
      (StreamHandler,
       mkSinks (log_file sinks)
         (stderr sinks ++ [("ERROR:root:" ++ msg)%string])%list)
  end.

Definition logging_sinks (handler : Handler) (messages : list string) : Sinks :=
  snd (fold_left emit messages (handler, mkSinks [] [])).

(** What the messages of the process of a video come to. *)
Definition process_sinks (messages : list string) : Sinks :=
  logging_sinks NoHandler messages.

(** *** Seeds *)

Section Seeds.
(** Python's built-in [hash] on strings, as the running interpreter
    computes it. *)
Variable hash : string -> Z.

Definition process_seed (seed : Z) (video_name : string) : Z :=
  (seed + hash video_name mod 10000)%Z.

Definition video_seed (seed : Z) (video_name : string) (duration : Z) : Z :=
  (process_seed seed video_name + duration)%Z.
End Seeds.

End VideoCut.

(** *** The process scheduler of [process_videos] *)

Module Scheduler.

Definition processes_per_gpu : nat := 4.

(** A started [mp.Process] with the video it works on; [started_at] is the
    time it was started at, which only the liveness oracle looks at. *)
Record Process : Type := mkProcess {
  started_at : nat;
  video : string
}.

(** What the control loop does to processes, newest first in a trace. *)
Inductive Event : Type :=
| Started (gpu_id : nat) (video_name : string)
| Joined (gpu_id : nat) (video_name : string).

(** [gpu_processes[gpu_id]] and [gpu_queues[gpu_id]]. *)
Record Gpu : Type := mkGpu {
  processes : list Process;
  queue : list string
}.

(** The loop's counters, the time, and the trace of starts and joins. *)
Record Shared : Type := mkShared {
  remaining_videos : Z;
  completed_videos : nat;
  clock : nat;
  trace : list Event
}.

Definition tick (sh : Shared) : Shared :=
  mkShared (remaining_videos sh) (completed_videos sh) (S (clock sh)) (trace sh).

(** [p = mp.Process(...); p.start()]. *)
Definition start (gpu_id : nat) (video_name : string) (sh : Shared) : Process * Shared :=
  (mkProcess (clock sh) video_name,
   mkShared (remaining_videos sh) (completed_videos sh) (clock sh)
     (Started gpu_id video_name :: trace sh)).

(** [process.join(); completed_videos += 1]. *)
Definition join (gpu_id : nat) (p : Process) (sh : Shared) : Shared :=
  mkShared (remaining_videos sh) (S (completed_videos sh)) (clock sh)
    (Joined gpu_id (video p) :: trace sh).

(** [gpu_video_groups[i % num_gpus].append(video_name)]. *)
Fixpoint append_at {A : Type} (i : nat) (x : A) (groups : list (list A))
  : list (list A) :=
  match groups, i with
  | [], _ => []
  | g :: rest, 0 => (g ++ [x]) :: rest
  | g :: rest, S i' => g :: append_at i' x rest
  end.

Fixpoint group_videos (num_gpus i : nat) (video_list : list string)
  (groups : list (list string)) : Result (list (list string)) :=
  match video_list with
  | [] => Ok groups
  | video_name :: rest =>
      if num_gpus =? 0 then Raise ZeroDivisionError
      else group_videos num_gpus (S i) rest (append_at (i mod num_gpus) video_name groups)
  end.

Definition gpu_video_groups (num_gpus : nat) (video_list : list string)
  : Result (list (list string)) :=
  group_videos num_gpus 0 video_list (repeat [] num_gpus).

(** [for _ in range(n): if gpu_queues[gpu_id]: pop(0), start, append]. *)
Fixpoint fill (n gpu_id : nat) (g : Gpu) (sh : Shared) : Gpu * Shared :=
  match n with
  | 0 => (g, sh)
  | S n' =>
      match queue g with
      | [] => fill n' gpu_id g sh
      | video_name :: q =>
          let '(p, sh1) := start gpu_id video_name sh in
          fill n' gpu_id (mkGpu (processes g ++ [p]) q) sh1
      end
  end.

Fixpoint fill_all (gpu_id : nat) (gpus : list Gpu) (sh : Shared) : list Gpu * Shared :=
  match gpus with
  | [] => ([], sh)
  | g :: rest =>
      let '(g1, sh1) :=
        fill (Nat.min processes_per_gpu (List.length (queue g))) gpu_id g sh in
      let '(rest1, sh2) := fill_all (S gpu_id) rest sh1 in
      (g1 :: rest1, sh2)
  end.

(** [gpu_processes[gpu_id].pop(i)]. *)
Fixpoint remove_at {A : Type} (i : nat) (l : list A) : list A :=
  match l, i with
  | [], _ => []
  | _ :: t, 0 => t
  | h :: t, S i' => h :: remove_at i' t
  end.

Section Run.
(** [process.is_alive()] at a given time. *)
Variable is_alive : nat -> Process -> bool.

(** [while i < len(gpu_processes[gpu_id])]: a dead process is joined and
    popped, and the head of the queue, if any, is started in its place; a
    live one is stepped over. Every look at a process takes time. The
    last component is [i] when the loop stops. *)
Fixpoint poll (fuel gpu_id i : nat) (g : Gpu) (sh : Shared) : Gpu * Shared * nat :=
  match fuel with
  | 0 => (g, sh, i)
  | S fuel' =>
      match nth_error (processes g) i with
      | None => (g, sh, i)
      | Some p =>
          let alive := is_alive (clock sh) p in
          let sh1 := tick sh in
          if alive then poll fuel' gpu_id (S i) g sh1
          else
            let sh2 := join gpu_id p sh1 in
            let procs := remove_at i (processes g) in
            match queue g with
            | [] => poll fuel' gpu_id i (mkGpu procs []) sh2
            | next_video :: q =>
                let sh3 := mkShared (remaining_videos sh2 - 1) (completed_videos sh2)
                             (clock sh2) (trace sh2) in
                let '(new_p, sh4) := start gpu_id next_video sh3 in
                poll fuel' gpu_id i (mkGpu (procs ++ [new_p]) q) sh4
            end
      end
  end.

(** The inner loop started at [i = 0], with as many iterations as it can
    take. *)
Definition poll_gpu (gpu_id : nat) (g : Gpu) (sh : Shared) : Gpu * Shared * nat :=
  poll (S (List.length (processes g) + List.length (queue g))) gpu_id 0 g sh.

(** [for gpu_id in range(num_gpus)]. *)
Fixpoint poll_all (gpu_id : nat) (gpus : list Gpu) (sh : Shared) : list Gpu * Shared :=
  match gpus with
  | [] => ([], sh)
  | g :: rest =>
      let '(g1, sh1, _) := poll_gpu gpu_id g sh in
      let '(rest1, sh2) := poll_all (S gpu_id) rest sh1 in
      (g1 :: rest1, sh2)
  end.

(** [remaining_videos > 0 or any(gpu_processes)]. *)
Definition busy (gpus : list Gpu) (sh : Shared) : bool :=
  (0 <? remaining_videos sh)%Z ||
  existsb (fun g => match processes g with [] => false | _ => true end) gpus.

(** The monitoring loop; the flag tells whether it stopped by its own
    condition or was cut after [fuel] rounds. *)
Fixpoint main_loop (fuel : nat) (gpus : list Gpu) (sh : Shared)
  : list Gpu * Shared * bool :=
  match fuel with
  | 0 => (gpus, sh, negb (busy gpus sh))
  | S fuel' =>
      if busy gpus sh then
        let '(gpus1, sh1) := poll_all 0 gpus sh in
        main_loop fuel' gpus1 (tick sh1)
      else (gpus, sh, true)
  end.

(** The last loop: join whatever is still listed. *)
Fixpoint drain (gpu_id : nat) (gpus : list Gpu) (sh : Shared) : Shared :=
  match gpus with
  | [] => sh
  | g :: rest =>
      drain (S gpu_id) rest
        (fold_left (fun s p =>
                      mkShared (remaining_videos s) (completed_videos s) (clock s)
                        (Joined gpu_id (video p) :: trace s))
                   (processes g) sh)
  end.

Definition sum_queues (gpus : list Gpu) : nat :=
  fold_right (fun g n => List.length (queue g) + n) 0 gpus.

(** The scheduling part of [process_videos], for the video list as
    sorted: groups, first processes, monitoring loop, last joins. *)
Definition schedule (fuel num_gpus : nat) (video_list : list string)
  : Result (list Gpu * Shared * bool) :=
  groups <- gpu_video_groups num_gpus video_list ;;
  let gpus0 := map (fun videos => mkGpu [] videos) groups in
  let '(gpus1, sh1) := fill_all 0 gpus0 (mkShared 0 0 0 []) in
  let sh2 := mkShared (Z.of_nat (sum_queues gpus1)) 0 (clock sh1) (trace sh1) in
  let '(gpus2, sh3, stopped) := main_loop fuel gpus1 sh2 in
  if stopped then Ok (gpus2, drain 0 gpus2 sh3, true)
  else Ok (gpus2, sh3, false).
End Run.

(** *** Reading a trace *)

(** Processes of a GPU that were started and not yet joined. *)
Fixpoint in_flight (gpu_id : nat) (tr : list Event) : nat :=
  match tr with
  | [] => 0
  | Started g _ :: rest =>
      if g =? gpu_id then S (in_flight gpu_id rest) else in_flight gpu_id rest
  | Joined g _ :: rest =>
      if g =? gpu_id then pred (in_flight gpu_id rest) else in_flight gpu_id rest
  end.

(** Videos started on a GPU, in the order they were started. *)
Fixpoint started (gpu_id : nat) (tr : list Event) : list string :=
  match tr with
  | [] => []
  | Started g v :: rest =>
      if g =? gpu_id then started gpu_id rest ++ [v] else started gpu_id rest
  | Joined _ _ :: rest => started gpu_id rest
  end.

(** Videos joined on a GPU, in the order they were joined. *)
Fixpoint joined (gpu_id : nat) (tr : list Event) : list string :=
  match tr with
  | [] => []
  | Joined g v :: rest =>
      if g =? gpu_id then joined gpu_id rest ++ [v] else joined gpu_id rest
  | Started _ _ :: rest => joined gpu_id rest
  end.

(** No GPU has more than four processes in flight, now and at every
    earlier moment of the trace. *)
Fixpoint always_within (tr : list Event) : Prop :=
  (forall gpu_id, in_flight gpu_id tr <= processes_per_gpu) /\
  match tr with
  | [] => True
  | _ :: rest => always_within rest
  end.

End Scheduler.

(** *** Collecting the results in [process_videos] *)

Module Report.
Import VideoCut Scheduler CameraStats.
Local Open Scope string_scope.

Section Collect.
(** [os.path.splitext(os.path.basename(video_name))[0]]. *)
Variable video_basename : string -> string.
(** What the process of each video leaves behind. *)
Variable outputs : string -> Output.

(** Videos in the order their processes were joined. *)
Fixpoint completion_order (tr : list Event) : list string :=
  match tr with
  | [] => []
  | Joined _ v :: rest => completion_order rest ++ [v]
  | Started _ _ :: rest => completion_order rest
  end.

(** The [<basename>_result.npz] files of the output directory, by basename.
    The directory is not emptied before a run, and the videos of one
    basename share one file. *)
Definition ResultFiles := dict string (dict string (list float)).

(** What happens to the result files during a run, in order: the process
    of a video reaches its end (lines 213-225), or the main process joins
    one and looks for its file (lines 299-303 and 326-330). *)
Inductive Step : Type :=
| Ends (video_name : string)
| Joins (video_name : string).

(** [np.savez(result_path, **camera_params)] at the end of a process that
    has a result; any other process leaves the files as they are. *)
Definition save_result (video_name : string) (files : ResultFiles) : ResultFiles :=
  match result_file (outputs video_name) with
  | Some result => dset String.eqb (video_basename video_name) result files
  | None => files
  end.

(** [if os.path.exists(result_path): all_results.append((video_basename,
    dict(np.load(result_path))))]. *)
Definition collect_result (video_name : string) (files : ResultFiles)
  (all_results : list (string * dict string (list float)))
  : list (string * dict string (list float)) :=
  match dget String.eqb (video_basename video_name) files with
  | Some result => all_results ++ [(video_basename video_name, result)]
  | None => all_results
  end.

Fixpoint collect (history : list Step) (files : ResultFiles)
  (all_results : list (string * dict string (list float)))
  : list (string * dict string (list float)) :=
  match history with
  | [] => all_results
  | Ends video_name :: rest => collect rest (save_result video_name files) all_results
  | Joins video_name :: rest =>
      collect rest files (collect_result video_name files all_results)
  end.

(** [all_results] after a run that finds [files] in the output directory. *)
Definition all_results (history : list Step) (files : ResultFiles)
  : list (string * dict string (list float)) :=
  collect history files [].

(** [if camera_params: all_camera_params[video_basename] = camera_params]. *)
Definition all_camera_params (results : list (string * dict string (list float)))
  : CameraDict :=
  fold_left (fun acc '(name, camera_params) =>
               match camera_params with
               | [] => acc
               | _ :: _ => dset String.eqb name camera_params acc
               end) results [].

(** The analysis at the end of [process_videos]: the aggregate and its
    recall tables for the 5th parameter. *)
Definition report (history : list Step) (files : ResultFiles) (durations : list nat)
  : Result (dict string (dict key Q) * dict string listing) :=
  analyze_camera_stats_magnitude (all_camera_params (all_results history files))
    (map str durations) 4.

(** [os.path.join(output_base_dir, prefix)]: [prefix] is [None] unless
    [--prefix] is given, and [os.path.join] refuses [None]. The paths
    themselves are not modelled. *)
Definition join_prefix (prefix : option string) : Result unit :=
  match prefix with
  | Some _ => Ok tt
  | None => Raise TypeError
  end.

(** [np.savez(path, **all_camera_params)]: the rows are passed as keyword
    arguments, and [file] is the name of the first parameter of
    [np.savez]. *)
Definition savez (all_camera_params : CameraDict) : Result unit :=
  if existsb (String.eqb "file") (dkeys all_camera_params)
  then Raise TypeError
  else Ok tt.

(** The steps of a run, as the environment orders them: before the main
    process joins the [i]-th process, the processes of [ends i] reach
    their end. *)
Fixpoint history_of (ends : nat -> list string) (i : nat) (completed : list string)
  : list Step :=
  match completed with
  | [] => []
  | video_name :: rest =>
      map Ends (ends i) ++ Joins video_name :: history_of ends (S i) rest
  end.

(** [process_videos], from the join of the output directory to the
    analysis, for the sorted list of names read from the list file;
    [None] when the fuel does not reach the end of the loop. *)
Definition process_videos (prefix : option string)
  (is_alive : nat -> Process -> bool) (ends : nat -> list string)
  (files : ResultFiles) (fuel num_gpus : nat)
  (video_list : list string) (durations : list nat)
  : Result (option (dict string (dict key Q) * dict string listing)) :=
  _ <- join_prefix prefix ;;
  run <- schedule is_alive fuel num_gpus video_list ;;
  let '(_, sh, stopped) := run in
  if stopped then
    let history := history_of ends 0 (completion_order (trace sh)) in
    let aggregate := all_camera_params (all_results history files) in
    _ <- savez aggregate ;;
    tables <- analyze_camera_stats_magnitude aggregate (map str durations) 4 ;;
    Ok (Some tables)
  else Ok None.
End Collect.

End Report.

(** ** Sample column reductions, to evaluate examples *)

Module Sample.
Definition fsum (l : list float) : float := fold_left PrimFloat.add l 0%float.
Definition flen (l : list float) : float :=
  PrimFloat.of_uint63 (Uint63.of_Z (Z.of_nat (List.length l))).
Definition mean (l : list float) : float := PrimFloat.div (fsum l) (flen l).
Definition std (l : list float) : float :=
  let m := mean l in
  PrimFloat.sqrt (mean (map (fun x => PrimFloat.mul (PrimFloat.sub x m)
                                        (PrimFloat.sub x m)) l)).
End Sample.

(** ** The table lookups of [plot_magnitude_recall] *)

(** A list comprehension whose element expression can raise. *)
Fixpoint mapM {A B : Type} (f : A -> Result B) (l : list A) : Result (list B) :=
  match l with
  | [] => Ok []
  | a :: rest =>
      b <- f a ;;
      bs <- mapM f rest ;;
      Ok (b :: bs)
  end.

Module Plot.
Import CameraStats.

(** [magnitudes = [10, 100, 1000, np.inf, 'failed']]. *)
Definition magnitudes : list key :=
  [KMag (MInt 10); KMag (MInt 100); KMag (MInt 1000); KMag MInf; KFailed].

(** The heights of the bars, one list per magnitude:
    [recalls = [recall_stats[duration][mag] for duration in durations]]
    with [durations = recall_stats.keys()]. *)
Definition bars (recall_stats : dict string (dict key Q))
  : Result (list (key * list Q)) :=
  mapM (fun mag =>
          recalls <- mapM (fun duration =>
                             inner <- dindex String.eqb duration recall_stats ;;
                             dindex key_eqb mag inner)
                       (dkeys recall_stats) ;;
          Ok (mag, recalls))
       magnitudes.

(** The "Overall Statistics" part of the report: for every duration of
    [recall_stats] and every magnitude the recall and
    [len(detailed_stats[duration][mag])]. [detailed_stats] is the
    [defaultdict] of the analysis: a duration it does not have reads as the
    default entry, which has no ['failed'] key. *)
Definition overall_statistics (recall_stats : dict string (dict key Q))
  (detailed_stats : dict string listing)
  : Result (list (string * list (key * Q * nat))) :=
  mapM (fun duration =>
          lines <- mapM (fun mag =>
                           inner <- dindex String.eqb duration recall_stats ;;
                           recall <- dindex key_eqb mag inner ;;
                           videos <- dindex key_eqb mag
                                       (fst (ddindex String.eqb new_listing duration
                                               detailed_stats)) ;;
                           Ok (mag, recall, List.length videos))
                     magnitudes ;;
          Ok (duration, lines))
       (dkeys recall_stats).

(** [if detailed_stats:] the report is written only for a non-empty
    [detailed_stats]. *)
Definition report_statistics (recall_stats : dict string (dict key Q))
  (detailed_stats : dict string listing)
  : Result (option (list (string * list (key * Q * nat)))) :=
  match detailed_stats with
  | [] => Ok None
  | _ :: _ =>
      rows <- overall_statistics recall_stats detailed_stats ;;
      Ok (Some rows)
  end.

End Plot.

(** ** Reading the list of videos *)

Module VideoList.
Local Open Scope string_scope.

(** The characters that [str.strip()] removes, for characters with a code
    point below 256 (one [ascii] each): tab, line feed, vertical tab, form
    feed, carriage return, the separators 0x1c to 0x1f, the space, 0x85 and
    the no-break space 0xa0. *)
Definition isspace (c : ascii) : bool :=
  let n := nat_of_ascii c in
  ((9 <=? n)%nat && (n <=? 13)%nat) || ((28 <=? n)%nat && (n <=? 32)%nat)
  || (n =? 133)%nat || (n =? 160)%nat.

Definition line_feed : ascii := "010"%char.

(** [f.readlines()] on the text of the file, with its line ends already
    translated to line feeds: every line keeps its line feed, the last one
    may have none. *)
Fixpoint readlines (text : string) : list string :=
  match text with
  | EmptyString => []
  | String c rest =>
      if Ascii.eqb c line_feed then String c EmptyString :: readlines rest
      else match readlines rest with
           | [] => [String c EmptyString]
           | line :: lines => String c line :: lines
           end
  end.

Fixpoint lstrip (s : string) : string :=
  match s with
  | EmptyString => EmptyString
  | String c rest => if isspace c then lstrip rest else s
  end.

Fixpoint rstrip (s : string) : string :=
  match s with
  | EmptyString => EmptyString
  | String c rest =>
      match rstrip rest with
      | EmptyString => if isspace c then EmptyString else String c EmptyString
      | String c' rest' => String c (String c' rest')
      end
  end.

(** [line.strip()]. *)
Definition strip (s : string) : string := rstrip (lstrip s).

(** [videos = [line.strip() for line in f.readlines()]]. *)
Definition read_video_list (text : string) : list string :=
  map strip (readlines text).

(** [sorted] on strings, which Python compares by code points: the result
    is the ascending arrangement of the list, here built by insertion. *)
Fixpoint insert (x : string) (l : list string) : list string :=
  match l with
  | [] => [x]
  | y :: rest => if String.leb x y then x :: l else y :: insert x rest
  end.

Fixpoint sorted (l : list string) : list string :=
  match l with
  | [] => []
  | x :: rest => insert x (sorted rest)
  end.

(** [video_list = sorted(read_video_list(...))]. *)
Definition video_list (text : string) : list string :=
  sorted (read_video_list text).

End VideoList.

(** ** The frame loop of [extract_frames] *)

Module Frames.

(** Lines 66 to 68: [if sampling_rate < 1: sampling_rate = 1], on the
    integer [int(video_fps / 3)]. *)
Definition sampling_rate (raw : Z) : nat :=
  if (raw <? 1)%Z then 1 else Z.to_nat raw.

(** [range(0, stop, step)] for a positive step. *)
Definition range (stop : Z) (step : nat) : list nat :=
  map (fun k => k * step) (seq 0 ((Z.to_nat stop + step - 1) / step)).

Section Capture.
(** A decoded frame, and the file name the loop computes for the frame
    read at index [i] (lines 86 to 93). *)
Variable Frame : Type.
Variable frame_filename : nat -> string.

(** [cap.read()] on a capture given by the frames from its position on:
    the next frame, if there is one, and the capture after it. *)
Definition read (cap : list Frame) : option Frame * list Frame :=
  match cap with
  | [] => (None, [])
  | frame :: rest => (Some frame, rest)
  end.

(** [for _ in range(n): cap.read()]. *)
Fixpoint skip (n : nat) (cap : list Frame) : list Frame :=
  match n with
  | 0 => cap
  | S n' => skip n' (snd (read cap))
  end.

(** Lines 77 to 97, for the indices of the [range]: read a frame, stop when
    there is none, skip [rate - 1] frames, write the frame under the name
    of its index. The result lists the calls of [cv2.imwrite] in order. *)
Fixpoint frames_loop (indices : list nat) (rate : nat) (cap : list Frame)
  : list (string * Frame) :=
  match indices with
  | [] => []
  | i :: rest =>
      match read cap with
      | (None, _) => []
      | (Some frame, cap1) =>
          (frame_filename i, frame) :: frames_loop rest rate (skip (rate - 1) cap1)
      end
  end.

(** The loop of [extract_frames] for a capture positioned at the start
    frame, [frames_to_process] and [int(video_fps / 3)]. *)
Definition extract_loop (frames_to_process raw_rate : Z) (cap : list Frame)
  : list (string * Frame) :=
  let rate := sampling_rate raw_rate in
  frames_loop (range frames_to_process rate) rate cap.
End Capture.

End Frames.
(** * Properties *)

(** ** Dictionaries *)

Section DictFacts.
Variables (K V : Type) (eqb : K -> K -> bool).
Hypothesis eqb_eq : forall a b, eqb a b = true <-> a = b.

Lemma eqb_refl' : forall a, eqb a a = true.
Proof. intro a. now apply eqb_eq. Qed.

Lemma eqb_neq : forall a b, a <> b -> eqb a b = false.
Proof.
  intros a b H. destruct (eqb a b) eqn:E; [|reflexivity].
  apply eqb_eq in E. contradiction.
Qed.

Lemma dget_dset_same : forall k (v : V) d, dget eqb k (dset eqb k v d) = Some v.
Proof.
  intros k v d. induction d as [|[k' v'] d IH]; simpl.
  - now rewrite eqb_refl'.
  - destruct (eqb k k') eqn:E; simpl; rewrite E; auto.
Qed.

Lemma dget_dset_other : forall k k' (v : V) d,
  k <> k' -> dget eqb k' (dset eqb k v d) = dget eqb k' d.
Proof.
  intros k k' v d Hne. induction d as [|[k0 v0] d IH]; simpl.
  - rewrite eqb_neq; auto.
  - destruct (eqb k k0) eqn:E; simpl.
    + apply eqb_eq in E. subst k0. rewrite (@eqb_neq k' k); auto.
    + now rewrite IH.
Qed.

Lemma dget_dset : forall k k' (v : V) d,
  dget eqb k' (dset eqb k v d) = if eqb k k' then Some v else dget eqb k' d.
Proof.
  intros k k' v d. destruct (eqb k k') eqn:E.
  - apply eqb_eq in E. subst. apply dget_dset_same.
  - apply dget_dset_other. intro H. apply eqb_eq in H. congruence.
Qed.

Lemma dkeys_dset_present : forall k (v v0 : V) d,
  dget eqb k d = Some v0 -> dkeys (dset eqb k v d) = dkeys d.
Proof.
  intros k v v0 d. induction d as [|[k' v'] d IH]; simpl; [discriminate|].
  destruct (eqb k k') eqn:E; simpl; intros H.
  - reflexivity.
  - f_equal. now apply IH.
Qed.

Lemma dget_in_keys : forall k (d : dict K V),
  In k (dkeys d) -> exists v, dget eqb k d = Some v.
Proof.
  intros k d. induction d as [|[k' v'] d IH]; simpl; [tauto|].
  intros [H|H].
  - subst. rewrite eqb_refl'. eauto.
  - destruct (eqb k k'); eauto.
Qed.

Lemma dget_map_values : forall (W : Type) (f : V -> W) k (d : dict K V),
  dget eqb k (map (fun '(k0, v) => (k0, f v)) d) = option_map f (dget eqb k d).
Proof.
  intros W f k d. induction d as [|[k' v'] d IH]; simpl; [reflexivity|].
  destruct (eqb k k'); auto.
Qed.
End DictFacts.

Lemma magnitude_eqb_eq : forall a b, CameraStats.magnitude_eqb a b = true <-> a = b.
Proof.
  intros [x|] [y|]; simpl; split; intro H; try congruence; try discriminate.
  - apply Z.eqb_eq in H. congruence.
  - inversion H. apply Z.eqb_refl.
Qed.

Lemma key_eqb_eq : forall a b, CameraStats.key_eqb a b = true <-> a = b.
Proof.
  intros [x|] [y|]; simpl; split; intro H; try congruence; try discriminate.
  - apply magnitude_eqb_eq in H. congruence.
  - inversion H. now apply magnitude_eqb_eq.
Qed.

(** ** camera_stats.py: what the loops compute *)

Module CameraStatsFacts.
Import CameraStats.

(** Keys of every per-duration dictionary after the first loop. *)
Definition all_keys : list key := map KMag magnitudes ++ [KFailed].

Definition entry_of {V : Type} (table : dict string (dict key V))
  (duration : string) (k : key) : option V :=
  match dget String.eqb duration table with
  | Some inner => dget key_eqb k inner
  | None => None
  end.

Definition well_keyed {V : Type} (table : dict string (dict key V))
  (duration : string) : Prop :=
  exists inner, dget String.eqb duration table = Some inner /\ dkeys inner = all_keys.

Definition total_of (tc : dict string nat) (duration : string) : nat :=
  match dget String.eqb duration tc with
  | Some c => c
  | None => 0
  end.

(** Where one (video, duration) visit puts the video: the bucket and the
    listed detail, nothing when no threshold exceeds the value, or the
    [IndexError] of a summary vector that is too short. *)
Definition placement (param_index : nat) (camera : Camera) (duration : string)
  : Result (option (key * detail)) :=
  match dget String.eqb duration camera with
  | None => Ok (Some (KFailed, DFailed))
  | Some summary =>
      match nth_error summary param_index with
      | None => Raise IndexError
      | Some x =>
          Ok (option_map (fun m => (KMag m, DValue (abs x)))
                (find (lt_mag (abs x)) magnitudes))
      end
  end.

(** The visits of the nested loop, in order. *)
Definition event : Type := string * Camera * string.

Definition events (camera_stats : CameraDict) (durations : list string) : list event :=
  flat_map (fun '(video_name, camera) =>
              map (fun duration => (video_name, camera, duration)) durations)
           camera_stats.

Definition hit (param_index : nat) (duration : string) (k : key) (e : event)
  : list (string * detail) :=
  let '(video_name, camera, de) := e in
  if String.eqb de duration then
    match placement param_index camera de with
    | Ok (Some (ke, x)) => if key_eqb ke k then [(video_name, x)] else []
    | _ => []
    end
  else [].

Definition hits (param_index : nat) (duration : string) (k : key) (evs : list event)
  : list (string * detail) :=
  flat_map (hit param_index duration k) evs.

Definition visits (duration : string) (evs : list event) : nat :=
  List.length (filter (fun e : event => String.eqb (snd e) duration) evs).

Record Inv (param_index : nat) (durations : list string) (evs : list event)
  (st : State) : Prop := {
  inv_keys : forall d, In d durations ->
    well_keyed (magnitude_stats st) d /\ well_keyed (detailed_stats st) d;
  inv_entries : forall d k, In d durations -> In k all_keys ->
    entry_of (magnitude_stats st) d k = Some (List.length (hits param_index d k evs)) /\
    entry_of (detailed_stats st) d k = Some (hits param_index d k evs);
  inv_total : forall d, total_of (total_counts st) d = visits d evs
}.

Lemma update_entry_ok : forall (V : Type) (factory : dict key V) (f : V -> V)
  d k (table : dict string (dict key V)),
  well_keyed table d -> In k all_keys ->
  exists table' v,
    entry_of table d k = Some v /\
    update_entry factory f d k table = Ok table' /\
    (forall d', well_keyed table d' -> well_keyed table' d') /\
    (forall d' k', entry_of table' d' k' =
       if String.eqb d d' && key_eqb k k' then Some (f v) else entry_of table d' k').
Proof.
  intros V factory f d k table [inner [Hget Hkeys]] Hk.
  assert (Hin : In k (dkeys inner)) by (rewrite Hkeys; exact Hk).
  destruct (dget_in_keys key_eqb key_eqb_eq _ _ Hin) as [v Hv].
  exists (dset String.eqb d (dset key_eqb k (f v) inner) table), v.
  repeat split.
  - unfold entry_of. now rewrite Hget.
  - unfold update_entry, ddindex, dindex. rewrite Hget, Hv. reflexivity.
  - intros d' [inner' [Hget' Hkeys']]. unfold well_keyed.
    rewrite (dget_dset String.eqb String.eqb_eq).
    destruct (String.eqb d d') eqn:E.
    + eexists; split; [reflexivity|].
      rewrite (dkeys_dset_present key_eqb _ _ _ Hv). exact Hkeys.
    + eauto.
  - intros d' k'. unfold entry_of.
    rewrite (dget_dset String.eqb String.eqb_eq).
    destruct (String.eqb d d') eqn:E; simpl.
    + apply String.eqb_eq in E. subst d'.
      rewrite (dget_dset key_eqb key_eqb_eq), Hget.
      destruct (key_eqb k k'); reflexivity.
    + reflexivity.
Qed.

Lemma total_of_incr : forall tc d d',
  total_of (incr_total d tc) d' =
  if String.eqb d d' then S (total_of tc d) else total_of tc d'.
Proof.
  intros tc d d'. unfold incr_total, ddindex, total_of.
  destruct (dget String.eqb d tc) as [c|] eqn:E;
    repeat rewrite (dget_dset String.eqb String.eqb_eq);
    destruct (String.eqb d d') eqn:E'; try reflexivity.
Qed.

Lemma hits_app : forall pi d k evs1 evs2,
  hits pi d k (evs1 ++ evs2) = hits pi d k evs1 ++ hits pi d k evs2.
Proof. intros. unfold hits. apply flat_map_app. Qed.

Lemma visits_app : forall d evs1 evs2,
  visits d (evs1 ++ evs2) = visits d evs1 + visits d evs2.
Proof. intros. unfold visits. now rewrite filter_app, List.length_app. Qed.

Lemma visits_single : forall d' video_name (camera : Camera) d,
  visits d' [(video_name, camera, d)] = if String.eqb d d' then 1 else 0.
Proof. intros. unfold visits. simpl. destruct (String.eqb d d'); reflexivity. Qed.

(** The state after a video was put into bucket [k] of [d]. *)
Definition placed (st st' : State) (d : string) (k : key) (entry : string * detail)
  : Prop :=
  total_counts st' = total_counts st /\
  (forall d', well_keyed (magnitude_stats st) d' -> well_keyed (magnitude_stats st') d') /\
  (forall d', well_keyed (detailed_stats st) d' -> well_keyed (detailed_stats st') d') /\
  exists c l,
    entry_of (magnitude_stats st) d k = Some c /\
    entry_of (detailed_stats st) d k = Some l /\
    (forall d' k', entry_of (magnitude_stats st') d' k' =
       if String.eqb d d' && key_eqb k k' then Some (S c)
       else entry_of (magnitude_stats st) d' k') /\
    (forall d' k', entry_of (detailed_stats st') d' k' =
       if String.eqb d d' && key_eqb k k' then Some (l ++ [entry])
       else entry_of (detailed_stats st) d' k').

Lemma place_ok : forall st d k entry,
  well_keyed (magnitude_stats st) d -> well_keyed (detailed_stats st) d ->
  In k all_keys ->
  exists st',
    (ms <- incr_count d k (magnitude_stats st) ;;
     ds <- append_detail d k entry (detailed_stats st) ;;
     Ok (mkState ms (total_counts st) ds)) = Ok st' /\
    placed st st' d k entry.
Proof.
  intros st d k entry Hm Hd Hk.
  destruct (update_entry_ok new_counts S Hm Hk) as [ms [c [Hc [Hms [Hwm Hem]]]]].
  destruct (update_entry_ok new_listing (fun l => l ++ [entry]) Hd Hk)
    as [ds [l [Hl [Hds [Hwd Hed]]]]].
  exists (mkState ms (total_counts st) ds). split.
  - unfold incr_count, append_detail. rewrite Hms. simpl. rewrite Hds. reflexivity.
  - unfold placed; simpl. repeat split; auto. exists c, l. auto.
Qed.

Lemma scan_magnitudes_spec : forall mags video_name d summary pi st x,
  (forall m, In m mags -> In (KMag m) all_keys) ->
  well_keyed (magnitude_stats st) d -> well_keyed (detailed_stats st) d ->
  nth_error summary pi = Some x ->
  match find (lt_mag (abs x)) mags with
  | Some m => exists st',
      scan_magnitudes mags video_name d summary pi st = Ok st' /\
      placed st st' d (KMag m) (video_name, DValue (abs x))
  | None => scan_magnitudes mags video_name d summary pi st = Ok st
  end.
Proof.
  induction mags as [|mag rest IH]; intros video_name d summary pi st x Hin Hm Hd Hx.
  - reflexivity.
  - simpl. rewrite Hx. destruct (lt_mag (abs x) mag) eqn:E.
    + apply place_ok; auto. apply Hin. now left.
    + apply IH; auto. intros m Hm'. apply Hin. now right.
Qed.

Lemma magnitudes_in_keys : forall m, In m magnitudes -> In (KMag m) all_keys.
Proof.
  intros m H. unfold all_keys. apply in_or_app. left. now apply in_map.
Qed.

Lemma failed_in_keys : In KFailed all_keys.
Proof. unfold all_keys. apply in_or_app. right. now left. Qed.

Lemma find_some_in : forall (A : Type) (f : A -> bool) l a,
  find f l = Some a -> In a l.
Proof. intros A f l a H. now apply find_some in H. Qed.

Lemma visit_step : forall pi durations evs st video_name camera d,
  Inv pi durations evs st -> In d durations ->
  match placement pi camera d with
  | Ok _ => exists st',
      visit pi video_name camera st d = Ok st' /\
      Inv pi durations (evs ++ [(video_name, camera, d)]) st'
  | Raise e => visit pi video_name camera st d = Raise e
  end.
Proof.
  intros pi durations evs st video_name camera d HI Hd.
  destruct (@inv_keys _ _ _ _ HI d Hd) as [Hwm Hwd].
  assert (Hplaced : forall st1 k entry,
    placement pi camera d = Ok (Some (k, entry)) -> In k all_keys ->
    placed st st1 d k (video_name, entry) ->
    Inv pi durations (evs ++ [(video_name, camera, d)])
      (mkState (magnitude_stats st1) (incr_total d (total_counts st1))
         (detailed_stats st1))).
  { intros st1 k entry Hp Hk [Htc [Hkm [Hkd [c [l [Hc [Hl [Hem Hed]]]]]]]].
    destruct (@inv_entries _ _ _ _ HI d k Hd Hk) as [Hc' Hl'].
    rewrite Hc in Hc'. rewrite Hl in Hl'. inversion Hc'. inversion Hl'. subst c l.
    constructor; simpl.
    - intros d' Hd'. destruct (@inv_keys _ _ _ _ HI d' Hd'). split; auto.
    - intros d' k' Hd' Hk'. rewrite Hem, Hed, hits_app. simpl. rewrite Hp.
      destruct (@inv_entries _ _ _ _ HI d' k' Hd' Hk') as [H1 H2].
      destruct (String.eqb d d') eqn:E; simpl.
      + apply String.eqb_eq in E. subst d'.
        destruct (key_eqb k k') eqn:E'; simpl.
        * apply key_eqb_eq in E'. subst k'.
          rewrite List.length_app. simpl. rewrite Nat.add_1_r. split; reflexivity.
        * rewrite app_nil_r. auto.
      + rewrite app_nil_r. auto.
    - intros d'. rewrite total_of_incr, Htc, visits_app, (inv_total HI), (inv_total HI).
      rewrite visits_single.
      destruct (String.eqb d d') eqn:E; simpl; [|lia].
      apply String.eqb_eq in E. subst d'. lia. }
  assert (Hsame : forall q, placement pi camera d = Ok q ->
    (forall k entry, q <> Some (k, entry)) ->
    Inv pi durations (evs ++ [(video_name, camera, d)])
      (mkState (magnitude_stats st) (incr_total d (total_counts st))
         (detailed_stats st))).
  { intros q Hp Hq. constructor; simpl.
    - intros d' Hd'. apply (@inv_keys _ _ _ _ HI d' Hd').
    - intros d' k' Hd' Hk'. rewrite hits_app. simpl. rewrite Hp.
      assert (Hnil : (if String.eqb d d'
                      then match q with
                           | Some (ke, x) => if key_eqb ke k' then [(video_name, x)] else []
                           | None => []
                           end
                      else []) = []).
      { destruct (String.eqb d d'); auto. destruct q as [[ke x]|]; auto.
        exfalso. now apply (Hq ke x). }
      rewrite Hnil, !app_nil_r. apply (@inv_entries _ _ _ _ HI d' k' Hd' Hk').
    - intros d'. rewrite total_of_incr, visits_app, (inv_total HI), (inv_total HI).
      rewrite visits_single.
      destruct (String.eqb d d') eqn:E; simpl; [|lia].
      apply String.eqb_eq in E. subst d'. lia. }
  unfold placement in *. unfold visit.
  destruct (dget String.eqb d camera) as [summary|] eqn:Ecam.
  - destruct (nth_error summary pi) as [x|] eqn:Ex.
    + pose proof (@scan_magnitudes_spec magnitudes video_name d summary pi st x
                    magnitudes_in_keys Hwm Hwd Ex) as Hscan.
      destruct (find (lt_mag (abs x)) magnitudes) as [m|] eqn:Ef.
      * destruct Hscan as [st1 [Hrun Hpl]]. rewrite Hrun. simpl.
        eexists; split; [reflexivity|].
        apply (Hplaced st1 (KMag m) (DValue (abs x))); auto.
        apply magnitudes_in_keys. eapply find_some_in; eauto.
      * rewrite Hscan. simpl. eexists; split; [reflexivity|].
        apply (Hsame None); auto. discriminate.
    + unfold magnitudes. simpl. rewrite Ex. reflexivity.
  - destruct (@place_ok st d KFailed (video_name, DFailed) Hwm Hwd failed_in_keys)
      as [st1 [Hrun Hpl]].
    rewrite Hrun. simpl. eexists; split; [reflexivity|].
    apply (Hplaced st1 KFailed DFailed); auto. apply failed_in_keys.
Qed.

(** *** The first loop *)

Definition zero_counts : counts := new_counts ++ [(KFailed, 0)].
Definition zero_listing : listing := new_listing ++ [(KFailed, [])].

Definition fresh (st : State) : Prop :=
  (forall d inner, dget String.eqb d (magnitude_stats st) = Some inner ->
                   inner = zero_counts) /\
  (forall d inner, dget String.eqb d (detailed_stats st) = Some inner ->
                   inner = zero_listing) /\
  total_counts st = [].

Definition prepared (st : State) (d : string) : Prop :=
  dget String.eqb d (magnitude_stats st) = Some zero_counts /\
  dget String.eqb d (detailed_stats st) = Some zero_listing.

Lemma init_table : forall (V : Type) (factory zero : dict key V) (v : V) table d,
  dset key_eqb KFailed v factory = zero ->
  dset key_eqb KFailed v zero = zero ->
  (forall d' inner, dget String.eqb d' table = Some inner -> inner = zero) ->
  forall c t1, ddindex String.eqb factory d table = (c, t1) ->
  let t2 := dset String.eqb d (dset key_eqb KFailed v c) t1 in
  dget String.eqb d t2 = Some zero /\
  (forall d' inner, dget String.eqb d' t2 = Some inner -> inner = zero) /\
  (forall d', dget String.eqb d' table = Some zero -> dget String.eqb d' t2 = Some zero).
Proof.
  intros V factory zero v table d Hf Hz Hall c t1. unfold ddindex.
  destruct (dget String.eqb d table) as [c0|] eqn:E; intros Hpair;
    inversion Hpair; subst c t1; clear Hpair; simpl.
  - pose proof (Hall _ _ E) as Hc. subst c0. rewrite Hz. repeat split.
    + apply (dget_dset_same String.eqb String.eqb_eq).
    + intros d' inner. rewrite (dget_dset String.eqb String.eqb_eq).
      destruct (String.eqb d d'); [congruence | apply Hall].
    + intros d'. rewrite (dget_dset String.eqb String.eqb_eq).
      destruct (String.eqb d d'); auto.
  - rewrite Hf. repeat split.
    + apply (dget_dset_same String.eqb String.eqb_eq).
    + intros d' inner. rewrite !(dget_dset String.eqb String.eqb_eq).
      destruct (String.eqb d d'); [congruence | apply Hall].
    + intros d'. rewrite !(dget_dset String.eqb String.eqb_eq).
      destruct (String.eqb d d'); auto.
Qed.

Lemma init_duration_fresh : forall st d,
  fresh st ->
  fresh (init_duration st d) /\ prepared (init_duration st d) d /\
  (forall d', prepared st d' -> prepared (init_duration st d) d').
Proof.
  intros st d [Hm [Hd Ht]]. unfold init_duration, prepared, fresh.
  destruct (ddindex String.eqb new_counts d (magnitude_stats st)) as [c ms1] eqn:E1.
  destruct (ddindex String.eqb new_listing d (detailed_stats st)) as [l ds1] eqn:E2.
  destruct (@init_table nat new_counts zero_counts 0 (magnitude_stats st) d
              eq_refl eq_refl Hm c ms1 E1) as [A1 [B1 C1]].
  destruct (@init_table _ new_listing zero_listing [] (detailed_stats st) d
              eq_refl eq_refl Hd l ds1 E2) as [A2 [B2 C2]].
  simpl.
  split; [|split].
  - repeat split; simpl; auto.
  - split; simpl; auto.
  - intros d' [P Q]. split; simpl; auto.
Qed.

Lemma init_fold_fresh : forall durations st,
  fresh st ->
  fresh (fold_left init_duration durations st) /\
  (forall d, In d durations \/ prepared st d ->
             prepared (fold_left init_duration durations st) d).
Proof.
  induction durations as [|d0 rest IH]; intros st Hf; simpl.
  - split; auto. intros d [[]|H]; auto.
  - destruct (init_duration_fresh d0 Hf) as [Hf' [Hp Hkeep]].
    destruct (IH _ Hf') as [Hf'' Hall]. split; auto.
    intros d [[H|H]|H]; apply Hall; auto. subst; auto.
Qed.

Lemma all_keys_NoDup : NoDup all_keys.
Proof.
  unfold all_keys, magnitudes. simpl.
  repeat (constructor; [simpl; intuition discriminate|]). constructor.
Qed.

Lemma init_state_inv : forall pi durations, Inv pi durations [] (init_state durations).
Proof.
  intros pi durations. unfold init_state.
  destruct (@init_fold_fresh durations (mkState [] [] [])) as [[_ [_ Ht]] Hp].
  { repeat split; simpl; intros; discriminate. }
  constructor.
  - intros d Hd. destruct (Hp d (or_introl Hd)) as [P Q].
    split; eexists; split; eauto.
  - intros d k Hd Hk. destruct (Hp d (or_introl Hd)) as [P Q].
    unfold entry_of. unfold counts, listing in *. rewrite P, Q. simpl.
    unfold all_keys, magnitudes in Hk. simpl in Hk.
    repeat (destruct Hk as [Hk|Hk]; [subst k; split; reflexivity|]). destruct Hk.
  - intros d. rewrite Ht. reflexivity.
Qed.

(** *** The nested loop *)

(** The summary vector of [duration], when there is one, has an entry at
    [param_index]. *)
Definition indexable (param_index : nat) (camera : Camera) (duration : string) : Prop :=
  forall summary, dget String.eqb duration camera = Some summary ->
                  param_index < List.length summary.

Lemma placement_indexable : forall pi camera d,
  indexable pi camera d -> exists q, placement pi camera d = Ok q.
Proof.
  intros pi camera d H. unfold placement.
  destruct (dget String.eqb d camera) as [summary|] eqn:E; [|eauto].
  destruct (nth_error summary pi) eqn:Ex; [eauto|].
  apply nth_error_None in Ex. specialize (H _ E). lia.
Qed.

Lemma visit_durations_spec : forall pi durations video_name camera rest evs st,
  Inv pi durations evs st ->
  (forall d, In d rest -> In d durations /\ indexable pi camera d) ->
  exists st',
    visit_durations pi video_name camera rest st = Ok st' /\
    Inv pi durations (evs ++ map (fun d => (video_name, camera, d)) rest) st'.
Proof.
  intros pi durations video_name camera.
  induction rest as [|d rest IH]; intros evs st HI Hall; simpl.
  - exists st. rewrite app_nil_r. auto.
  - destruct (Hall d (or_introl eq_refl)) as [Hd Hidx].
    pose proof (@visit_step pi durations evs st video_name camera d HI Hd) as Hstep.
    destruct (placement_indexable Hidx) as [q Hq]. rewrite Hq in Hstep.
    destruct Hstep as [st1 [Hrun HI1]]. rewrite Hrun. simpl.
    destruct (IH _ _ HI1) as [st' [Hrun' HI']].
    { intros d' Hd'. apply Hall. now right. }
    exists st'. split; auto.
    now rewrite <- app_assoc in HI'.
Qed.

Lemma visit_videos_spec : forall pi durations camera_stats evs st,
  Inv pi durations evs st ->
  (forall video_name camera d, In (video_name, camera) camera_stats ->
     In d durations -> indexable pi camera d) ->
  exists st',
    visit_videos pi camera_stats durations st = Ok st' /\
    Inv pi durations (evs ++ events camera_stats durations) st'.
Proof.
  intros pi durations.
  induction camera_stats as [|[video_name camera] rest IH]; intros evs st HI Hall; simpl.
  - exists st. rewrite app_nil_r. auto.
  - destruct (@visit_durations_spec pi durations video_name camera durations evs st HI)
      as [st1 [Hrun HI1]].
    { intros d Hd. split; auto. apply (Hall video_name camera d); auto. now left. }
    rewrite Hrun. simpl.
    destruct (IH _ _ HI1) as [st' [Hrun' HI']].
    { intros v c d Hin Hd. apply (Hall v c d); auto. now right. }
    exists st'. split; auto.
    now rewrite <- app_assoc in HI'.
Qed.

(** *** The recall table *)

Lemma ddindex_total : forall tc d t tc1,
  ddindex String.eqb 0 d tc = (t, tc1) ->
  t = total_of tc d /\ forall d', total_of tc1 d' = total_of tc d'.
Proof.
  intros tc d t tc1. unfold ddindex, total_of.
  destruct (dget String.eqb d tc) as [c|] eqn:E; intros H; inversion H; subst.
  - auto.
  - split; auto. intros d'. rewrite (dget_dset String.eqb String.eqb_eq).
    destruct (String.eqb d d') eqn:E'; auto.
    apply String.eqb_eq in E'. subst. now rewrite E.
Qed.

Definition rates (total : nat) (mag_counts : counts) : dict key Q :=
  map (fun '(mag, count) => (mag, ratio count total)) mag_counts.

Lemma dget_recall_rates : forall ms tc d,
  dget String.eqb d (recall_rates ms tc) =
  match dget String.eqb d ms with
  | Some mag_counts =>
      if 0 <? total_of tc d then Some (rates (total_of tc d) mag_counts) else None
  | None => None
  end.
Proof.
  induction ms as [|[d0 inner0] rest IH]; intros tc d; simpl; [reflexivity|].
  destruct (ddindex String.eqb 0 d0 tc) as [t tc1] eqn:E.
  destruct (ddindex_total _ _ E) as [Ht Hsame]. subst t.
  destruct (String.eqb d d0) eqn:Ed.
  - apply String.eqb_eq in Ed. subst d0.
    destruct (0 <? total_of tc d) eqn:Epos; simpl.
    + rewrite String.eqb_refl. reflexivity.
    + rewrite IH. rewrite Hsame, Epos. destruct (dget String.eqb d rest); reflexivity.
  - destruct (0 <? total_of tc d0) eqn:Epos; simpl.
    + rewrite Ed, IH, Hsame. reflexivity.
    + rewrite IH, Hsame. reflexivity.
Qed.

Lemma dict_by_keys : forall (V : Type) (g : key -> V) (d : dict key V),
  NoDup (dkeys d) ->
  (forall k, In k (dkeys d) -> dget key_eqb k d = Some (g k)) ->
  d = map (fun k => (k, g k)) (dkeys d).
Proof.
  intros V g. induction d as [|[k0 v0] d IH]; simpl; intros Hnd Hall; [reflexivity|].
  inversion Hnd as [|? ? Hnotin Hnd']; subst.
  f_equal.
  - pose proof (Hall k0 (or_introl eq_refl)) as H.
    rewrite (eqb_refl' key_eqb key_eqb_eq) in H. congruence.
  - apply IH; auto. intros k Hk.
    pose proof (Hall k (or_intror Hk)) as H.
    rewrite (eqb_neq key_eqb key_eqb_eq) in H; auto.
    intro Heq. subst. contradiction.
Qed.

(** What [analyze_camera_stats_magnitude] returns when every summary
    vector it indexes is long enough: the listing of every bucket, and the
    recall table of every duration that was visited. *)
Lemma analyze_spec : forall camera_stats durations pi,
  (forall video_name camera d, In (video_name, camera) camera_stats ->
     In d durations -> indexable pi camera d) ->
  let evs := events camera_stats durations in
  exists recall detailed,
    analyze_camera_stats_magnitude camera_stats durations pi = Ok (recall, detailed) /\
    (forall d k, In d durations -> In k all_keys ->
       entry_of detailed d k = Some (hits pi d k evs)) /\
    (forall d, In d durations ->
       dget String.eqb d recall =
       if 0 <? visits d evs
       then Some (map (fun k => (k, ratio (List.length (hits pi d k evs)) (visits d evs)))
                    all_keys)
       else None).
Proof.
  intros camera_stats durations pi Hidx evs.
  destruct (@visit_videos_spec pi durations camera_stats [] (init_state durations)
              (init_state_inv pi durations) Hidx) as [st [Hrun HI]].
  simpl in HI. fold evs in HI.
  exists (recall_rates (magnitude_stats st) (total_counts st)), (detailed_stats st).
  split; [|split].
  - unfold analyze_camera_stats_magnitude. rewrite Hrun. reflexivity.
  - intros d k Hd Hk. apply (@inv_entries _ _ _ _ HI d k Hd Hk).
  - intros d Hd. rewrite dget_recall_rates, (inv_total HI).
    destruct (@inv_keys _ _ _ _ HI d Hd) as [[inner [Hget Hkeys]] _].
    unfold counts in *. rewrite Hget. destruct (0 <? visits d evs); [|reflexivity].
    f_equal. unfold rates.
    rewrite (@dict_by_keys nat (fun k => List.length (hits pi d k evs)) inner).
    + rewrite Hkeys, map_map. reflexivity.
    + rewrite Hkeys. apply all_keys_NoDup.
    + intros k Hk. rewrite Hkeys in Hk.
      destruct (@inv_entries _ _ _ _ HI d k Hd Hk) as [Hc _].
      unfold entry_of in Hc. unfold counts in *. now rewrite Hget in Hc.
Qed.

(** *** Reading the listings *)

Lemma in_events : forall camera_stats durations video_name camera d,
  In (video_name, camera, d) (events camera_stats durations) <->
  In (video_name, camera) camera_stats /\ In d durations.
Proof.
  intros cs ds v cam d. unfold events. rewrite in_flat_map. split.
  - intros [[v' cam'] [Hin Hmap]]. apply in_map_iff in Hmap.
    destruct Hmap as [d' [Heq Hd]]. inversion Heq; subst. auto.
  - intros [Hin Hd]. exists (v, cam). split; auto.
    apply in_map_iff. exists d. auto.
Qed.

Lemma in_hits : forall pi d k evs video_name x,
  In (video_name, x) (hits pi d k evs) <->
  exists camera, In (video_name, camera, d) evs /\
                 placement pi camera d = Ok (Some (k, x)).
Proof.
  intros pi d k evs v x. unfold hits. rewrite in_flat_map. split.
  - intros [[[v' cam] de] [Hin Hhit]]. unfold hit in Hhit.
    destruct (String.eqb de d) eqn:E; [|destruct Hhit].
    apply String.eqb_eq in E. subst de.
    destruct (placement pi cam d) as [[[ke y]|]|] eqn:Hp; try destruct Hhit.
    destruct (key_eqb ke k) eqn:Ek; [|destruct Hhit].
    apply key_eqb_eq in Ek. subst ke.
    destruct Hhit as [Heq|[]]. inversion Heq; subst. exists cam. auto.
  - intros [cam [Hin Hp]]. exists (v, cam, d). split; auto.
    unfold hit. rewrite String.eqb_refl, Hp.
    rewrite (eqb_refl' key_eqb key_eqb_eq). now left.
Qed.

Lemma visits_events : forall camera_stats durations d,
  visits d (events camera_stats durations) =
  List.length camera_stats * count_occ string_dec durations d.
Proof.
  intros cs ds d. unfold events.
  induction cs as [|[v cam] rest IH]; simpl; [reflexivity|].
  rewrite visits_app, IH. f_equal.
  unfold visits. clear IH. induction ds as [|d0 ds IH]; simpl; [reflexivity|].
  destruct (string_dec d0 d) as [Heq|Hne].
  - subst. rewrite String.eqb_refl. simpl. now rewrite IH.
  - apply String.eqb_neq in Hne. rewrite Hne. exact IH.
Qed.

Lemma dget_map_keys : forall (V : Type) (f : key -> V) ks k,
  In k ks -> dget key_eqb k (map (fun k0 => (k0, f k0)) ks) = Some (f k).
Proof.
  intros V f. induction ks as [|k0 ks IH]; intros k Hin; simpl; [destruct Hin|].
  destruct (key_eqb k k0) eqn:E.
  - apply key_eqb_eq in E. now subst.
  - destruct Hin as [Heq|Hin]; [|now apply IH].
    subst. rewrite (eqb_refl' key_eqb key_eqb_eq) in E. discriminate.
Qed.

Lemma unique_row : forall (V : Type) (d : dict string V) k v v',
  NoDup (dkeys d) -> In (k, v) d -> In (k, v') d -> v = v'.
Proof.
  intros V. induction d as [|[k0 v0] d IH]; intros k v v' Hnd H1 H2; simpl in *;
    [destruct H1|].
  inversion Hnd as [|? ? Hnotin Hnd']; subst.
  assert (Hkey : forall w, In (k0, w) d -> False).
  { intros w Hw. apply Hnotin. unfold dkeys. apply in_map_iff. exists (k0, w). auto. }
  destruct H1 as [E1|H1]; destruct H2 as [E2|H2].
  - congruence.
  - inversion E1; subst. exfalso. eapply Hkey; eauto.
  - inversion E2; subst. exfalso. eapply Hkey; eauto.
  - eapply IH; eauto.
Qed.

(** When no row has a summary for the duration, every visit of the
    duration goes to 'failed'. *)
Lemma hits_all_failed : forall pi d k evs,
  (forall video_name (camera : Camera), In (video_name, camera, d) evs ->
     dget String.eqb d camera = None) ->
  List.length (hits pi d k evs) = if key_eqb k KFailed then visits d evs else 0.
Proof.
  intros pi d k. induction evs as [|[[v cam] de] rest IH]; intros Hall.
  - simpl. destruct (key_eqb k KFailed); reflexivity.
  - change (hits pi d k ((v, cam, de) :: rest))
      with (hit pi d k (v, cam, de) ++ hits pi d k rest).
    rewrite List.length_app, IH by (intros v' c' H; apply (Hall v' c'); now right).
    change (visits d ((v, cam, de) :: rest))
      with (visits d ([(v, cam, de)] ++ rest)).
    rewrite visits_app, visits_single. unfold hit.
    destruct (String.eqb de d) eqn:E.
    + apply String.eqb_eq in E. subst de.
      unfold placement. rewrite (Hall v cam (or_introl eq_refl)).
      destruct k; simpl; reflexivity.
    + destruct (key_eqb k KFailed); reflexivity.
Qed.

Lemma recall_rates_no_totals : forall ms tc,
  (forall d, total_of tc d = 0) -> recall_rates ms tc = [].
Proof.
  induction ms as [|[d0 inner0] rest IH]; intros tc Hz; simpl; [reflexivity|].
  destruct (ddindex String.eqb 0 d0 tc) as [t tc1] eqn:E.
  destruct (ddindex_total _ _ E) as [Ht Hsame]. subst t. rewrite Hz. simpl.
  apply IH. intros d. rewrite Hsame. apply Hz.
Qed.

Lemma analyze_empty : forall durations pi,
  exists detailed,
    analyze_camera_stats_magnitude [] durations pi = Ok ([], detailed).
Proof.
  intros durations pi. unfold analyze_camera_stats_magnitude. simpl.
  exists (detailed_stats (init_state durations)). f_equal. f_equal.
  apply recall_rates_no_totals. intros d.
  rewrite (inv_total (init_state_inv pi durations)). reflexivity.
Qed.

Lemma ratio_all : forall n, 0 < n -> Qeq (ratio n n) (Qmake 1 1).
Proof.
  intros n Hn. unfold ratio, Qeq. simpl.
  rewrite <- (positive_nat_Z (Pos.of_nat n)), Nat2Pos.id by lia. lia.
Qed.

Lemma ratio_none : forall n, Qeq (ratio 0 n) (Qmake 0 1).
Proof. intros n. unfold ratio, Qeq. simpl. reflexivity. Qed.

(** *** The recalls of a duration add up to one when every value finds a
    bucket *)

Definition count_sum (pi : nat) (d : string) (evs : list event) : nat :=
  list_sum (map (fun k => List.length (hits pi d k evs)) all_keys).

Lemma count_sum_visits : forall pi d evs,
  (forall video_name (camera : Camera), In (video_name, camera, d) evs ->
     exists k x, placement pi camera d = Ok (Some (k, x))) ->
  count_sum pi d evs = visits d evs.
Proof.
  intros pi d. unfold count_sum.
  induction evs as [|[[v cam] de] rest IH]; intros Hall; [reflexivity|].
  change (visits d ((v, cam, de) :: rest)) with (visits d ([(v, cam, de)] ++ rest)).
  rewrite visits_app, visits_single, <- IH
    by (intros v' c' H; apply (Hall v' c'); now right).
  unfold all_keys, magnitudes. cbn [map app list_sum fold_right hits flat_map].
  rewrite !List.length_app.
  assert (Hone : List.length (hit pi d (KMag (MInt 10)) (v, cam, de))
                 + List.length (hit pi d (KMag (MInt 100)) (v, cam, de))
                 + List.length (hit pi d (KMag (MInt 1000)) (v, cam, de))
                 + List.length (hit pi d (KMag MInf) (v, cam, de))
                 + List.length (hit pi d KFailed (v, cam, de))
                 = if String.eqb de d then 1 else 0).
  { unfold hit. destruct (String.eqb de d) eqn:E; [|reflexivity].
    apply String.eqb_eq in E. subst de.
    destruct (Hall v cam (or_introl eq_refl)) as [k [x Hp]]. rewrite Hp.
    assert (Hk : In k all_keys).
    { unfold placement in Hp. destruct (dget String.eqb d cam) as [summary|].
      - destruct (nth_error summary pi) as [y|]; [|discriminate].
        destruct (find (lt_mag (abs y)) magnitudes) as [m|] eqn:Hf; [|discriminate].
        inversion Hp; subst. apply magnitudes_in_keys. eapply find_some_in; eauto.
      - inversion Hp; subst. apply failed_in_keys. }
    unfold all_keys, magnitudes in Hk. simpl in Hk.
    repeat (destruct Hk as [Hk|Hk]; [subst k; reflexivity|]). destruct Hk. }
  unfold hits in *. lia.
Qed.

Definition recall_sum (rates : dict key Q) : Q :=
  fold_right (fun kv acc => Qplus (snd kv) acc) (Qmake 0 1) rates.

Lemma recall_sum_ratio : forall (count : key -> nat) (total : nat) (ks : list key),
  Qeq (recall_sum (map (fun k => (k, ratio (count k) total)) ks))
      (ratio (list_sum (map count ks)) total).
Proof.
  intros count total. induction ks as [|k ks IH]; simpl.
  - unfold ratio, Qeq. reflexivity.
  - rewrite IH. unfold ratio, Qeq, Qplus. simpl.
    rewrite Nat2Z.inj_add. rewrite Pos2Z.inj_mul. ring.
Qed.

(** For a duration all of whose values are below +inf in absolute value
    (missing summaries count as failed), the recalls of the buckets,
    'failed' among them, add up to 1. *)
Lemma recalls_sum_to_one : forall camera_stats durations pi d,
  camera_stats <> [] -> In d durations ->
  (forall video_name camera d', In (video_name, camera) camera_stats ->
     In d' durations -> indexable pi camera d') ->
  (forall video_name camera summary v,
     In (video_name, camera) camera_stats ->
     dget String.eqb d camera = Some summary -> nth_error summary pi = Some v ->
     lt_mag (abs v) MInf = true) ->
  exists recall detailed rates,
    analyze_camera_stats_magnitude camera_stats durations pi = Ok (recall, detailed) /\
    dget String.eqb d recall = Some rates /\
    Qeq (recall_sum rates) (Qmake 1 1).
Proof.
  intros cs ds pi d Hne Hd Hidx Hfin.
  destruct (@analyze_spec cs ds pi Hidx) as [recall [detailed [Hrun [_ Hrec]]]].
  assert (Hpos : 0 < visits d (events cs ds)).
  { rewrite visits_events. apply Nat.mul_pos_pos.
    - destruct cs; [congruence|simpl; lia].
    - apply count_occ_In. exact Hd. }
  exists recall, detailed.
  eexists. split; [exact Hrun|]. split.
  - rewrite (Hrec d Hd). apply Nat.ltb_lt in Hpos. rewrite Hpos. reflexivity.
  - rewrite (recall_sum_ratio (fun k => List.length (hits pi d k (events cs ds)))).
    fold (count_sum pi d (events cs ds)). rewrite count_sum_visits.
    + now apply ratio_all.
    + intros v cam Hin. apply in_events in Hin. destruct Hin as [Hin _].
      unfold placement.
      destruct (dget String.eqb d cam) as [summary|] eqn:Hget; [|eauto].
      pose proof (Hidx v cam d Hin Hd summary Hget) as Hlen.
      destruct (nth_error summary pi) as [y|] eqn:Hy.
      2:{ apply nth_error_None in Hy. lia. }
      destruct (find (lt_mag (abs y)) magnitudes) as [m|] eqn:Hf; [simpl; eauto|].
      exfalso. pose proof (find_none _ _ Hf MInf) as Hno.
      rewrite (Hfin v cam summary y Hin Hget Hy) in Hno.
      assert (false = true -> False) by discriminate.
      apply H. symmetry. apply Hno. unfold magnitudes. simpl. auto.
Qed.

End CameraStatsFacts.

(** ** video_cut.py: the process scheduler *)

Module SchedulerFacts.
Import Scheduler.
Unset Implicit Arguments.

Definition gpu_of (e : Event) : nat :=
  match e with
  | Started g _ | Joined g _ => g
  end.

(** Two traces tell the same about one GPU. *)
Definition same_for (gpu_id : nat) (tr tr' : list Event) : Prop :=
  in_flight gpu_id tr' = in_flight gpu_id tr /\
  started gpu_id tr' = started gpu_id tr /\
  joined gpu_id tr' = joined gpu_id tr.

Lemma same_for_refl : forall gpu_id tr, same_for gpu_id tr tr.
Proof. intros. repeat split. Qed.

Lemma same_for_trans : forall gpu_id tr1 tr2 tr3,
  same_for gpu_id tr1 tr2 -> same_for gpu_id tr2 tr3 -> same_for gpu_id tr1 tr3.
Proof.
  intros gpu_id tr1 tr2 tr3 [A [B C]] [A' [B' C']].
  repeat split; congruence.
Qed.

Lemma same_for_cons : forall gpu_id e tr,
  gpu_of e <> gpu_id -> same_for gpu_id tr (e :: tr).
Proof.
  intros gpu_id [g v|g v] tr H; simpl in H;
    apply Nat.eqb_neq in H; repeat split; simpl; now rewrite H.
Qed.

Lemma within_cons : forall e tr,
  always_within tr ->
  in_flight (gpu_of e) (e :: tr) <= processes_per_gpu ->
  always_within (e :: tr).
Proof.
  intros e tr Htr He. split; [|exact Htr].
  intros gpu_id. destruct (Nat.eq_dec (gpu_of e) gpu_id) as [Heq|Hne].
  - now subst.
  - destruct (same_for_cons gpu_id e tr Hne) as [H _]. rewrite H.
    destruct tr; apply Htr.
Qed.

Lemma always_within_now : forall tr gpu_id,
  always_within tr -> in_flight gpu_id tr <= processes_per_gpu.
Proof. intros tr gpu_id H. destruct tr; apply H. Qed.

(** What the trace and the state of one GPU have in common. *)
Definition GInv (gpu_id : nat) (g : Gpu) (tr : list Event) (group : list string)
  : Prop :=
  in_flight gpu_id tr = List.length (processes g) /\
  List.length (processes g) <= processes_per_gpu /\
  started gpu_id tr ++ queue g = group /\
  Permutation (joined gpu_id tr ++ map video (processes g))
    (started gpu_id tr).

(** After the first processes were started: videos wait only behind four
    running processes. *)
Definition Full (g : Gpu) : Prop :=
  queue g <> [] -> List.length (processes g) = processes_per_gpu.

Lemma GInv_same_for : forall gpu_id g tr tr' group,
  same_for gpu_id tr tr' -> GInv gpu_id g tr group -> GInv gpu_id g tr' group.
Proof.
  intros gpu_id g tr tr' group [A [B C]] [H1 [H2 [H3 H4]]].
  unfold GInv. rewrite A, B, C. auto.
Qed.

Lemma remove_at_length : forall (A : Type) (l : list A) i x,
  nth_error l i = Some x -> S (List.length (remove_at i l)) = List.length l.
Proof.
  induction l as [|h t IH]; intros [|i] x H; simpl in *; try discriminate; auto.
  f_equal. eapply IH; eauto.
Qed.

Lemma remove_at_perm : forall (A : Type) (l : list A) i x,
  nth_error l i = Some x -> Permutation l (x :: remove_at i l).
Proof.
  induction l as [|h t IH]; intros [|i] x H; simpl in *; try discriminate.
  - inversion H. subst. apply Permutation_refl.
  - eapply perm_trans.
    + apply perm_skip. eapply IH; eauto.
    + apply perm_swap.
Qed.

Lemma join_inv : forall gpu_id g tr group i p,
  GInv gpu_id g tr group -> always_within tr ->
  nth_error (processes g) i = Some p ->
  let tr' := Joined gpu_id (video p) :: tr in
  GInv gpu_id (mkGpu (remove_at i (processes g)) (queue g)) tr' group /\
  always_within tr' /\
  (forall other, other <> gpu_id -> same_for other tr tr').
Proof.
  intros gpu_id g tr group i p [H1 [H2 [H3 H4]]] Hw Hp tr'.
  pose proof (remove_at_length _ _ _ _ Hp) as Hlen. subst tr'.
  assert (Hfl : in_flight gpu_id (Joined gpu_id (video p) :: tr)
                = List.length (remove_at i (processes g))).
  { simpl. rewrite Nat.eqb_refl, H1, <- Hlen. reflexivity. }
  split; [|split].
  - unfold GInv. rewrite Hfl. simpl. rewrite Nat.eqb_refl.
    repeat split; auto.
    + lia.
    + eapply perm_trans; [|exact H4].
      rewrite <- app_assoc. apply Permutation_app_head. simpl.
      apply Permutation_sym.
      apply (Permutation_map video (remove_at_perm _ _ _ _ Hp)).
  - apply within_cons; auto. simpl gpu_of. rewrite Hfl. lia.
  - intros other Hne. apply same_for_cons. simpl. auto.
Qed.

Lemma start_inv : forall gpu_id procs v q tr group p,
  GInv gpu_id (mkGpu procs (v :: q)) tr group -> always_within tr ->
  List.length procs < processes_per_gpu ->
  video p = v ->
  let tr' := Started gpu_id v :: tr in
  GInv gpu_id (mkGpu (procs ++ [p]) q) tr' group /\
  always_within tr' /\
  (forall other, other <> gpu_id -> same_for other tr tr').
Proof.
  intros gpu_id procs v q tr group p [H1 [H2 [H3 H4]]] Hw Hlt Hv tr'.
  simpl in H1, H2, H3, H4. subst tr'.
  assert (Hfl : in_flight gpu_id (Started gpu_id v :: tr) = List.length (procs ++ [p])).
  { simpl. rewrite Nat.eqb_refl, H1, List.length_app. simpl. lia. }
  split; [|split].
  - unfold GInv. rewrite Hfl. simpl. rewrite Nat.eqb_refl.
    repeat split; auto.
    + rewrite List.length_app. simpl. lia.
    + rewrite <- app_assoc. exact H3.
    + rewrite map_app, app_assoc. simpl. rewrite Hv.
      apply Permutation_app_tail. exact H4.
  - apply within_cons; auto. simpl gpu_of. rewrite Hfl, List.length_app. simpl. lia.
  - intros other Hne. apply same_for_cons. simpl. auto.
Qed.

(** *** The inner loop keeps the invariant *)

Definition keeps (gpu_id : nat) (g : Gpu) (sh : Shared) (g' : Gpu) (sh' : Shared)
  (group : list string) : Prop :=
  GInv gpu_id g' (trace sh') group /\ Full g' /\ always_within (trace sh') /\
  (forall other, other <> gpu_id -> same_for other (trace sh) (trace sh')) /\
  (remaining_videos sh' - Z.of_nat (List.length (queue g'))
   = remaining_videos sh - Z.of_nat (List.length (queue g)))%Z /\
  clock sh <= clock sh'.

Lemma keeps_refl : forall gpu_id g sh group,
  GInv gpu_id g (trace sh) group -> Full g -> always_within (trace sh) ->
  keeps gpu_id g sh g sh group.
Proof.
  intros. unfold keeps. split; [|split; [|split; [|split; [|split]]]]; auto.
  intros. apply same_for_refl.
Qed.

Definition moved (gpu_id : nat) (g : Gpu) (sh : Shared) (g1 : Gpu) (sh1 : Shared)
  : Prop :=
  (forall other, other <> gpu_id -> same_for other (trace sh) (trace sh1)) /\
  (remaining_videos sh1 - Z.of_nat (List.length (queue g1))
   = remaining_videos sh - Z.of_nat (List.length (queue g)))%Z /\
  clock sh <= clock sh1.

Lemma keeps_after : forall gpu_id g sh g1 sh1 g' sh' group,
  moved gpu_id g sh g1 sh1 -> keeps gpu_id g1 sh1 g' sh' group ->
  keeps gpu_id g sh g' sh' group.
Proof.
  intros gpu_id g sh g1 sh1 g' sh' group [M1 [M2 M3]] [A [B [C [D [E F]]]]].
  unfold keeps. split; [|split; [|split; [|split; [|split]]]]; auto.
  - intros other Hne. eapply same_for_trans; [apply M1|apply D]; auto.
  - lia.
  - lia.
Qed.

Lemma poll_inv : forall is_alive fuel gpu_id i g sh g' sh' i' group,
  poll is_alive fuel gpu_id i g sh = (g', sh', i') ->
  GInv gpu_id g (trace sh) group -> Full g -> always_within (trace sh) ->
  keeps gpu_id g sh g' sh' group.
Proof.
  intros is_alive. induction fuel as [|fuel IH];
    intros gpu_id i g sh g' sh' i' group Hrun HG HF Hw; simpl in Hrun.
  - inversion Hrun; subst. now apply keeps_refl.
  - destruct (nth_error (processes g) i) as [p|] eqn:Hp.
    2:{ inversion Hrun; subst. now apply keeps_refl. }
    destruct (is_alive (clock sh) p).
    + apply (keeps_after gpu_id g sh g (tick sh)).
      * split; [|split]; simpl; auto. intros. apply same_for_refl.
      * eapply IH; eauto.
    + destruct (join_inv gpu_id g (trace sh) group i p HG Hw Hp) as [HG1 [Hw1 Ho1]].
      pose proof (remove_at_length _ _ _ _ Hp) as Hlen.
      destruct (queue g) as [|next_video q] eqn:Hq.
      * apply (keeps_after gpu_id g sh (mkGpu (remove_at i (processes g)) [])
                 (join gpu_id p (tick sh))).
        -- split; [|split]; simpl; auto. rewrite Hq. reflexivity.
        -- eapply IH; eauto. intros Hne. simpl in Hne. congruence.
      * assert (Hfull : List.length (processes g) = processes_per_gpu).
        { apply HF. rewrite Hq. discriminate. }
        set (new_p := mkProcess (S (clock sh)) next_video) in *.
        assert (Hlt : List.length (remove_at i (processes g)) < processes_per_gpu) by lia.
        destruct (start_inv gpu_id (remove_at i (processes g)) next_video q
                    (Joined gpu_id (video p) :: trace sh) group new_p HG1 Hw1 Hlt eq_refl)
          as [HG2 [Hw2 Ho2]].
        simpl in Hrun.
        match type of Hrun with
        | poll _ _ _ _ ?g2 ?sh2 = _ => apply (keeps_after gpu_id g sh g2 sh2)
        end.
        -- split; [|split]; simpl; auto.
           ++ intros other Hne. eapply same_for_trans; [apply Ho1|apply Ho2]; auto.
           ++ rewrite Hq. simpl List.length. lia.
        -- eapply IH; eauto. intros _. simpl. rewrite List.length_app. simpl. lia.
Qed.

(** *** All GPUs *)

Fixpoint AllInv (gpu_id : nat) (gpus : list Gpu) (groups : list (list string))
  (tr : list Event) : Prop :=
  match gpus, groups with
  | [], [] => True
  | g :: gs, group :: rest =>
      GInv gpu_id g tr group /\ Full g /\ AllInv (S gpu_id) gs rest tr
  | _, _ => False
  end.

Lemma AllInv_same : forall gpus gpu_id groups tr tr',
  (forall other, gpu_id <= other -> same_for other tr tr') ->
  AllInv gpu_id gpus groups tr -> AllInv gpu_id gpus groups tr'.
Proof.
  induction gpus as [|g gs IH]; intros gpu_id [|group rest] tr tr' Hsame H;
    simpl in *; auto.
  destruct H as [HG [HF Hrest]]. split; [|split]; auto.
  - eapply GInv_same_for; eauto.
  - eapply IH; eauto. intros other Hle. apply Hsame. lia.
Qed.

Lemma AllInv_length : forall gpus gpu_id groups tr,
  AllInv gpu_id gpus groups tr -> List.length gpus = List.length groups.
Proof.
  induction gpus as [|g gs IH]; intros gpu_id [|group rest] tr H; simpl in *;
    try contradiction; auto.
  destruct H as [_ [_ H]]. f_equal. eapply IH; eauto.
Qed.

Lemma AllInv_nth : forall gpus gpu_id groups tr j g,
  AllInv gpu_id gpus groups tr -> nth_error gpus j = Some g ->
  GInv (gpu_id + j) g tr (nth j groups []) /\ Full g.
Proof.
  induction gpus as [|g0 gs IH]; intros gpu_id [|group rest] tr j g H Hj;
    simpl in *; try contradiction; destruct j as [|j]; simpl in *; try discriminate.
  - inversion Hj. subst. rewrite Nat.add_0_r. tauto.
  - destruct H as [_ [_ H]]. replace (gpu_id + S j) with (S gpu_id + j) by lia.
    eapply IH; eauto.
Qed.

Definition all_moved (gpu_id : nat) (gpus : list Gpu) (sh : Shared)
  (gpus' : list Gpu) (sh' : Shared) : Prop :=
  (forall other, other < gpu_id \/ gpu_id + List.length gpus <= other ->
     same_for other (trace sh) (trace sh')) /\
  (remaining_videos sh' - Z.of_nat (sum_queues gpus')
   = remaining_videos sh - Z.of_nat (sum_queues gpus))%Z /\
  clock sh <= clock sh'.

Lemma poll_all_inv : forall is_alive gpus gpu_id groups sh gpus' sh',
  poll_all is_alive gpu_id gpus sh = (gpus', sh') ->
  AllInv gpu_id gpus groups (trace sh) -> always_within (trace sh) ->
  AllInv gpu_id gpus' groups (trace sh') /\ always_within (trace sh') /\
  all_moved gpu_id gpus sh gpus' sh'.
Proof.
  intros is_alive. induction gpus as [|g gs IH];
    intros gpu_id groups sh gpus' sh' Hrun HA Hw; simpl in Hrun.
  - inversion Hrun; subst. split; [|split]; auto.
    split; [|split]; auto. intros. apply same_for_refl.
  - destruct groups as [|group rest]; simpl in HA; [contradiction|].
    destruct HA as [HG [HF HA]].
    destruct (poll_gpu is_alive gpu_id g sh) as [[g1 sh1] i1] eqn:Hpoll.
    destruct (poll_all is_alive (S gpu_id) gs sh1) as [rest1 sh2] eqn:Hrest.
    inversion Hrun; subst gpus' sh'. clear Hrun.
    destruct (poll_inv _ _ _ _ _ _ _ _ _ group Hpoll HG HF Hw)
      as [HG1 [HF1 [Hw1 [Ho1 [Hz1 Hc1]]]]].
    assert (HA1 : AllInv (S gpu_id) gs rest (trace sh1)).
    { eapply AllInv_same; [|exact HA]. intros other Hle. apply Ho1. lia. }
    destruct (IH _ _ _ _ _ Hrest HA1 Hw1) as [HA2 [Hw2 [Ho2 [Hz2 Hc2]]]].
    split; [|split]; auto.
    + simpl. split; [|split]; auto.
      eapply GInv_same_for; [|exact HG1]. apply Ho2. lia.
    + split; [|split].
      * intros other Hother. simpl in Hother.
        eapply same_for_trans; [apply Ho1|apply Ho2]; lia.
      * simpl. lia.
      * lia.
Qed.

(** Before the first processes are started. *)
Fixpoint Init (gpu_id : nat) (gpus : list Gpu) (groups : list (list string))
  (tr : list Event) : Prop :=
  match gpus, groups with
  | [], [] => True
  | g :: gs, group :: rest =>
      GInv gpu_id g tr group /\ processes g = [] /\ Init (S gpu_id) gs rest tr
  | _, _ => False
  end.

Lemma Init_same : forall gpus gpu_id groups tr tr',
  (forall other, gpu_id <= other -> same_for other tr tr') ->
  Init gpu_id gpus groups tr -> Init gpu_id gpus groups tr'.
Proof.
  induction gpus as [|g gs IH]; intros gpu_id [|group rest] tr tr' Hsame H;
    simpl in *; auto.
  destruct H as [HG [HF Hrest]]. split; [|split]; auto.
  - eapply GInv_same_for; eauto.
  - eapply IH; eauto. intros other Hle. apply Hsame. lia.
Qed.

Lemma fill_inv : forall n gpu_id g sh g' sh' group,
  fill n gpu_id g sh = (g', sh') ->
  GInv gpu_id g (trace sh) group -> always_within (trace sh) ->
  List.length (processes g) + n <= processes_per_gpu ->
  n <= List.length (queue g) ->
  GInv gpu_id g' (trace sh') group /\ always_within (trace sh') /\
  (forall other, other <> gpu_id -> same_for other (trace sh) (trace sh')) /\
  List.length (processes g') = List.length (processes g) + n /\
  List.length (queue g') + n = List.length (queue g) /\
  clock sh' = clock sh /\ remaining_videos sh' = remaining_videos sh.
Proof.
  induction n as [|n IH]; intros gpu_id g sh g' sh' group Hrun HG Hw Hcap Hq;
    simpl in Hrun.
  - inversion Hrun; subst.
    split; [|split; [|split; [|split; [|split; [|split]]]]]; auto; try lia.
    intros. apply same_for_refl.
  - destruct g as [procs qu]. simpl in *.
    destruct qu as [|video_name q]; simpl in Hq; [lia|].
    assert (Hlt : List.length procs < processes_per_gpu) by lia.
    destruct (start_inv gpu_id procs video_name q (trace sh) group
                (mkProcess (clock sh) video_name) HG Hw Hlt eq_refl)
      as [HG1 [Hw1 Ho1]].
    match type of Hrun with
    | fill _ _ ?g1 ?sh1 = _ =>
        destruct (IH gpu_id g1 sh1 g' sh' group Hrun HG1 Hw1)
          as [A [B [C [D [E [F G]]]]]]
    end.
    + simpl. rewrite List.length_app. simpl. lia.
    + simpl. lia.
    + simpl in *. rewrite List.length_app in D. simpl in D.
      split; [|split; [|split; [|split; [|split; [|split]]]]]; auto; try lia.
      intros other Hne. eapply same_for_trans; [apply Ho1|apply C]; auto.
Qed.

Lemma fill_all_inv : forall gpus gpu_id groups sh gpus' sh',
  fill_all gpu_id gpus sh = (gpus', sh') ->
  Init gpu_id gpus groups (trace sh) -> always_within (trace sh) ->
  AllInv gpu_id gpus' groups (trace sh') /\ always_within (trace sh') /\
  (forall other, other < gpu_id \/ gpu_id + List.length gpus <= other ->
     same_for other (trace sh) (trace sh')) /\
  clock sh' = clock sh.
Proof.
  induction gpus as [|g gs IH]; intros gpu_id groups sh gpus' sh' Hrun HI Hw;
    cbn [fill_all] in Hrun.
  - inversion Hrun; subst. destruct groups; simpl in *; try contradiction.
    split; [|split; [|split]]; auto. intros. apply same_for_refl.
  - destruct groups as [|group rest]; simpl in HI; [contradiction|].
    destruct HI as [HG [Hnil HI]].
    destruct (fill (Nat.min processes_per_gpu (List.length (queue g))) gpu_id g sh)
      as [g1 sh1] eqn:Hfill.
    destruct (fill_all (S gpu_id) gs sh1) as [rest1 sh2] eqn:Hrest.
    inversion Hrun; subst gpus' sh'. clear Hrun.
    destruct (fill_inv _ _ _ _ _ _ group Hfill HG Hw)
      as [HG1 [Hw1 [Ho1 [Hl1 [Hq1 [Hc1 _]]]]]].
    { rewrite Hnil. cbn [List.length Nat.add]. apply Nat.le_min_l. }
    { apply Nat.le_min_r. }
    assert (HI1 : Init (S gpu_id) gs rest (trace sh1)).
    { eapply Init_same; [|exact HI]. intros other Hle. apply Ho1. lia. }
    destruct (IH _ _ _ _ _ Hrest HI1 Hw1) as [HA2 [Hw2 [Ho2 Hc2]]].
    split; [|split; [|split]]; auto.
    + simpl. split; [|split]; auto.
      * eapply GInv_same_for; [|exact HG1]. apply Ho2. lia.
      * intros Hne. rewrite Hl1, Hnil.
        destruct (queue g1) as [|x q1] eqn:E; [congruence|].
        cbn [List.length Nat.add] in *. unfold processes_per_gpu in *. lia.
    + intros other Hother. simpl in Hother.
      eapply same_for_trans; [apply Ho1|apply Ho2]; lia.
    + congruence.
Qed.

(** *** The groups *)

Lemma append_at_length : forall (A : Type) (groups : list (list A)) i x,
  List.length (append_at i x groups) = List.length groups.
Proof.
  induction groups as [|g rest IH]; intros [|i] x; simpl; auto.
Qed.

Lemma append_at_concat : forall (A : Type) (groups : list (list A)) i x,
  i < List.length groups ->
  Permutation (List.concat (append_at i x groups)) (List.concat groups ++ [x]).
Proof.
  induction groups as [|g rest IH]; intros [|i] x Hi; simpl in *; try lia.
  - rewrite <- !app_assoc. apply Permutation_app_head. apply Permutation_app_comm.
  - rewrite <- app_assoc. apply Permutation_app_head. apply IH. lia.
Qed.

Lemma group_videos_ok : forall num_gpus video_list i groups,
  num_gpus <> 0 -> List.length groups = num_gpus ->
  exists groups',
    group_videos num_gpus i video_list groups = Ok groups' /\
    List.length groups' = num_gpus /\
    Permutation (List.concat groups') (List.concat groups ++ video_list).
Proof.
  intros num_gpus. induction video_list as [|v rest IH]; intros i groups Hn Hlen; simpl.
  - exists groups. rewrite app_nil_r. auto.
  - destruct (num_gpus =? 0) eqn:E; [apply Nat.eqb_eq in E; contradiction|].
    destruct (IH (S i) (append_at (i mod num_gpus) v groups) Hn) as [groups' [A [B C]]].
    { now rewrite append_at_length. }
    exists groups'. split; [|split]; auto.
    eapply perm_trans; [exact C|].
    replace (List.concat groups ++ v :: rest) with ((List.concat groups ++ [v]) ++ rest)
      by (rewrite <- app_assoc; reflexivity).
    apply Permutation_app_tail. apply append_at_concat.
    rewrite Hlen. apply Nat.mod_upper_bound. exact Hn.
Qed.

Lemma concat_repeat_nil : forall (A : Type) n, List.concat (repeat (@nil A) n) = [].
Proof. induction n; simpl; auto. Qed.

Lemma Init_start : forall groups gpu_id,
  Init gpu_id (map (fun videos => mkGpu [] videos) groups) groups [].
Proof.
  induction groups as [|group rest IH]; intros gpu_id; simpl; auto.
  split; [|split]; auto.
  unfold GInv. simpl. repeat split; auto. unfold processes_per_gpu. lia.
Qed.

(** *** The monitoring loop *)

Definition SInv (gpus : list Gpu) (groups : list (list string)) (sh : Shared) : Prop :=
  AllInv 0 gpus groups (trace sh) /\ always_within (trace sh) /\
  remaining_videos sh = Z.of_nat (sum_queues gpus).

Lemma main_loop_inv : forall is_alive fuel gpus groups sh gpus' sh' b,
  main_loop is_alive fuel gpus sh = (gpus', sh', b) ->
  SInv gpus groups sh ->
  SInv gpus' groups sh' /\
  (b = true -> busy gpus' sh' = false) /\
  (forall other, List.length groups <= other -> same_for other (trace sh) (trace sh')).
Proof.
  intros is_alive. induction fuel as [|fuel IH];
    intros gpus groups sh gpus' sh' b Hrun HS; simpl in Hrun.
  - inversion Hrun; subst. split; [|split]; auto.
    + intros Hb. now apply negb_true_iff in Hb.
    + intros. apply same_for_refl.
  - destruct (busy gpus sh) eqn:Hbusy.
    + destruct (poll_all is_alive 0 gpus sh) as [gpus1 sh1] eqn:Hpoll.
      destruct HS as [HA [Hw Hr]].
      destruct (poll_all_inv _ _ _ groups _ _ _ Hpoll HA Hw) as [HA1 [Hw1 [Ho1 [Hz1 Hc1]]]].
      destruct (IH gpus1 groups (tick sh1) gpus' sh' b Hrun) as [HS' [Hb' Ho']].
      { split; [|split]; simpl; auto. lia. }
      split; [|split]; auto.
      intros other Hle. eapply same_for_trans; [apply Ho1|apply Ho']; auto.
      right. rewrite (AllInv_length _ _ _ _ HA). simpl. lia.
    + inversion Hrun; subst. split; [|split]; auto. intros. apply same_for_refl.
Qed.

Lemma idle_empty : forall gpus sh,
  busy gpus sh = false -> remaining_videos sh = Z.of_nat (sum_queues gpus) ->
  Forall (fun g => processes g = [] /\ queue g = []) gpus.
Proof.
  intros gpus sh Hbusy Hr. unfold busy in Hbusy.
  apply orb_false_iff in Hbusy. destruct Hbusy as [Hrem Hprocs].
  apply Z.ltb_ge in Hrem. rewrite Hr in Hrem.
  assert (Hsum : sum_queues gpus = 0) by lia. clear Hr Hrem.
  induction gpus as [|g gs IH]; constructor; simpl in *.
  - apply orb_false_iff in Hprocs. destruct Hprocs as [Hp _].
    destruct (processes g); [|discriminate]. split; auto.
    destruct (queue g); [auto|simpl in Hsum; lia].
  - apply IH.
    + apply orb_false_iff in Hprocs. tauto.
    + lia.
Qed.

Lemma drain_idle : forall gpus gpu_id sh,
  Forall (fun g => processes g = [] /\ queue g = []) gpus ->
  drain gpu_id gpus sh = sh.
Proof.
  induction gpus as [|g gs IH]; intros gpu_id sh H; simpl; auto.
  inversion H as [|? ? [Hp _] Hrest]; subst. rewrite Hp. simpl. now apply IH.
Qed.

(** *** The loop stops when processes end *)

Section Progress.
Variable is_alive : nat -> Process -> bool.
(** No process is alive [lifetime] time units after it was started. *)
Variable lifetime : nat.
Hypothesis processes_end :
  forall t p, started_at p + lifetime <= t -> is_alive t p = false.

Local Arguments Nat.sub : simpl never.
Local Arguments Nat.mul : simpl never.
Local Arguments Nat.add : simpl never.

Definition weight (t : nat) (p : Process) : nat := S (started_at p + lifetime - t).

Definition weights (t : nat) (procs : list Process) : nat :=
  list_sum (map (weight t) procs).

Definition pot (t : nat) (g : Gpu) : nat :=
  weights t (processes g) + (lifetime + 2) * List.length (queue g).

Definition total_pot (t : nat) (gpus : list Gpu) : nat :=
  list_sum (map (pot t) gpus).

Lemma weights_mono : forall procs t t', t <= t' -> weights t' procs <= weights t procs.
Proof.
  unfold weights. induction procs as [|p ps IH]; intros t t' H; simpl; auto.
  specialize (IH t t' H). unfold weight in *. lia.
Qed.

Lemma weights_remove : forall procs t i p,
  nth_error procs i = Some p ->
  weights t (remove_at i procs) + weight t p = weights t procs.
Proof.
  unfold weights. induction procs as [|h ps IH]; intros t [|i] p H;
    cbn [remove_at map list_sum nth_error fold_right] in *; try discriminate.
  - inversion H. subst. lia.
  - specialize (IH t i p H). unfold list_sum in *. lia.
Qed.

Lemma weights_app : forall t l1 l2, weights t (l1 ++ l2) = weights t l1 + weights t l2.
Proof. intros. unfold weights. now rewrite map_app, list_sum_app. Qed.

Lemma pot_mono : forall g t t', t <= t' -> pot t' g <= pot t g.
Proof.
  intros g t t' H. unfold pot. pose proof (weights_mono (processes g) t t' H). lia.
Qed.

Lemma total_pot_mono : forall gpus t t', t <= t' -> total_pot t' gpus <= total_pot t gpus.
Proof.
  unfold total_pot. induction gpus as [|g gs IH]; intros t t' H; simpl; auto.
  pose proof (pot_mono g t t' H). specialize (IH t t' H). lia.
Qed.

Lemma poll_pot : forall fuel gpu_id i g sh g' sh' i',
  poll is_alive fuel gpu_id i g sh = (g', sh', i') ->
  clock sh <= clock sh' /\
  pot (clock sh') g' <= pot (clock sh) g /\
  (fuel <> 0 -> nth_error (processes g) i <> None ->
   pot (clock sh') g' < pot (clock sh) g).
Proof.
  induction fuel as [|fuel IH]; intros gpu_id i g sh g' sh' i' Hrun; simpl in Hrun.
  - inversion Hrun; subst. split; [|split]; auto. intros H. contradiction.
  - destruct (nth_error (processes g) i) as [p|] eqn:Hp.
    2:{ inversion Hrun; subst. split; [|split]; auto. intros _ H. contradiction. }
    pose proof (weights_remove (processes g) (clock sh) i p Hp) as Hrem.
    pose proof (weights_mono (remove_at i (processes g)) (clock sh) (S (clock sh))
                  (Nat.le_succ_diag_r _)) as Hmono.
    destruct (is_alive (clock sh) p) eqn:Halive.
    + destruct (IH _ _ _ _ _ _ _ Hrun) as [A [B _]]. simpl in A, B.
      assert (Hlt : clock sh < started_at p + lifetime).
      { destruct (Nat.lt_ge_cases (clock sh) (started_at p + lifetime)) as [H|H]; auto.
        rewrite (processes_end _ _ H) in Halive. discriminate. }
      pose proof (weights_remove (processes g) (S (clock sh)) i p Hp) as Hrem'.
      assert (pot (S (clock sh)) g < pot (clock sh) g).
      { unfold pot. unfold weight in *. lia. }
      split; [|split]; try lia.
    + destruct (queue g) as [|next_video q] eqn:Hq.
      * destruct (IH _ _ _ _ _ _ _ Hrun) as [A [B _]]. simpl in A, B.
        unfold pot in *. simpl in B. rewrite Hq. simpl.
        unfold weight in *. split; [|split]; lia.
      * simpl in Hrun. destruct (IH _ _ _ _ _ _ _ Hrun) as [A [B _]]. simpl in A, B.
        assert (Hnew : weights (S (clock sh))
                         [mkProcess (S (clock sh)) next_video] = S lifetime).
        { unfold weights, weight, list_sum. simpl. lia. }
        unfold pot in *. simpl in B. rewrite weights_app, Hnew in B. rewrite Hq.
        simpl List.length. unfold weight in Hrem. split; [|split]; nia.
Qed.

Definition occupied (g : Gpu) : bool :=
  match processes g with [] => false | _ => true end.

Lemma poll_all_pot : forall gpus gpu_id sh gpus' sh',
  poll_all is_alive gpu_id gpus sh = (gpus', sh') ->
  clock sh <= clock sh' /\
  total_pot (clock sh') gpus' <= total_pot (clock sh) gpus /\
  (existsb occupied gpus = true ->
   total_pot (clock sh') gpus' < total_pot (clock sh) gpus).
Proof.
  induction gpus as [|g gs IH]; intros gpu_id sh gpus' sh' Hrun; simpl in Hrun.
  - inversion Hrun; subst. split; [|split]; auto. simpl. discriminate.
  - destruct (poll_gpu is_alive gpu_id g sh) as [[g1 sh1] i1] eqn:Hpoll.
    destruct (poll_all is_alive (S gpu_id) gs sh1) as [rest1 sh2] eqn:Hrest.
    inversion Hrun; subst gpus' sh'. clear Hrun.
    unfold poll_gpu in Hpoll. destruct (poll_pot _ _ _ _ _ _ _ _ Hpoll) as [A [B C]].
    destruct (IH _ _ _ _ Hrest) as [A' [B' C']].
    pose proof (pot_mono g1 _ _ A') as Hg1.
    pose proof (total_pot_mono gs _ _ A) as Hgs.
    unfold total_pot in *. simpl.
    split; [lia|]. split; [lia|].
    intros Hex. apply orb_true_iff in Hex. destruct Hex as [Hocc|Hex].
    + assert (pot (clock sh1) g1 < pot (clock sh) g).
      { apply C; [discriminate|]. unfold occupied in Hocc.
        destruct (processes g); [discriminate|]. simpl. discriminate. }
      lia.
    + specialize (C' Hex). lia.
Qed.

Lemma AllInv_Full : forall gpus gpu_id groups tr,
  AllInv gpu_id gpus groups tr -> Forall Full gpus.
Proof.
  induction gpus as [|g gs IH]; intros gpu_id [|group rest] tr H; simpl in H;
    try contradiction; constructor.
  - tauto.
  - destruct H as [_ [_ H]]. eapply IH; eauto.
Qed.

Lemma busy_occupied : forall gpus sh,
  Forall Full gpus -> remaining_videos sh = Z.of_nat (sum_queues gpus) ->
  busy gpus sh = true -> existsb occupied gpus = true.
Proof.
  intros gpus sh HF Hr Hbusy. unfold busy in Hbusy.
  apply orb_true_iff in Hbusy. destruct Hbusy as [Hrem|Hocc]; [|exact Hocc].
  apply Z.ltb_lt in Hrem. rewrite Hr in Hrem.
  assert (Hsum : 0 < sum_queues gpus) by lia. clear Hr Hrem.
  induction gpus as [|g gs IH]; simpl in *; [lia|].
  inversion HF as [|? ? Hg Hgs]; subst.
  destruct (queue g) as [|v q] eqn:Hq.
  - simpl in Hsum. rewrite IH; auto. apply orb_true_r.
  - assert (Hlen : List.length (processes g) = processes_per_gpu).
    { apply Hg. rewrite Hq. discriminate. }
    unfold occupied. destruct (processes g); [discriminate|]. reflexivity.
Qed.

Lemma total_pot_zero : forall gpus t,
  total_pot t gpus = 0 -> Forall (fun g => processes g = [] /\ queue g = []) gpus.
Proof.
  unfold total_pot. induction gpus as [|g gs IH]; intros t H; constructor;
    simpl in H.
  - unfold pot, weights in H. destruct (processes g) as [|p ps].
    + destruct (queue g); [auto|simpl in H; lia].
    + simpl in H. unfold weight in H. lia.
  - apply (IH t). lia.
Qed.

Lemma idle_not_busy : forall gpus sh,
  Forall (fun g => processes g = [] /\ queue g = []) gpus ->
  remaining_videos sh = Z.of_nat (sum_queues gpus) ->
  busy gpus sh = false.
Proof.
  intros gpus sh H Hr. unfold busy.
  assert (Hs : sum_queues gpus = 0 /\
               existsb (fun g => match processes g with [] => false | _ => true end)
                 gpus = false).
  { clear Hr. induction H as [|g gs [Hp Hq] _ IH]; simpl; auto.
    rewrite Hp, Hq. simpl. exact IH. }
  destruct Hs as [Hs He]. rewrite He, Hr, Hs. reflexivity.
Qed.

Lemma main_loop_stops : forall fuel gpus groups sh,
  SInv gpus groups sh -> total_pot (clock sh) gpus <= fuel ->
  exists gpus' sh', main_loop is_alive fuel gpus sh = (gpus', sh', true).
Proof.
  induction fuel as [|fuel IH]; intros gpus groups sh HS Hpot; simpl.
  - assert (Hz : total_pot (clock sh) gpus = 0) by lia.
    destruct HS as [_ [_ Hr]].
    rewrite (idle_not_busy gpus sh (total_pot_zero _ _ Hz) Hr). simpl. eauto.
  - destruct (busy gpus sh) eqn:Hbusy; [|eauto].
    destruct HS as [HA [Hw Hr]].
    destruct (poll_all is_alive 0 gpus sh) as [gpus1 sh1] eqn:Hpoll.
    destruct (poll_all_inv _ _ _ groups _ _ _ Hpoll HA Hw) as [HA1 [Hw1 [Ho1 [Hz1 Hc1]]]].
    destruct (poll_all_pot _ _ _ _ _ Hpoll) as [_ [_ Hlt]].
    specialize (Hlt (busy_occupied gpus sh (AllInv_Full _ _ _ _ HA) Hr Hbusy)).
    apply (IH gpus1 groups (tick sh1)).
    + split; [|split]; simpl; auto. lia.
    + simpl. pose proof (total_pot_mono gpus1 (clock sh1) (S (clock sh1))
                           (Nat.le_succ_diag_r _)). lia.
Qed.
End Progress.

(** *** The inner loop stops by its own condition *)

Lemma poll_exits : forall is_alive fuel gpu_id i g sh g' sh' i',
  poll is_alive fuel gpu_id i g sh = (g', sh', i') ->
  List.length (processes g) + List.length (queue g) < fuel + i ->
  nth_error (processes g') i' = None.
Proof.
  intros is_alive. induction fuel as [|fuel IH];
    intros gpu_id i g sh g' sh' i' Hrun Hfuel; simpl in Hrun.
  - inversion Hrun; subst. apply nth_error_None. simpl in Hfuel. lia.
  - destruct (nth_error (processes g) i) as [p|] eqn:Hp.
    2:{ inversion Hrun; subst. exact Hp. }
    pose proof (remove_at_length _ _ _ _ Hp) as Hlen.
    destruct (is_alive (clock sh) p).
    + eapply IH; eauto. lia.
    + destruct (queue g) as [|next_video q] eqn:Hq.
      * eapply IH; eauto. simpl in *. lia.
      * simpl in Hrun. eapply IH; eauto. simpl in *.
        rewrite List.length_app. simpl. lia.
Qed.

Lemma poll_gpu_exits : forall is_alive gpu_id g sh g' sh' i',
  poll_gpu is_alive gpu_id g sh = (g', sh', i') ->
  nth_error (processes g') i' = None.
Proof.
  intros is_alive gpu_id g sh g' sh' i' H. unfold poll_gpu in H.
  eapply poll_exits; eauto. lia.
Qed.

(** *** The whole schedule *)

Definition idle (g : Gpu) : Prop := processes g = [] /\ queue g = [].

Lemma schedule_inv : forall is_alive fuel num_gpus video_list groups,
  gpu_video_groups num_gpus video_list = Ok groups ->
  exists gpus sh stopped,
    schedule is_alive fuel num_gpus video_list = Ok (gpus, sh, stopped) /\
    SInv gpus groups sh /\
    (stopped = true -> Forall idle gpus) /\
    (forall other, List.length groups <= other -> same_for other [] (trace sh)).
Proof.
  intros is_alive fuel num_gpus video_list groups Hg.
  unfold schedule. rewrite Hg. simpl.
  destruct (fill_all 0 (map (fun videos => mkGpu [] videos) groups) (mkShared 0 0 0 []))
    as [gpus1 sh1] eqn:Hfill.
  destruct (fill_all_inv _ _ groups _ _ _ Hfill (Init_start groups 0))
    as [HA1 [Hw1 [Ho1 Hc1]]].
  { simpl. split; auto. intros. unfold processes_per_gpu. lia. }
  set (sh2 := mkShared (Z.of_nat (sum_queues gpus1)) 0 (clock sh1) (trace sh1)).
  assert (HS2 : SInv gpus1 groups sh2) by (split; [|split]; simpl; auto).
  destruct (main_loop is_alive fuel gpus1 sh2) as [[gpus2 sh3] stopped] eqn:Hloop.
  destruct (main_loop_inv _ _ _ groups _ _ _ _ Hloop HS2) as [HS3 [Hstop Ho3]].
  assert (Hother : forall other, List.length groups <= other ->
                                 same_for other [] (trace sh3)).
  { intros other Hle. eapply same_for_trans; [|apply Ho3; exact Hle].
    simpl. apply (Ho1 other). right. simpl. rewrite length_map. exact Hle. }
  destruct stopped.
  - assert (Hidle : Forall idle gpus2).
    { destruct HS3 as [_ [_ Hr]]. apply (idle_empty gpus2 sh3); auto. }
    rewrite (drain_idle gpus2 0 sh3 Hidle).
    exists gpus2, sh3, true. auto.
  - exists gpus2, sh3, false. split; [|split; [|split]]; auto. discriminate.
Qed.

(** What the state says about one GPU, whichever it is. *)
Lemma per_gpu : forall gpus groups sh gpu_id,
  SInv gpus groups sh ->
  (forall other, List.length groups <= other -> same_for other [] (trace sh)) ->
  exists waiting running,
    started gpu_id (trace sh) ++ waiting = nth gpu_id groups [] /\
    in_flight gpu_id (trace sh) = List.length running /\
    List.length running <= processes_per_gpu /\
    Permutation (joined gpu_id (trace sh) ++ running) (started gpu_id (trace sh)) /\
    (waiting <> [] -> List.length running = processes_per_gpu) /\
    (Forall idle gpus -> waiting = [] /\ running = []).
Proof.
  intros gpus groups sh gpu_id [HA [Hw Hr]] Hother.
  pose proof (AllInv_length _ _ _ _ HA) as Hlen.
  destruct (nth_error gpus gpu_id) as [g|] eqn:Hg.
  - destruct (AllInv_nth _ _ _ _ _ _ HA Hg) as [[H1 [H2 [H3 H4]]] HF].
    simpl in *. exists (queue g), (map video (processes g)).
    rewrite length_map.
    split; [exact H3|]. split; [exact H1|]. split; [exact H2|]. split; [exact H4|].
    split.
    + intros Hne. apply HF. exact Hne.
    + intros Hidle. rewrite Forall_forall in Hidle.
      destruct (Hidle g) as [Hp Hq]; [eapply nth_error_In; eauto|].
      rewrite Hp, Hq. auto.
  - apply nth_error_None in Hg.
    destruct (Hother gpu_id) as [A [B C]]; [lia|].
    exists [], []. rewrite A, B, C. simpl.
    rewrite nth_overflow by lia.
    split; [reflexivity|]. split; [reflexivity|].
    split; [unfold processes_per_gpu; lia|]. split; [constructor|].
    split; [congruence|auto].
Qed.

Lemma schedule_stops : forall is_alive lifetime num_gpus video_list groups,
  (forall t p, started_at p + lifetime <= t -> is_alive t p = false) ->
  gpu_video_groups num_gpus video_list = Ok groups ->
  exists fuel gpus sh,
    schedule is_alive fuel num_gpus video_list = Ok (gpus, sh, true).
Proof.
  intros is_alive lifetime num_gpus video_list groups Hend Hg.
  unfold schedule. rewrite Hg. simpl.
  destruct (fill_all 0 (map (fun videos => mkGpu [] videos) groups) (mkShared 0 0 0 []))
    as [gpus1 sh1] eqn:Hfill.
  destruct (fill_all_inv _ _ groups _ _ _ Hfill (Init_start groups 0))
    as [HA1 [Hw1 [Ho1 Hc1]]].
  { simpl. split; auto. intros. unfold processes_per_gpu. lia. }
  set (sh2 := mkShared (Z.of_nat (sum_queues gpus1)) 0 (clock sh1) (trace sh1)).
  assert (HS2 : SInv gpus1 groups sh2) by (split; [|split]; simpl; auto).
  destruct (main_loop_stops is_alive lifetime Hend
              (total_pot lifetime (clock sh2) gpus1) gpus1 groups sh2 HS2 (le_n _))
    as [gpus2 [sh3 Hloop]].
  exists (total_pot lifetime (clock sh2) gpus1). rewrite Hloop. eauto.
Qed.

End SchedulerFacts.

(** ** video_cut.py: recovery and the per-video job *)

Module VideoCutFacts.
Import VideoCut.
Unset Implicit Arguments.
Local Open Scope string_scope.

(** *** Directories *)

Lemma dget_dremove_other : forall (V : Type) k k' (d : dict string V),
  k <> k' -> dget String.eqb k' (dremove String.eqb k d) = dget String.eqb k' d.
Proof.
  intros V k k' d Hne. induction d as [|[k0 v0] d IH]; simpl; [reflexivity|].
  destruct (String.eqb k k0) eqn:E; simpl.
  - apply String.eqb_eq in E. subst k0.
    assert (H : String.eqb k' k = false) by (apply String.eqb_neq; congruence).
    now rewrite H.
  - now rewrite IH.
Qed.

Lemma dget_in_nodup : forall (V : Type) (d : dict string V) k v,
  NoDup (dkeys d) -> In (k, v) d -> dget String.eqb k d = Some v.
Proof.
  intros V. induction d as [|[k0 v0] d IH]; intros k v Hnd Hin; simpl in *;
    [destruct Hin|].
  inversion Hnd as [|? ? Hnotin Hnd']; subst.
  destruct Hin as [Heq|Hin].
  - inversion Heq; subst. now rewrite String.eqb_refl.
  - destruct (String.eqb k k0) eqn:E; [|now apply IH].
    apply String.eqb_eq in E. subst k0. exfalso. apply Hnotin.
    unfold dkeys. apply in_map_iff. exists (k, v). auto.
Qed.

(** The registered-image count [largest_model] reads from a directory. *)
Definition count_of (d : Dir) : nat :=
  match pycolmap_Reconstruction d with
  | Ok r => num_reg_images r
  | Raise _ => 0
  end.

Definition readable (d : Dir) : Prop :=
  exists r, pycolmap_Reconstruction d = Ok r.

Lemma readable_files : forall d r,
  pycolmap_Reconstruction d = Ok r ->
  forall f, In f model_files -> dget String.eqb f d <> None.
Proof.
  intros d r H f Hf. unfold pycolmap_Reconstruction in H.
  destruct (dget String.eqb "cameras.bin" d) as [[]|] eqn:E1; try discriminate.
  destruct (dget String.eqb "images.bin" d) as [[]|] eqn:E2; try discriminate.
  destruct (dget String.eqb "points3D.bin" d) as [[]|] eqn:E3; try discriminate.
  unfold model_files in Hf. simpl in Hf.
  destruct Hf as [Hf|[Hf|[Hf|[]]]]; subst f; congruence.
Qed.

Lemma largest_model_spec : forall entries largest_path largest_num_images,
  (forall path d, In (path, Directory d) entries -> readable d) ->
  exists path' n',
    largest_model entries largest_path largest_num_images = Ok (path', n') /\
    largest_num_images <= n' /\
    (forall path d, In (path, Directory d) entries -> count_of d <= n') /\
    ((path' = largest_path /\ n' = largest_num_images) \/
     (exists path d, path' = Some path /\ In (path, Directory d) entries /\
                     count_of d = n' /\ largest_num_images < n')).
Proof.
  induction entries as [|[path node] rest IH]; intros lp ln Hread; simpl.
  - exists lp, ln. split; [reflexivity|]. split; [lia|]. split; [intros ? ? []|auto].
  - assert (Hrest : forall p d, In (p, Directory d) rest -> readable d).
    { intros p d H. apply (Hread p d). now right. }
    destruct node as [|d].
    + destruct (IH lp ln Hrest) as [p' [n' [A [B [C D]]]]].
      exists p', n'. split; [exact A|]. split; [exact B|]. split.
      * intros p d [H|H]; [discriminate|eauto].
      * destruct D as [D|[p [d [D1 [D2 [D3 D4]]]]]]; [auto|].
        right. exists p, d. auto.
    + destruct (Hread path d (or_introl eq_refl)) as [r Hr].
      assert (Hc : count_of d = num_reg_images r) by (unfold count_of; now rewrite Hr).
      rewrite Hr. simpl.
      destruct (Nat.ltb ln (num_reg_images r)) eqn:E.
      * apply Nat.ltb_lt in E.
        destruct (IH (Some path) (num_reg_images r) Hrest) as [p' [n' [A [B [C D]]]]].
        exists p', n'. split; [exact A|]. split; [lia|]. split.
        -- intros p d0 [H|H]; [inversion H; subst; lia|eauto].
        -- right. destruct D as [[D1 D2]|[p [d0 [D1 [D2 [D3 D4]]]]]].
           ++ exists path, d. subst. repeat split; auto; lia.
           ++ exists p, d0. repeat split; auto; lia.
      * apply Nat.ltb_ge in E.
        destruct (IH lp ln Hrest) as [p' [n' [A [B [C D]]]]].
        exists p', n'. split; [exact A|]. split; [exact B|]. split.
        -- intros p d0 [H|H]; [inversion H; subst; lia|eauto].
        -- destruct D as [D|[p [d0 [D1 [D2 [D3 D4]]]]]]; [auto|].
           right. exists p, d0. auto.
Qed.

Lemma promote_spec : forall names checkpoint sparse0,
  (forall f, In f names -> dget String.eqb f checkpoint <> None) ->
  exists promoted,
    promote names checkpoint sparse0 = Ok promoted /\
    forall g, dget String.eqb g promoted =
              if in_dec string_dec g names then dget String.eqb g checkpoint
              else dget String.eqb g sparse0.
Proof.
  induction names as [|f rest IH]; intros ck sp Hall; simpl.
  - exists sp. split; [reflexivity|]. intros g. reflexivity.
  - destruct (dget String.eqb f ck) as [file|] eqn:Hf.
    2:{ exfalso. apply (Hall f); [now left | exact Hf]. }
    destruct (IH ck (dset String.eqb f file (dremove String.eqb f sp)))
      as [promoted [Hrun Hget]].
    { intros g Hg. apply Hall. now right. }
    exists promoted. split; [exact Hrun|].
    intros g. rewrite Hget.
    destruct (in_dec string_dec g rest) as [Hin|Hnin].
    + destruct (string_dec f g); reflexivity.
    + rewrite (dget_dset String.eqb String.eqb_eq).
      destruct (string_dec f g) as [Heq|Hne].
      * subst g. rewrite String.eqb_refl. now rewrite Hf.
      * assert (E : String.eqb f g = false) by now apply String.eqb_neq.
        rewrite E. now apply dget_dremove_other.
Qed.

Lemma promoted_reads_as_checkpoint : forall checkpoint sparse0 r,
  pycolmap_Reconstruction checkpoint = Ok r ->
  exists promoted,
    promote model_files checkpoint sparse0 = Ok promoted /\
    pycolmap_Reconstruction promoted = Ok r /\
    (forall f, In f model_files ->
       dget String.eqb f promoted = dget String.eqb f checkpoint).
Proof.
  intros ck sp r Hr.
  destruct (promote_spec model_files ck sp (readable_files ck r Hr))
    as [promoted [Hrun Hget]].
  exists promoted. split; [exact Hrun|].
  assert (Hsame : forall f, In f model_files ->
            dget String.eqb f promoted = dget String.eqb f ck).
  { intros f Hf. rewrite Hget.
    destruct (in_dec string_dec f model_files); [reflexivity|contradiction]. }
  split; [|exact Hsame].
  unfold pycolmap_Reconstruction in *.
  rewrite !Hsame; [exact Hr| | |]; unfold model_files; simpl; auto.
Qed.

Lemma largest_model_raises : forall entries largest_path largest_num_images e,
  largest_model entries largest_path largest_num_images = Raise e ->
  is_Exception e = true.
Proof.
  induction entries as [|[path node] rest IH]; intros lp ln e H; simpl in H;
    [discriminate|].
  destruct node as [|d]; [eauto|].
  unfold pycolmap_Reconstruction in H.
  destruct (dget String.eqb "cameras.bin" d) as [[]|];
    destruct (dget String.eqb "images.bin" d) as [[]|];
    destruct (dget String.eqb "points3D.bin" d) as [[]|];
    simpl in H; try (inversion H; reflexivity).
  destruct (Nat.ltb ln num_reg); eauto.
Qed.

Lemma pycolmap_raises : forall d e,
  pycolmap_Reconstruction d = Raise e -> exists msg, e = ValueError msg.
Proof.
  intros d e H. unfold pycolmap_Reconstruction in H.
  destruct (dget String.eqb "cameras.bin" d) as [[]|];
    destruct (dget String.eqb "images.bin" d) as [[]|];
    destruct (dget String.eqb "points3D.bin" d) as [[]|];
    inversion H; eauto.
Qed.

Lemma largest_model_raises_value : forall entries largest_path largest_num_images e,
  largest_model entries largest_path largest_num_images = Raise e ->
  exists msg, e = ValueError msg.
Proof.
  induction entries as [|[path node] rest IH]; intros lp ln e H; simpl in H;
    [discriminate|].
  destruct node as [|d]; [eauto|].
  destruct (pycolmap_Reconstruction d) as [r|e'] eqn:Hr; simpl in H.
  - destruct (Nat.ltb ln (num_reg_images r)); eauto.
  - inversion H; subst. eapply pycolmap_raises; eauto.
Qed.

Lemma check_files_raises : forall names d e,
  check_files names d = Raise e -> exists msg, e = RuntimeError msg.
Proof.
  induction names as [|f rest IH]; intros d e H; simpl in H; [discriminate|].
  destruct (dget String.eqb f d); [eauto|]. inversion H. eauto.
Qed.

Lemma promote_raises : forall names checkpoint sparse0 e,
  promote names checkpoint sparse0 = Raise e -> exists msg, e = OSError msg.
Proof.
  induction names as [|f rest IH]; intros ck sp e H; simpl in H; [discriminate|].
  destruct (dget String.eqb f ck); [eauto|]. inversion H. eauto.
Qed.

Lemma mean_std_raises : forall mean std rows e,
  mean_std mean std rows = Raise e -> exists msg, e = ValueError msg.
Proof.
  intros mean std [|row rest] e H; unfold mean_std in H.
  - inversion H. eauto.
  - destruct (forallb _ rest); inversion H. eauto.
Qed.

(** *** One duration of one video *)

Section Job.
Variables (mean std : list float -> float).

Let process_duration := VideoCut.process_duration mean std.
Let mean_std := VideoCut.mean_std mean std.

(** The guarded block was interrupted or timed out. *)
Definition timed_out (timeout : nat) (env : JobEnv) : Prop :=
  exists msg, fst (time_limit timeout (block env)) = Raise (TimeoutException msg).

(** The recovery promotes no checkpoint: there is no [models] directory,
    one of its directories cannot be read, or none of them has a
    registered image. *)
Definition no_checkpoint (env : JobEnv) : Prop :=
  match models env with
  | None => True
  | Some entries =>
      match largest_model entries None 0 with
      | Ok (None, _) => True
      | Ok (Some _, _) => False
      | Raise _ => True
      end
  end.

Definition timeout_line (video_name : string) (duration : nat) (env : JobEnv) : string :=
  video_name ++ " " ++ str duration ++ "s: Timeout after "
    ++ str (elapsed_time env) ++ " seconds".

Lemma success_path : forall video_name timeout duration env acc r summary,
  run_block (block env) = Ok tt ->
  check_files model_files (sparse env) = Ok tt ->
  pycolmap_Reconstruction (sparse env) = Ok r ->
  mean_std (cameras r) = Ok summary ->
  process_duration video_name timeout (duration, env) acc =
  (Ok tt, mkAcc (dset String.eqb (str duration) summary (camera_params acc))
            (camera_params_out_duration acc ++ cameras r)%list
            (error_log acc) (stdout acc)).
Proof.
  intros video_name timeout duration env acc r summary Hb Hc Hr Hs.
  unfold process_duration, mean_std in *.
  unfold VideoCut.process_duration, try_except, attempt, collect_cameras, bindM,
    lift, time_limit, append_out, set_param.
  rewrite Hb. cbn [fst]. rewrite Hc, Hr. cbn [cameras]. rewrite Hs. reflexivity.
Qed.

Lemma timeout_path : forall video_name timeout duration env acc,
  timed_out timeout env ->
  process_duration video_name timeout (duration, env) acc =
  on_timeout mean std video_name env duration acc.
Proof.
  intros video_name timeout duration env acc [msg Ht].
  unfold process_duration.
  unfold VideoCut.process_duration, try_except at 1, attempt, bindM at 1, lift at 1.
  rewrite Ht. reflexivity.
Qed.

Lemma recovered_path : forall video_name timeout duration env acc
    entries path n checkpoint r summary,
  timed_out timeout env ->
  models env = Some entries ->
  largest_model entries None 0 = Ok (Some path, n) ->
  dget String.eqb path entries = Some (Directory checkpoint) ->
  pycolmap_Reconstruction checkpoint = Ok r ->
  mean_std (cameras r) = Ok summary ->
  process_duration video_name timeout (duration, env) acc =
  (Ok tt, mkAcc (dset String.eqb (str duration) summary (camera_params acc))
            (camera_params_out_duration acc ++ cameras r)%list
            (error_log acc)
            (stdout acc ++ [largest_message path n])%list).
Proof.
  intros video_name timeout duration env acc entries path n ck r summary
    Ht Hm Hl Hd Hr Hs.
  rewrite timeout_path by exact Ht.
  destruct (promoted_reads_as_checkpoint ck (sparse env) r Hr)
    as [promoted [Hp [Hr' _]]].
  unfold mean_std in *.
  unfold on_timeout, try_except, recover, collect_cameras, bindM, lift, print,
    append_out, set_param.
  rewrite Hm, Hl. cbn [stdout camera_params camera_params_out_duration error_log].
  rewrite Hd, Hp, Hr'. cbn [cameras]. rewrite Hs. reflexivity.
Qed.

Lemma failed_path : forall video_name timeout duration env acc,
  timed_out timeout env -> no_checkpoint env ->
  process_duration video_name timeout (duration, env) acc =
  (Ok tt, mkAcc (camera_params acc) (camera_params_out_duration acc)
            (error_log acc ++ [timeout_line video_name duration env])%list
            (stdout acc ++ [("Error processing " ++ video_name ++ " "
                               ++ str duration ++ "s: Timeout")%string])%list).
Proof.
  intros video_name timeout duration env acc Ht Hn.
  rewrite timeout_path by exact Ht.
  unfold no_checkpoint in Hn.
  unfold on_timeout, try_except, recover, bindM, lift, raise, logging_error, print,
    timeout_line.
  destruct (models env) as [entries|]; simpl; [|reflexivity].
  destruct (largest_model entries None 0) as [[[path|] n]|e] eqn:Hl; simpl.
  - contradiction.
  - reflexivity.
  - rewrite (largest_model_raises _ _ _ _ Hl). reflexivity.
Qed.

(** *** The state a duration leaves does not depend on the state it finds *)

(** What one duration adds, run from the empty state. *)
Definition added (video_name : string) (timeout : nat) (job : nat * JobEnv) : Acc :=
  snd (process_duration video_name timeout job empty_acc).

Definition merge (acc extra : Acc) : Acc :=
  mkAcc (match camera_params extra with
         | [] => camera_params acc
         | (k, v) :: _ => dset String.eqb k v (camera_params acc)
         end)
        (camera_params_out_duration acc ++ camera_params_out_duration extra)%list
        (error_log acc ++ error_log extra)%list
        (stdout acc ++ stdout extra)%list.

Ltac crack :=
  repeat (cbn;
    match goal with
    | |- context [match check_files ?a ?b with _ => _ end] =>
        let H := fresh "Hcf" in
        destruct (check_files a b) as [[]|?] eqn:H;
        [|destruct (check_files_raises _ _ _ H) as [? ->]]
    | |- context [match pycolmap_Reconstruction ?a with _ => _ end] =>
        let H := fresh "Hpy" in
        destruct (pycolmap_Reconstruction a) as [?|?] eqn:H;
        [|destruct (pycolmap_raises _ _ H) as [? ->]]
    | |- context [match VideoCut.mean_std ?m ?s ?a with _ => _ end] =>
        let H := fresh "Hms" in
        destruct (VideoCut.mean_std m s a) as [?|?] eqn:H;
        [|destruct (mean_std_raises _ _ _ _ H) as [? ->]]
    | |- context [match largest_model ?a ?b ?c with _ => _ end] =>
        let H := fresh "Hlm" in
        destruct (largest_model a b c) as [[[?|] ?]|?] eqn:H;
        [| |destruct (largest_model_raises_value _ _ _ _ H) as [? ->]]
    | |- context [match promote ?a ?b ?c with _ => _ end] =>
        let H := fresh "Hpr" in
        destruct (promote a b c) as [?|?] eqn:H;
        [|destruct (promote_raises _ _ _ _ H) as [? ->]]
    end).

Ltac open_job :=
  unfold process_duration, mean_std, empty_acc;
  unfold VideoCut.process_duration, on_timeout, on_error, try_except, attempt,
    recover, collect_cameras, bindM, lift, raise, print, logging_error,
    append_out, set_param.

Local Opaque check_files pycolmap_Reconstruction largest_model promote
  VideoCut.mean_std str String.append dset.

Lemma process_duration_frame : forall video_name timeout job acc,
  process_duration video_name timeout job acc =
  (fst (process_duration video_name timeout job empty_acc),
   merge acc (added video_name timeout job)).
Proof.
  intros video_name timeout [duration [blk sp mdl el]] [params out log prints].
  unfold added, merge. open_job.
  destruct blk as [[]|cause|class_name msg]; destruct mdl as [entries|]; crack; cbn;
    rewrite <- ?app_assoc, ?app_nil_r; reflexivity.
Qed.

Local Transparent check_files pycolmap_Reconstruction largest_model promote
  VideoCut.mean_std str String.append dset.

(** *** When the reductions succeed *)

Definition uniform (rows : list (list float)) : Prop :=
  exists n, Forall (fun r => List.length r = n) rows.

Lemma mean_std_ok : forall rows,
  rows <> [] -> uniform rows -> exists t, mean_std rows = Ok t.
Proof.
  intros [|row rest] Hne [n Hall]; [congruence|].
  unfold mean_std, VideoCut.mean_std.
  inversion Hall as [|? ? Hrow Hrest]; subst.
  assert (E : forallb (fun r => Nat.eqb (List.length r) (List.length row)) rest = true).
  { apply forallb_forall. intros r Hr. apply Nat.eqb_eq.
    rewrite Forall_forall in Hrest. now apply Hrest. }
  rewrite E. eauto.
Qed.

Lemma mean_std_uniform : forall rows t,
  mean_std rows = Ok t -> rows <> [] /\ uniform rows.
Proof.
  intros [|row rest] t H; unfold mean_std, VideoCut.mean_std in H; [discriminate|].
  destruct (forallb (fun r => Nat.eqb (List.length r) (List.length row)) rest) eqn:E;
    [|discriminate].
  split; [discriminate|]. exists (List.length row). constructor; [reflexivity|].
  apply Forall_forall. intros r Hr.
  rewrite forallb_forall in E. apply Nat.eqb_eq. now apply E.
Qed.

Lemma uniform_middle : forall a b c : list (list float),
  uniform (a ++ b ++ c) -> uniform b.
Proof.
  intros a b c [n H]. exists n.
  apply Forall_app in H. destruct H as [_ H].
  apply Forall_app in H. tauto.
Qed.

(** What one duration adds: nothing, or rows whose reduction failed, or
    the rows whose summary it stored under its own key. *)
Local Opaque check_files pycolmap_Reconstruction largest_model promote
  VideoCut.mean_std str String.append.

Lemma added_shape : forall video_name timeout duration env,
  let a := added video_name timeout (duration, env) in
  match camera_params a with
  | [] => camera_params_out_duration a = [] \/
          exists e, mean_std (camera_params_out_duration a) = Raise e
  | [(k, s)] => k = str duration /\ mean_std (camera_params_out_duration a) = Ok s
  | _ => False
  end.
Proof.
  intros video_name timeout duration [blk sp mdl el]. unfold added. open_job.
  destruct blk as [[]|cause|class_name msg]; destruct mdl as [entries|]; crack; cbn; eauto.
Qed.

Local Transparent check_files pycolmap_Reconstruction largest_model promote
  VideoCut.mean_std str String.append.

(** The rows of a duration that stored a summary. *)
Definition usable_rows (video_name : string) (timeout : nat) (job : nat * JobEnv)
  : list (list float) :=
  match camera_params (added video_name timeout job) with
  | [] => []
  | _ :: _ => camera_params_out_duration (added video_name timeout job)
  end.

Lemma dset_not_nil : forall (V : Type) k (v : V) d, dset String.eqb k v d <> [].
Proof.
  intros V k v [|[k0 v0] d]; simpl; [discriminate|].
  destruct (String.eqb k k0); discriminate.
Qed.

Lemma process_durations_out : forall video_name timeout jobs acc u acc',
  process_durations mean std video_name timeout jobs acc = (Ok u, acc') ->
  camera_params_out_duration acc' =
    (camera_params_out_duration acc
     ++ flat_map (fun job => camera_params_out_duration (added video_name timeout job))
          jobs)%list /\
  (camera_params acc' = [] ->
   camera_params acc = [] /\
   Forall (fun job => camera_params (added video_name timeout job) = []) jobs).
Proof.
  intros video_name timeout. induction jobs as [|job rest IH]; intros acc u acc' H;
    simpl in H.
  - unfold ret in H. inversion H; subst. rewrite app_nil_r. auto.
  - unfold bindM in H. fold process_duration in H.
    rewrite process_duration_frame in H.
    destruct (fst (process_duration video_name timeout job empty_acc)) as [u1|e];
      [|discriminate].
    destruct (IH _ _ _ H) as [Hout Hpar]. split.
    + rewrite Hout. simpl. now rewrite app_assoc.
    + intros Hnil. destruct (Hpar Hnil) as [Hm Hrest]. simpl in Hm.
      destruct (camera_params (added video_name timeout job)) as [|[k v] l] eqn:E.
      * split; auto.
      * exfalso. eapply dset_not_nil; eauto.
Qed.

Lemma usable_rows_of_uniform : forall video_name timeout jobs,
  uniform (flat_map (fun job => camera_params_out_duration
                                  (added video_name timeout job)) jobs) ->
  flat_map (fun job => camera_params_out_duration (added video_name timeout job)) jobs
  = flat_map (usable_rows video_name timeout) jobs.
Proof.
  intros video_name timeout. induction jobs as [|[duration env] rest IH]; intros Hu;
    simpl; [reflexivity|].
  simpl in Hu. rewrite IH.
  2:{ apply (uniform_middle (camera_params_out_duration
                               (added video_name timeout (duration, env))) _ []).
      now rewrite app_nil_r. }
  f_equal. unfold usable_rows.
  pose proof (added_shape video_name timeout duration env) as Hs. simpl in Hs.
  destruct (camera_params (added video_name timeout (duration, env))) as [|kv l];
    [|reflexivity].
  destruct Hs as [Hnil|[e He]]; [exact Hnil|].
  destruct (camera_params_out_duration (added video_name timeout (duration, env)))
    as [|row rows] eqn:E; [reflexivity|].
  destruct (mean_std_ok (row :: rows)) as [t Ht]; [discriminate| |congruence].
  apply (uniform_middle [] _ _ Hu).
Qed.

(** *** States that differ in what was printed only *)

Definition same_data (a b : Acc) : Prop :=
  camera_params a = camera_params b /\
  camera_params_out_duration a = camera_params_out_duration b /\
  error_log a = error_log b.

Lemma same_data_merge : forall a b extra,
  same_data a b -> same_data (merge a extra) (merge b extra).
Proof.
  intros a b extra [H1 [H2 H3]]. unfold same_data, merge. simpl.
  rewrite H1, H2, H3. auto.
Qed.

Lemma process_durations_same_data : forall video_name timeout jobs a b,
  same_data a b ->
  fst (process_durations mean std video_name timeout jobs a)
  = fst (process_durations mean std video_name timeout jobs b) /\
  same_data (snd (process_durations mean std video_name timeout jobs a))
            (snd (process_durations mean std video_name timeout jobs b)).
Proof.
  intros video_name timeout. induction jobs as [|job rest IH]; intros a b Hab; simpl.
  - auto.
  - unfold bindM. fold process_duration.
    rewrite (process_duration_frame video_name timeout job a).
    rewrite (process_duration_frame video_name timeout job b).
    destruct (fst (process_duration video_name timeout job empty_acc)).
    + apply IH. now apply same_data_merge.
    + simpl. split; [reflexivity|]. now apply same_data_merge.
Qed.

(** Two jobs that leave the same data leave the same result file and the
    same log, wherever they stand in the list of durations. *)
Lemma interchangeable_jobs : forall video_name timeout j1 j2 before after,
  (forall acc, fst (process_duration video_name timeout j1 acc)
               = fst (process_duration video_name timeout j2 acc) /\
               same_data (snd (process_duration video_name timeout j1 acc))
                         (snd (process_duration video_name timeout j2 acc))) ->
  let o1 := process_single_video mean std video_name timeout (before ++ j1 :: after) in
  let o2 := process_single_video mean std video_name timeout (before ++ j2 :: after) in
  result_file o1 = result_file o2 /\ logged o1 = logged o2 /\
  uncaught o1 = uncaught o2.
Proof.
  intros video_name timeout j1 j2 before after Hj.
  assert (Hrun : forall acc,
    fst (process_durations mean std video_name timeout (before ++ j1 :: after) acc)
    = fst (process_durations mean std video_name timeout (before ++ j2 :: after) acc) /\
    same_data
      (snd (process_durations mean std video_name timeout (before ++ j1 :: after) acc))
      (snd (process_durations mean std video_name timeout (before ++ j2 :: after) acc))).
  { induction before as [|job rest IH]; intros acc; simpl.
    - unfold bindM. fold process_duration.
      destruct (Hj acc) as [Hf Hd].
      destruct (process_duration video_name timeout j1 acc) as [r1 a1].
      destruct (process_duration video_name timeout j2 acc) as [r2 a2].
      simpl in Hf, Hd. subst r2. destruct r1.
      + now apply process_durations_same_data.
      + simpl. auto.
    - unfold bindM.
      destruct (VideoCut.process_duration mean std video_name timeout job acc)
        as [[u|e] acc1].
      + apply IH.
      + simpl. split; [reflexivity|]. repeat split. }
  intros o1 o2. subst o1 o2. unfold process_single_video.
  destruct (Hrun empty_acc) as [Hf [Hp [Ho Hl]]].
  destruct (process_durations mean std video_name timeout (before ++ j1 :: after)
              empty_acc) as [r1 a1].
  destruct (process_durations mean std video_name timeout (before ++ j2 :: after)
              empty_acc) as [r2 a2].
  simpl in Hf, Hp, Ho, Hl. subst r2. rewrite Hp, Ho, Hl.
  destruct r1; [|simpl; auto].
  destruct (camera_params_out_duration a2) as [|row rows]; [simpl; auto|].
  destruct (VideoCut.mean_std mean std (row :: rows)); simpl; auto.
Qed.

Lemma check_files_present : forall names d,
  (forall f, In f names -> dget String.eqb f d <> None) ->
  check_files names d = Ok tt.
Proof.
  induction names as [|f rest IH]; intros d H; simpl; [reflexivity|].
  destruct (dget String.eqb f d) eqn:E.
  - apply IH. intros g Hg. apply H. now right.
  - exfalso. apply (H f); [now left | exact E].
Qed.

(** *** The result file *)

Lemma result_file_total : forall video_name timeout jobs m,
  result_file (process_single_video mean std video_name timeout jobs) = Some m ->
  exists total,
    dget String.eqb "total" m = Some total /\
    mean_std (flat_map (usable_rows video_name timeout) jobs) = Ok total.
Proof.
  intros video_name timeout jobs m H. unfold process_single_video in H.
  destruct (process_durations mean std video_name timeout jobs empty_acc)
    as [[u|e] acc] eqn:Hrun; [|discriminate].
  destruct (process_durations_out video_name timeout jobs empty_acc u acc Hrun)
    as [Hout _].
  simpl in Hout.
  destruct (camera_params_out_duration acc) as [|row rows] eqn:Eout; [discriminate|].
  destruct (VideoCut.mean_std mean std (row :: rows)) as [total|e] eqn:Ems;
    [|discriminate].
  simpl in H. inversion H; subst m. exists total. split.
  - apply (dget_dset_same String.eqb String.eqb_eq).
  - destruct (mean_std_uniform _ _ Ems) as [_ Hu]. rewrite Hout in Hu.
    rewrite <- (usable_rows_of_uniform video_name timeout jobs Hu).
    rewrite <- Hout. exact Ems.
Qed.

(** A video none of whose durations stores a summary writes no result
    file. *)
Lemma no_summary_no_file : forall video_name timeout jobs,
  (forall job, In job jobs -> camera_params (added video_name timeout job) = []) ->
  result_file (process_single_video mean std video_name timeout jobs) = None.
Proof.
  intros video_name timeout jobs Hall.
  destruct (result_file (process_single_video mean std video_name timeout jobs))
    as [m|] eqn:E; [|reflexivity].
  exfalso. destruct (result_file_total _ _ _ _ E) as [total [_ Ht]].
  assert (Hnil : flat_map (usable_rows video_name timeout) jobs = []).
  { clear E Ht. induction jobs as [|job rest IH]; [reflexivity|]. simpl.
    unfold usable_rows at 1. rewrite (Hall job (or_introl eq_refl)). simpl.
    apply IH. intros j Hj. apply Hall. now right. }
  rewrite Hnil in Ht. discriminate.
Qed.
End Job.

End VideoCutFacts.

Unset Implicit Arguments.

(** ** More on the analysis: failures, what it reads, row order *)

Module AnalysisFacts.
Import CameraStats CameraStatsFacts.

(** A lookup of the designated field succeeds or raises [IndexError]. *)
Lemma placement_cases : forall pi camera d,
  ((exists q, placement pi camera d = Ok q) /\ indexable pi camera d) \/
  (placement pi camera d = Raise IndexError /\
   exists summary, dget String.eqb d camera = Some summary /\
                   List.length summary <= pi).
Proof.
  intros pi camera d. unfold placement, indexable.
  destruct (dget String.eqb d camera) as [summary|] eqn:Hd.
  - destruct (nth_error summary pi) as [x|] eqn:Hn.
    + left. split; [eauto|]. intros s Hs. inversion Hs; subst.
      apply nth_error_Some. congruence.
    + right. split; [reflexivity|]. exists summary. split; [reflexivity|].
      apply nth_error_None. exact Hn.
  - left. split; [eauto|]. intros s Hs. discriminate.
Qed.

Definition short_summary (pi : nat) (camera : Camera) (d : string) : Prop :=
  exists summary, dget String.eqb d camera = Some summary /\
                  List.length summary <= pi.

Lemma visit_durations_cases : forall pi durations video_name camera rest evs st,
  Inv pi durations evs st ->
  (forall d, In d rest -> In d durations) ->
  (exists st',
     visit_durations pi video_name camera rest st = Ok st' /\
     Inv pi durations (evs ++ map (fun d => (video_name, camera, d)) rest) st' /\
     (forall d, In d rest -> indexable pi camera d)) \/
  (visit_durations pi video_name camera rest st = Raise IndexError /\
   exists d, In d rest /\ short_summary pi camera d).
Proof.
  intros pi durations video_name camera rest.
  induction rest as [|d rest IH]; intros evs st HI Hin.
  - left. exists st. simpl. rewrite app_nil_r.
    split; [reflexivity|]. split; [exact HI|]. intros d [].
  - simpl.
    pose proof (@visit_step pi durations evs st video_name camera d HI
                  (Hin d (or_introl eq_refl))) as Hv.
    destruct (placement_cases pi camera d) as [[[q Hq] Hidx]|[Hr Hs]].
    + rewrite Hq in Hv. destruct Hv as [st1 [Hv1 HI1]]. rewrite Hv1. simpl.
      destruct (IH _ _ HI1 (fun d' H => Hin d' (or_intror H)))
        as [[st' [H1 [H2 H3]]]|[H1 [d' [H2 H3]]]].
      * left. exists st'. split; [exact H1|]. split.
        -- rewrite <- app_assoc in H2. exact H2.
        -- intros d' [<-|Hd']; [exact Hidx|apply H3; exact Hd'].
      * right. split; [exact H1|]. exists d'. split; [right; exact H2|exact H3].
    + rewrite Hr in Hv. rewrite Hv. simpl. right. split; [reflexivity|].
      exists d. split; [left; reflexivity|exact Hs].
Qed.

Lemma visit_videos_cases : forall pi durations camera_stats evs st,
  Inv pi durations evs st ->
  (exists st',
     visit_videos pi camera_stats durations st = Ok st' /\
     Inv pi durations (evs ++ events camera_stats durations) st' /\
     (forall video_name camera d, In (video_name, camera) camera_stats ->
        In d durations -> indexable pi camera d)) \/
  (visit_videos pi camera_stats durations st = Raise IndexError /\
   exists video_name camera d,
     In (video_name, camera) camera_stats /\ In d durations /\
     short_summary pi camera d).
Proof.
  intros pi durations camera_stats.
  induction camera_stats as [|[video_name camera] rest IH]; intros evs st HI.
  - left. exists st. simpl. rewrite app_nil_r.
    split; [reflexivity|]. split; [exact HI|]. intros v c d [].
  - simpl.
    destruct (@visit_durations_cases pi durations video_name camera durations evs st
                HI (fun d H => H))
      as [[st1 [H1 [HI1 Hidx]]]|[H1 [d [Hd Hs]]]].
    + rewrite H1. simpl.
      destruct (IH _ _ HI1) as [[st' [H2 [HI2 Hidx2]]]|[H2 [v [c [d [Hv [Hd Hs]]]]]]].
      * left. exists st'. split; [exact H2|]. split.
        -- rewrite <- app_assoc in HI2. exact HI2.
        -- intros v c d [Heq|Hv] Hd.
           ++ inversion Heq; subst. apply Hidx. exact Hd.
           ++ eapply Hidx2; eauto.
      * right. split; [exact H2|]. exists v, c, d.
        split; [right; exact Hv|]. split; assumption.
    + rewrite H1. simpl. right. split; [reflexivity|].
      exists video_name, camera, d. split; [left; reflexivity|]. split; assumption.
Qed.

Lemma analyze_cases : forall camera_stats durations pi,
  ((exists tables,
      analyze_camera_stats_magnitude camera_stats durations pi = Ok tables) /\
   (forall video_name camera d, In (video_name, camera) camera_stats ->
      In d durations -> indexable pi camera d)) \/
  (analyze_camera_stats_magnitude camera_stats durations pi = Raise IndexError /\
   exists video_name camera d,
     In (video_name, camera) camera_stats /\ In d durations /\
     short_summary pi camera d).
Proof.
  intros camera_stats durations pi. unfold analyze_camera_stats_magnitude.
  destruct (@visit_videos_cases pi durations camera_stats [] (init_state durations)
              (init_state_inv pi durations))
    as [[st' [H1 [_ Hidx]]]|[H1 Hs]].
  - left. rewrite H1. simpl. split; [eauto|exact Hidx].
  - right. rewrite H1. simpl. split; [reflexivity|exact Hs].
Qed.

(** *** What the analysis reads of a row *)

(** The absolute value of the designated field of a duration's summary:
    [None] without a summary, [Some None] for a summary that is too short. *)
Definition field (pi : nat) (camera : Camera) (d : string) : option (option float) :=
  option_map (fun summary => option_map abs (nth_error summary pi))
    (dget String.eqb d camera).

Lemma scan_magnitudes_field : forall mags video_name d s s' pi st,
  option_map abs (nth_error s pi) = option_map abs (nth_error s' pi) ->
  scan_magnitudes mags video_name d s pi st
  = scan_magnitudes mags video_name d s' pi st.
Proof.
  induction mags as [|mag rest IH]; intros video_name d s s' pi st H;
    [reflexivity|].
  simpl.
  destruct (nth_error s pi) as [x|] eqn:E1, (nth_error s' pi) as [x'|] eqn:E2;
    simpl in H; try discriminate; [|reflexivity].
  injection H as H. rewrite H.
  destruct (lt_mag (abs x') mag); [reflexivity|].
  apply IH. rewrite E1, E2. simpl. rewrite H. reflexivity.
Qed.

Lemma visit_field : forall pi video_name camera camera' st d,
  field pi camera d = field pi camera' d ->
  visit pi video_name camera st d = visit pi video_name camera' st d.
Proof.
  intros pi video_name camera camera' st d H. unfold visit, field in *.
  destruct (dget String.eqb d camera) as [s|], (dget String.eqb d camera') as [s'|];
    simpl in H; try discriminate; [|reflexivity].
  injection H as H.
  rewrite (scan_magnitudes_field magnitudes video_name d s s' pi st H).
  reflexivity.
Qed.

Lemma visit_durations_field : forall pi video_name camera camera' rest st,
  (forall d, In d rest -> field pi camera d = field pi camera' d) ->
  visit_durations pi video_name camera rest st
  = visit_durations pi video_name camera' rest st.
Proof.
  intros pi video_name camera camera' rest.
  induction rest as [|d rest IH]; intros st H; [reflexivity|].
  simpl. rewrite (visit_field pi video_name camera camera' st d (H d (or_introl eq_refl))).
  destruct (visit pi video_name camera' st d) as [st1|e]; [|reflexivity].
  simpl. apply IH. intros d' Hd'. apply H. right. exact Hd'.
Qed.

(** Rows with the same names that agree on the designated field of every
    listed duration. *)
Definition same_fields (pi : nat) (durations : list string)
  (row row' : string * Camera) : Prop :=
  fst row = fst row' /\
  forall d, In d durations -> field pi (snd row) d = field pi (snd row') d.

Lemma analyze_same_fields : forall camera_stats camera_stats' durations pi,
  Forall2 (same_fields pi durations) camera_stats camera_stats' ->
  analyze_camera_stats_magnitude camera_stats durations pi
  = analyze_camera_stats_magnitude camera_stats' durations pi.
Proof.
  intros camera_stats camera_stats' durations pi H.
  unfold analyze_camera_stats_magnitude.
  assert (Hv : forall st, visit_videos pi camera_stats durations st
                          = visit_videos pi camera_stats' durations st).
  { induction H as [|[v c] [v' c'] l l' [Hn Hf] _ IH]; intros st; [reflexivity|].
    simpl in Hn, Hf. subst v'. simpl.
    rewrite (visit_durations_field pi v c c' durations st Hf).
    destruct (visit_durations pi v c' durations st) as [st1|e]; [|reflexivity].
    simpl. apply IH. }
  rewrite Hv. reflexivity.
Qed.

(** *** Durations of the tables *)

Lemma update_entry_other : forall (V : Type) (factory : dict key V) (f : V -> V)
  d k (table table' : dict string (dict key V)) d',
  update_entry factory f d k table = Ok table' -> d <> d' ->
  dget String.eqb d' table' = dget String.eqb d' table.
Proof.
  intros V factory f d k table table' d' H Hne. unfold update_entry, ddindex in H.
  destruct (dget String.eqb d table) as [inner|] eqn:Hd.
  - destruct (dindex key_eqb k inner) as [v|e]; simpl in H; [|discriminate].
    injection H as <-. apply (dget_dset_other String.eqb String.eqb_eq). exact Hne.
  - destruct (dindex key_eqb k factory) as [v|e]; simpl in H; [|discriminate].
    injection H as <-.
    rewrite (dget_dset_other String.eqb String.eqb_eq) by exact Hne.
    apply (dget_dset_other String.eqb String.eqb_eq). exact Hne.
Qed.

Lemma place_other : forall st st' d k entry d',
  (ms <- incr_count d k (magnitude_stats st) ;;
   ds <- append_detail d k entry (detailed_stats st) ;;
   Ok (mkState ms (total_counts st) ds)) = Ok st' ->
  d <> d' ->
  dget String.eqb d' (magnitude_stats st') = dget String.eqb d' (magnitude_stats st).
Proof.
  intros st st' d k entry d' H Hne.
  destruct (incr_count d k (magnitude_stats st)) as [ms|e] eqn:Hms;
    simpl in H; [|discriminate].
  destruct (append_detail d k entry (detailed_stats st)) as [ds|e];
    simpl in H; [|discriminate].
  injection H as <-. simpl.
  eapply update_entry_other; [exact Hms|exact Hne].
Qed.

Lemma scan_magnitudes_other : forall mags video_name d summary pi st st' d',
  scan_magnitudes mags video_name d summary pi st = Ok st' -> d <> d' ->
  dget String.eqb d' (magnitude_stats st') = dget String.eqb d' (magnitude_stats st).
Proof.
  induction mags as [|mag rest IH]; intros video_name d summary pi st st' d' H Hne.
  - simpl in H. injection H as <-. reflexivity.
  - simpl in H. destruct (nth_error summary pi) as [x|]; [|discriminate].
    destruct (lt_mag (abs x) mag).
    + eapply place_other; [exact H|exact Hne].
    + eapply IH; [exact H|exact Hne].
Qed.

Lemma visit_other : forall pi video_name camera st d st' d',
  visit pi video_name camera st d = Ok st' -> d <> d' ->
  dget String.eqb d' (magnitude_stats st') = dget String.eqb d' (magnitude_stats st).
Proof.
  intros pi video_name camera st d st' d' H Hne. unfold visit in H.
  destruct (dget String.eqb d camera) as [summary|].
  - destruct (scan_magnitudes magnitudes video_name d summary pi st) as [st1|e] eqn:Hs;
      simpl in H; [|discriminate].
    injection H as <-. simpl. eapply scan_magnitudes_other; [exact Hs|exact Hne].
  - match type of H with
    | bind ?m _ = _ => destruct m as [st1|e] eqn:Hs
    end; simpl in H; [|discriminate].
    injection H as <-. simpl. eapply place_other; [exact Hs|exact Hne].
Qed.

Lemma visit_durations_other : forall pi video_name camera rest st st' d',
  visit_durations pi video_name camera rest st = Ok st' -> ~ In d' rest ->
  dget String.eqb d' (magnitude_stats st') = dget String.eqb d' (magnitude_stats st).
Proof.
  intros pi video_name camera rest.
  induction rest as [|d rest IH]; intros st st' d' H Hn.
  - simpl in H. injection H as <-. reflexivity.
  - simpl in H. destruct (visit pi video_name camera st d) as [st1|e] eqn:Hv;
      simpl in H; [|discriminate].
    rewrite (IH _ _ _ H (fun Hin => Hn (or_intror Hin))).
    eapply visit_other; [exact Hv|].
    intros ->. apply Hn. left. reflexivity.
Qed.

Lemma visit_videos_other : forall pi camera_stats durations st st' d',
  visit_videos pi camera_stats durations st = Ok st' -> ~ In d' durations ->
  dget String.eqb d' (magnitude_stats st') = dget String.eqb d' (magnitude_stats st).
Proof.
  intros pi camera_stats durations.
  induction camera_stats as [|[video_name camera] rest IH]; intros st st' d' H Hn.
  - simpl in H. injection H as <-. reflexivity.
  - simpl in H.
    destruct (visit_durations pi video_name camera durations st) as [st1|e] eqn:Hv;
      simpl in H; [|discriminate].
    rewrite (IH _ _ _ H Hn).
    eapply visit_durations_other; [exact Hv|exact Hn].
Qed.

Lemma init_state_other : forall durations st d',
  ~ In d' durations ->
  dget String.eqb d' (magnitude_stats (fold_left init_duration durations st))
  = dget String.eqb d' (magnitude_stats st).
Proof.
  induction durations as [|d rest IH]; intros st d' Hn; [reflexivity|].
  simpl. rewrite IH by (intros Hin; apply Hn; right; exact Hin).
  assert (Hne : d <> d') by (intros ->; apply Hn; left; reflexivity).
  unfold init_duration, ddindex.
  destruct (dget String.eqb d (magnitude_stats st));
    destruct (dget String.eqb d (detailed_stats st)); simpl;
    repeat rewrite (dget_dset_other String.eqb String.eqb_eq) by exact Hne; reflexivity.
Qed.

(** The recall table has entries for listed durations only. *)
Lemma recall_keys_listed : forall camera_stats durations pi recall detailed d,
  analyze_camera_stats_magnitude camera_stats durations pi = Ok (recall, detailed) ->
  ~ In d durations -> dget String.eqb d recall = None.
Proof.
  intros camera_stats durations pi recall detailed d H Hn.
  unfold analyze_camera_stats_magnitude in H.
  destruct (visit_videos pi camera_stats durations (init_state durations))
    as [st|e] eqn:Hv; simpl in H; [|discriminate].
  injection H as <- <-.
  rewrite dget_recall_rates.
  rewrite (visit_videos_other pi camera_stats durations _ _ d Hv Hn).
  unfold init_state. rewrite init_state_other by exact Hn. reflexivity.
Qed.

(** *** Row order *)

Lemma hits_perm : forall pi d k evs evs',
  Permutation evs evs' -> Permutation (hits pi d k evs) (hits pi d k evs').
Proof.
  intros pi d k evs evs' H. unfold hits. apply Permutation_flat_map. exact H.
Qed.

Lemma events_perm : forall camera_stats camera_stats' durations,
  Permutation camera_stats camera_stats' ->
  Permutation (events camera_stats durations) (events camera_stats' durations).
Proof.
  intros camera_stats camera_stats' durations H. unfold events.
  apply Permutation_flat_map. exact H.
Qed.

(** *** The lookups of the plot *)

Lemma mapM_ok : forall (A B : Type) (f : A -> Result B) (g : A -> B) (l : list A),
  (forall a, In a l -> f a = Ok (g a)) -> mapM f l = Ok (map g l).
Proof.
  intros A B f g l. induction l as [|a rest IH]; intros H; [reflexivity|].
  simpl. rewrite (H a (or_introl eq_refl)). simpl.
  rewrite IH by (intros a' Ha'; apply H; right; exact Ha'). reflexivity.
Qed.

Lemma plot_magnitudes_all_keys : Plot.magnitudes = all_keys.
Proof. reflexivity. Qed.

(** What a returned pair of tables holds, for the durations of the recall
    table. *)
Lemma analyze_tables : forall camera_stats durations pi recall detailed,
  analyze_camera_stats_magnitude camera_stats durations pi = Ok (recall, detailed) ->
  let evs := events camera_stats durations in
  (forall video_name camera d, In (video_name, camera) camera_stats ->
     In d durations -> indexable pi camera d) /\
  (forall d k, In d durations -> In k all_keys ->
     entry_of detailed d k = Some (hits pi d k evs)) /\
  (forall d, In d durations ->
     dget String.eqb d recall =
     if 0 <? visits d evs
     then Some (map (fun k => (k, ratio (List.length (hits pi d k evs)) (visits d evs)))
                  all_keys)
     else None) /\
  (forall d, In d (dkeys recall) ->
     In d durations /\
     dget String.eqb d recall =
     Some (map (fun k => (k, ratio (List.length (hits pi d k evs)) (visits d evs)))
             all_keys)).
Proof.
  intros camera_stats durations pi recall detailed H evs.
  assert (Hidx : forall video_name camera d, In (video_name, camera) camera_stats ->
                   In d durations -> indexable pi camera d).
  { destruct (analyze_cases camera_stats durations pi) as [[_ Hi]|[Hr _]];
      [exact Hi|congruence]. }
  destruct (@analyze_spec camera_stats durations pi Hidx)
    as [recall0 [detailed0 [H0 [Hd Hr]]]].
  rewrite H in H0. injection H0 as <- <-.
  split; [exact Hidx|]. split; [exact Hd|]. split; [exact Hr|].
  intros d Hin.
  assert (Hl : In d durations).
  { destruct (in_dec string_dec d durations) as [Hy|Hn]; [exact Hy|].
    destruct (dget_in_keys String.eqb String.eqb_eq d recall Hin) as [v Hv].
    rewrite (recall_keys_listed camera_stats durations pi _ _ d H Hn) in Hv.
    discriminate. }
  split; [exact Hl|].
  destruct (dget_in_keys String.eqb String.eqb_eq d recall Hin) as [v Hv].
  pose proof (Hr d Hl) as Hrd. fold evs in Hrd.
  destruct (0 <? visits d evs); [exact Hrd|congruence].
Qed.

Lemma entry_of_lookup : forall (V : Type) (factory : dict key V)
  (table : dict string (dict key V)) d k v,
  entry_of table d k = Some v ->
  dindex key_eqb k (fst (ddindex String.eqb factory d table)) = Ok v.
Proof.
  intros V factory table d k v H. unfold entry_of in H. unfold ddindex, dindex.
  destruct (dget String.eqb d table) as [inner|]; [|discriminate].
  simpl. rewrite H. reflexivity.
Qed.

(** [len(detailed_stats[duration][mag])], zero for a missing entry. *)
Definition bucket_size (detailed : dict string listing) (d : string) (k : key) : nat :=
  match entry_of detailed d k with
  | Some videos => List.length videos
  | None => 0
  end.

End AnalysisFacts.

(** ** More on one video: outcomes of a duration, checkpoints, the result file *)

Module JobFacts.
Import VideoCut VideoCutFacts.
Local Open Scope string_scope.

(** The first of the names that the directory does not have. *)
Fixpoint first_missing (names : list string) (d : Dir) : option string :=
  match names with
  | [] => None
  | filename :: rest =>
      match dget String.eqb filename d with
      | None => Some filename
      | Some _ => first_missing rest d
      end
  end.

Lemma check_files_first_missing : forall names d,
  check_files names d =
  match first_missing names d with
  | None => Ok tt
  | Some filename => Raise (RuntimeError (filename ++ " reconstruction failed"))
  end.
Proof.
  induction names as [|filename rest IH]; intros d; simpl; [reflexivity|].
  destruct (dget String.eqb filename d); [apply IH|reflexivity].
Qed.

Lemma largest_model_unreadable : forall entries largest_path largest_num_images path d,
  In (path, Directory d) entries ->
  (forall r, pycolmap_Reconstruction d <> Ok r) ->
  exists e, largest_model entries largest_path largest_num_images = Raise e.
Proof.
  induction entries as [|[p node] rest IH]; intros lp ln path d Hin Hbad; [destruct Hin|].
  destruct Hin as [Heq|Hin].
  - inversion Heq; subst. simpl.
    destruct (pycolmap_Reconstruction d) as [r|e] eqn:E; [destruct (Hbad r eq_refl)|].
    simpl. eauto.
  - destruct node as [|d0]; simpl.
    + eapply IH; eauto.
    + destruct (pycolmap_Reconstruction d0) as [r|e]; simpl; [|eauto].
      destruct (Nat.ltb ln (num_reg_images r)); eapply IH; eauto.
Qed.

(** The selected checkpoint is the first of those with the largest count. *)
Lemma largest_model_first : forall entries largest_path largest_num_images path n,
  largest_model entries largest_path largest_num_images = Ok (Some path, n) ->
  (largest_path = Some path /\ n = largest_num_images /\
   forall q d, In (q, Directory d) entries -> count_of d <= largest_num_images) \/
  (exists before d after,
     entries = (before ++ (path, Directory d) :: after)%list /\
     readable d /\ count_of d = n /\ largest_num_images < n /\
     (forall q d', In (q, Directory d') before -> count_of d' < n) /\
     (forall q d', In (q, Directory d') after -> count_of d' <= n)).
Proof.
  induction entries as [|[p node] rest IH]; intros lp ln path n H.
  - simpl in H. injection H as -> ->. left. split; [reflexivity|].
    split; [reflexivity|]. intros q d [].
  - destruct node as [|d0]; simpl in H.
    + destruct (IH _ _ _ _ H) as [[H1 [H2 H3]]|[before [d [after [H1 [H2 [H3 [H4 [H5 H6]]]]]]]]].
      * left. split; [exact H1|]. split; [exact H2|].
        intros q d [Heq|Hin]; [discriminate|eapply H3; eauto].
      * right. exists ((p, RegularFile) :: before), d, after.
        split; [rewrite H1; reflexivity|]. split; [exact H2|]. split; [exact H3|].
        split; [exact H4|]. split; [|exact H6].
        intros q d' [Heq|Hin]; [discriminate|eapply H5; eauto].
    + destruct (pycolmap_Reconstruction d0) as [r|e] eqn:E; simpl in H; [|discriminate].
      assert (Hc : count_of d0 = num_reg_images r) by (unfold count_of; rewrite E; reflexivity).
      destruct (Nat.ltb ln (num_reg_images r)) eqn:Hlt.
      * apply Nat.ltb_lt in Hlt.
        destruct (IH _ _ _ _ H) as [[H1 [H2 H3]]|[before [d [after [H1 [H2 [H3 [H4 [H5 H6]]]]]]]]].
        -- right. injection H1 as ->. exists [], d0, rest.
           split; [reflexivity|]. split; [exists r; exact E|].
           split; [congruence|]. split; [lia|]. split; [intros q d' []|].
           intros q d' Hin. rewrite H2. eapply H3; eauto.
        -- right. exists ((p, Directory d0) :: before), d, after.
           split; [rewrite H1; reflexivity|]. split; [exact H2|]. split; [exact H3|].
           split; [lia|]. split; [|exact H6].
           intros q d' [Heq|Hin]; [|eapply H5; eauto].
           inversion Heq; subst. lia.
      * apply Nat.ltb_ge in Hlt.
        destruct (IH _ _ _ _ H) as [[H1 [H2 H3]]|[before [d [after [H1 [H2 [H3 [H4 [H5 H6]]]]]]]]].
        -- left. split; [exact H1|]. split; [exact H2|].
           intros q d [Heq|Hin]; [|eapply H3; eauto].
           inversion Heq; subst. lia.
        -- right. exists ((p, Directory d0) :: before), d, after.
           split; [rewrite H1; reflexivity|]. split; [exact H2|]. split; [exact H3|].
           split; [exact H4|]. split; [|exact H6].
           intros q d' [Heq|Hin]; [|eapply H5; eauto].
           inversion Heq; subst. lia.
Qed.

Lemma in_dset : forall (V : Type) k (v : V) d k' v',
  In (k', v') (dset String.eqb k v d) -> (k', v') = (k, v) \/ In (k', v') d.
Proof.
  intros V k v d k' v'. induction d as [|[k0 v0] rest IH]; simpl; intros H.
  - destruct H as [H|[]]. left. congruence.
  - destruct (String.eqb k k0) eqn:E.
    + apply String.eqb_eq in E. subst k0. destruct H as [H|H]; [left; congruence|].
      right. right. exact H.
    + destruct H as [H|H]; [right; left; exact H|].
      destruct (IH H) as [H1|H1]; [left; exact H1|right; right; exact H1].
Qed.

Lemma dget_in : forall (V : Type) k (v : V) d,
  dget String.eqb k d = Some v -> In (k, v) d.
Proof.
  intros V k v d. induction d as [|[k0 v0] rest IH]; simpl; intros H; [discriminate|].
  destruct (String.eqb k k0) eqn:E.
  - apply String.eqb_eq in E. left. congruence.
  - right. apply IH. exact H.
Qed.

Lemma mean_std_length : forall mean std rows t,
  mean_std mean std rows = Ok t ->
  rows <> [] /\
  exists n, Forall (fun r => List.length r = n) rows /\ List.length t = 2 * n.
Proof.
  intros mean std [|row rest] t H; unfold mean_std in H; [discriminate|].
  destruct (forallb (fun r => Nat.eqb (List.length r) (List.length row)) rest) eqn:E;
    [|discriminate].
  split; [discriminate|]. exists (List.length row). split.
  - constructor; [reflexivity|]. apply Forall_forall. intros r Hr.
    rewrite forallb_forall in E. apply Nat.eqb_eq. apply E. exact Hr.
  - injection H as <-. rewrite List.length_app, !List.length_map, List.length_seq. lia.
Qed.

Lemma mean_std_ragged : forall mean std rows row row',
  In row rows -> In row' rows -> List.length row <> List.length row' ->
  mean_std mean std rows = Raise (ValueError "inhomogeneous shape").
Proof.
  intros mean std [|r0 rest] row row' H1 H2 Hne; [destruct H1|].
  unfold mean_std.
  destruct (forallb (fun r => Nat.eqb (List.length r) (List.length r0)) rest) eqn:E;
    [|reflexivity].
  exfalso. rewrite forallb_forall in E.
  assert (Hl : forall r, In r (r0 :: rest) -> List.length r = List.length r0).
  { intros r [<-|Hr]; [reflexivity|]. apply Nat.eqb_eq. apply E. exact Hr. }
  rewrite (Hl row H1), (Hl row' H2) in Hne. apply Hne. reflexivity.
Qed.

Section Job.
Variables (mean std : list float -> float).

Ltac crack :=
  repeat (cbn;
    match goal with
    | |- context [match check_files ?a ?b with _ => _ end] =>
        let H := fresh "Hcf" in
        destruct (check_files a b) as [[]|?] eqn:H;
        [|destruct (check_files_raises _ _ _ H) as [? ->]]
    | |- context [match pycolmap_Reconstruction ?a with _ => _ end] =>
        let H := fresh "Hpy" in
        destruct (pycolmap_Reconstruction a) as [?|?] eqn:H;
        [|destruct (pycolmap_raises _ _ H) as [? ->]]
    | |- context [match VideoCut.mean_std ?m ?s ?a with _ => _ end] =>
        let H := fresh "Hms" in
        destruct (VideoCut.mean_std m s a) as [?|?] eqn:H;
        [|destruct (mean_std_raises _ _ _ _ H) as [? ->]]
    | |- context [match largest_model ?a ?b ?c with _ => _ end] =>
        let H := fresh "Hlm" in
        destruct (largest_model a b c) as [[[?|] ?]|?] eqn:H;
        [| |destruct (largest_model_raises_value _ _ _ _ H) as [? ->]]
    | |- context [match promote ?a ?b ?c with _ => _ end] =>
        let H := fresh "Hpr" in
        destruct (promote a b c) as [?|?] eqn:H;
        [|destruct (promote_raises _ _ _ _ H) as [? ->]]
    end).

Ltac open_job :=
  unfold empty_acc;
  unfold process_duration, on_timeout, on_error, try_except, attempt,
    recover, collect_cameras, bindM, lift, raise, print, logging_error,
    append_out, set_param.

(** What a duration leaves when run from the empty state: a summary under
    its key and no line, or no summary and one line. *)
Definition stored (duration : nat) (a : Acc) : Prop :=
  exists summary, camera_params a = [(str duration, summary)] /\ error_log a = [].

Definition logged_once (video_name : string) (duration : nat) (a : Acc) : Prop :=
  exists reason,
    camera_params a = [] /\
    error_log a = [video_name ++ " " ++ str duration ++ "s: " ++ reason].

Local Opaque check_files pycolmap_Reconstruction largest_model promote
  VideoCut.mean_std str.

Lemma job_outcome : forall video_name timeout duration env,
  fst (process_duration mean std video_name timeout (duration, env) empty_acc) = Ok tt /\
  (stored duration (added mean std video_name timeout (duration, env)) \/
   logged_once video_name duration (added mean std video_name timeout (duration, env))).
Proof.
  intros video_name timeout duration [blk sp mdl el]. unfold added, stored, logged_once.
  open_job.
  destruct blk as [[]|cause|class_name msg]; destruct mdl as [entries|]; crack; cbn;
    (split; [reflexivity|]);
    first [ left; eexists; split; reflexivity
          | right; eexists; split; reflexivity
          | right; exists ("Timeout after " ++ str el ++ " seconds"); split; reflexivity ].
Qed.

Local Transparent check_files pycolmap_Reconstruction largest_model promote
  VideoCut.mean_std str.

Lemma process_duration_ok : forall video_name timeout job acc,
  fst (process_duration mean std video_name timeout job acc) = Ok tt.
Proof.
  intros video_name timeout [duration env] acc.
  rewrite process_duration_frame. simpl.
  apply (proj1 (job_outcome video_name timeout duration env)).
Qed.

Lemma process_durations_ok : forall video_name timeout jobs acc,
  fst (process_durations mean std video_name timeout jobs acc) = Ok tt.
Proof.
  intros video_name timeout. induction jobs as [|job rest IH]; intros acc; [reflexivity|].
  simpl. unfold bindM.
  pose proof (process_duration_ok video_name timeout job acc) as H.
  destruct (process_duration mean std video_name timeout job acc) as [[[]|e] acc1];
    simpl in H; [|discriminate].
  apply IH.
Qed.

(** Every summary stored for a duration is the reduction of the rows some
    job appended. *)
Lemma process_durations_params : forall video_name timeout jobs acc u acc',
  process_durations mean std video_name timeout jobs acc = (Ok u, acc') ->
  forall k s, In (k, s) (camera_params acc') ->
    In (k, s) (camera_params acc) \/
    exists job, In job jobs /\
      mean_std mean std (camera_params_out_duration (added mean std video_name timeout job))
      = Ok s.
Proof.
  intros video_name timeout. induction jobs as [|job rest IH]; intros acc u acc' H k s Hin.
  - simpl in H. unfold ret in H. injection H as _ <-. left. exact Hin.
  - simpl in H. unfold bindM in H. rewrite process_duration_frame in H.
    destruct (fst (process_duration mean std video_name timeout job empty_acc))
      as [[]|e]; [|discriminate].
    destruct (IH _ _ _ H k s Hin) as [H1|[job' [H1 H2]]].
    + destruct job as [duration env].
      pose proof (added_shape mean std video_name timeout duration env) as Hs.
      cbv zeta in Hs. unfold merge in H1. simpl in H1.
      destruct (camera_params (added mean std video_name timeout (duration, env)))
        as [|[k0 s0] [|]]; [left; exact H1| |destruct Hs].
      destruct Hs as [_ Hs].
      destruct (in_dset _ _ _ _ _ _ H1) as [Heq|Hold]; [|left; exact Hold].
      right. exists (duration, env). split; [left; reflexivity|].
      injection Heq as _ ->. exact Hs.
    + right. exists job'. split; [right; exact H1|exact H2].
Qed.

(** The rows a duration appends when its block completes and the sparse
    model can be read, whether or not the reduction then succeeds. *)
Lemma completed_block_rows : forall video_name timeout duration env r,
  run_block (block env) = Ok tt ->
  check_files model_files (sparse env) = Ok tt ->
  pycolmap_Reconstruction (sparse env) = Ok r ->
  camera_params_out_duration (added mean std video_name timeout (duration, env))
  = cameras r.
Proof.
  intros video_name timeout duration env r Hb Hc Hp. unfold added.
  unfold process_duration, try_except, attempt, bindM, lift, time_limit.
  rewrite Hb. cbn [fst]. rewrite Hc.
  unfold collect_cameras, bindM, lift, append_out, set_param. rewrite Hp.
  unfold empty_acc. cbn [camera_params_out_duration camera_params error_log stdout app].
  destruct (mean_std mean std (cameras r)) as [summary|e] eqn:Hm.
  - reflexivity.
  - destruct (mean_std_raises _ _ _ _ Hm) as [msg ->]. reflexivity.
Qed.

End Job.

(** *** The aggregate *)

Import Report.

Definition keep_result (acc : CameraStats.CameraDict)
  (result : string * dict string (list float)) : CameraStats.CameraDict :=
  let '(name, camera_params) := result in
  match camera_params with
  | [] => acc
  | _ :: _ => dset String.eqb name camera_params acc
  end.

Lemma all_camera_params_fold : forall results,
  all_camera_params results = fold_left keep_result results [].
Proof. reflexivity. Qed.

Lemma in_fold_keep : forall results acc name camera,
  In (name, camera) (fold_left keep_result results acc) ->
  In (name, camera) acc \/ In (name, camera) results.
Proof.
  induction results as [|[n c] rest IH]; intros acc name camera H; [left; exact H|].
  simpl in H. destruct (IH _ _ _ H) as [H1|H1]; [|right; right; exact H1].
  destruct c as [|kv c']; [left; exact H1|].
  destruct (in_dset _ _ _ _ _ _ H1) as [Heq|Hold];
    [right; left; symmetry; exact Heq|left; exact Hold].
Qed.

Lemma fold_keep_other : forall results acc b,
  (forall name camera, In (name, camera) results -> name = b -> camera = []) ->
  dget String.eqb b (fold_left keep_result results acc) = dget String.eqb b acc.
Proof.
  induction results as [|[n c] rest IH]; intros acc b H; [reflexivity|].
  simpl. rewrite IH by (intros name camera Hin; apply H; right; exact Hin).
  destruct c as [|kv c']; [reflexivity|].
  apply (dget_dset_other String.eqb String.eqb_eq).
  intros ->. specialize (H b (kv :: c') (or_introl eq_refl) eq_refl). discriminate.
Qed.

Lemma dkeys_dset_nodup : forall (V : Type) k (v : V) d,
  NoDup (dkeys d) -> NoDup (dkeys (dset String.eqb k v d)).
Proof.
  intros V k v d. induction d as [|[k0 v0] rest IH]; simpl; intros H.
  - constructor; [intros []|constructor].
  - inversion H as [|? ? Hn Hr]; subst.
    destruct (String.eqb k k0) eqn:E; simpl; [exact H|].
    constructor; [|apply IH; exact Hr].
    intros Hin. apply Hn. unfold dkeys in *.
    apply in_map_iff in Hin. destruct Hin as [[k1 v1] [Hk Hin]]. simpl in Hk. subst k1.
    destruct (in_dset _ _ _ _ _ _ Hin) as [Heq|Hold].
    + injection Heq as -> _. rewrite String.eqb_refl in E. discriminate.
    + apply in_map_iff. exists (k0, v1). split; [reflexivity|exact Hold].
Qed.

Lemma fold_keep_nodup : forall results acc,
  NoDup (dkeys acc) -> NoDup (dkeys (fold_left keep_result results acc)).
Proof.
  induction results as [|[n c] rest IH]; intros acc H; [exact H|].
  simpl. apply IH. destruct c as [|kv c']; [exact H|].
  apply dkeys_dset_nodup. exact H.
Qed.

End JobFacts.

(** ** More on the scheduler: the deal of the videos, the counters, the last loop *)

Module DealFacts.
Import Scheduler SchedulerFacts.

Lemma nth_append_at : forall (A : Type) (groups : list (list A)) r x g,
  r < List.length groups ->
  nth g (append_at r x groups) [] =
  if g =? r then nth r groups [] ++ [x] else nth g groups [].
Proof.
  intros A. induction groups as [|grp rest IH]; intros r x g Hr; simpl in Hr; [lia|].
  destruct r as [|r']; simpl.
  - destruct g as [|g']; reflexivity.
  - destruct g as [|g']; [reflexivity|]. simpl. apply IH. lia.
Qed.

(** Arithmetic of dealing [i] cards to [n] players in turn. *)
Lemma div_cancel : forall n q a, a < n -> (n * q + a) / n = q.
Proof.
  intros n q a Ha. symmetry. apply (Nat.div_unique (n * q + a) n q a); [exact Ha|reflexivity].
Qed.

Lemma dealt_before : forall n i, n <> 0 -> (i + n - 1 - i mod n) / n = i / n.
Proof.
  intros n i Hn.
  pose proof (Nat.div_mod_eq i n) as Hi.
  pose proof (Nat.mod_upper_bound i n Hn) as Hr.
  set (q := i / n) in *. set (r := i mod n) in *.
  replace (i + n - 1 - r) with (n * q + (n - 1)) by lia.
  apply div_cancel. lia.
Qed.

Lemma dealt_after : forall n i, n <> 0 -> (S i + n - 1 - i mod n) / n = S (i / n).
Proof.
  intros n i Hn.
  pose proof (Nat.div_mod_eq i n) as Hi.
  pose proof (Nat.mod_upper_bound i n Hn) as Hr.
  set (q := i / n) in *. set (r := i mod n) in *.
  replace (S i + n - 1 - r) with (n * S q + 0) by lia.
  apply div_cancel. lia.
Qed.

Lemma dealt_other : forall n i g, n <> 0 -> g < n -> g <> i mod n ->
  (S i + n - 1 - g) / n = (i + n - 1 - g) / n.
Proof.
  intros n i g Hn Hg Hne.
  pose proof (Nat.div_mod_eq i n) as Hi.
  pose proof (Nat.mod_upper_bound i n Hn) as Hr.
  set (q := i / n) in *. set (r := i mod n) in *.
  destruct (Nat.lt_ge_cases g r) as [Hlt|Hge].
  - replace (S i + n - 1 - g) with (n * S q + (r - g)) by lia.
    replace (i + n - 1 - g) with (n * S q + (r - g - 1)) by lia.
    rewrite !div_cancel by lia. reflexivity.
  - replace (S i + n - 1 - g) with (n * q + (n - (g - r))) by lia.
    replace (i + n - 1 - g) with (n * q + (n - 1 - (g - r))) by lia.
    rewrite !div_cancel by lia. reflexivity.
Qed.

Lemma same_turn_earlier : forall n i j, n <> 0 -> j < i -> j mod n = i mod n ->
  j / n < i / n.
Proof.
  intros n i j Hn Hlt Hm.
  pose proof (Nat.div_mod_eq i n) as Hi. pose proof (Nat.div_mod_eq j n) as Hj.
  rewrite Hm in Hj.
  destruct (Nat.lt_ge_cases (j / n) (i / n)) as [H|H]; [exact H|].
  assert (n * (i / n) <= n * (j / n)) by (apply Nat.mul_le_mono_l; exact H).
  lia.
Qed.

(** The groups after the first [i] videos of the list were dealt. *)
Definition dealt (n i : nat) (done : list string) (groups : list (list string)) : Prop :=
  List.length groups = n /\ List.length done = i /\
  (forall g, g < n -> List.length (nth g groups []) = (i + n - 1 - g) / n) /\
  (forall j, j < i -> nth_error (nth (j mod n) groups []) (j / n) = nth_error done j).

Lemma dealt_start : forall n, n <> 0 -> dealt n 0 [] (repeat [] n).
Proof.
  intros n Hn. split; [apply repeat_length|]. split; [reflexivity|]. split.
  - intros g Hg.
    assert (Hnil : nth g (repeat (@nil string) n) [] = []).
    { destruct (nth_in_or_default g (repeat (@nil string) n) []) as [Hin|Hd];
        [|exact Hd].
      exact (repeat_spec _ _ _ Hin). }
    rewrite Hnil. simpl. symmetry. apply Nat.div_small. lia.
  - intros j Hj. lia.
Qed.

Lemma dealt_step : forall n i done groups v,
  n <> 0 -> dealt n i done groups ->
  dealt n (S i) (done ++ [v]) (append_at (i mod n) v groups).
Proof.
  intros n i done groups v Hn [Hlen [Hdone [Hsizes Hpos]]].
  pose proof (Nat.mod_upper_bound i n Hn) as Hr.
  split; [rewrite append_at_length; exact Hlen|].
  split; [rewrite List.length_app; simpl; lia|]. split.
  - intros g Hg. rewrite nth_append_at by lia.
    destruct (g =? i mod n) eqn:E.
    + apply Nat.eqb_eq in E. subst g.
      rewrite List.length_app, Hsizes by exact Hr.
      rewrite dealt_before, dealt_after by exact Hn. simpl. lia.
    + apply Nat.eqb_neq in E. rewrite Hsizes by exact Hg.
      symmetry. apply dealt_other; assumption.
  - intros j Hj. rewrite nth_append_at by lia.
    assert (Hj' : j < i \/ j = i) by lia. destruct Hj' as [Hlt| ->].
    + rewrite (nth_error_app1 done [v]) by lia.
      destruct (j mod n =? i mod n) eqn:E.
      * apply Nat.eqb_eq in E.
        rewrite nth_error_app1.
        -- rewrite <- E. apply Hpos. exact Hlt.
        -- rewrite Hsizes, dealt_before by assumption.
           apply same_turn_earlier; assumption.
      * apply Hpos. exact Hlt.
    + rewrite Nat.eqb_refl.
      rewrite nth_error_app2 by (rewrite Hsizes, dealt_before by assumption; lia).
      rewrite Hsizes, dealt_before by assumption. rewrite Nat.sub_diag.
      rewrite nth_error_app2 by lia. rewrite Hdone, Nat.sub_diag. reflexivity.
Qed.

Lemma group_videos_deals : forall n video_list i done groups groups',
  n <> 0 -> dealt n i done groups ->
  group_videos n i video_list groups = Ok groups' ->
  dealt n (i + List.length video_list) (done ++ video_list) groups'.
Proof.
  intros n. induction video_list as [|v rest IH]; intros i done groups groups' Hn Hd H.
  - simpl in H. injection H as <-. simpl. rewrite Nat.add_0_r, app_nil_r. exact Hd.
  - simpl in H. destruct (n =? 0) eqn:E; [discriminate|].
    pose proof (IH _ _ _ _ Hn (dealt_step n i done groups v Hn Hd) H) as Hd'.
    simpl. rewrite Nat.add_succ_r. rewrite <- app_assoc in Hd'. exact Hd'.
Qed.

Lemma gpu_video_groups_deals : forall n video_list groups,
  n <> 0 -> gpu_video_groups n video_list = Ok groups ->
  dealt n (List.length video_list) video_list groups.
Proof.
  intros n video_list groups Hn H.
  exact (group_videos_deals n video_list 0 [] _ _ Hn (dealt_start n Hn) H).
Qed.

Lemma gpu_video_groups_no_gpu : forall video_list,
  gpu_video_groups 0 video_list =
  match video_list with
  | [] => Ok []
  | _ :: _ => Raise ZeroDivisionError
  end.
Proof. intros [|v rest]; reflexivity. Qed.

(** *** The counters *)

Definition load (g : Gpu) : nat := List.length (processes g) + List.length (queue g).

Definition total_load (gpus : list Gpu) : nat := list_sum (map load gpus).

Lemma poll_load : forall is_alive fuel gpu_id i g sh g' sh' i',
  poll is_alive fuel gpu_id i g sh = (g', sh', i') ->
  completed_videos sh' + load g' = completed_videos sh + load g.
Proof.
  intros is_alive. induction fuel as [|fuel IH]; intros gpu_id i g sh g' sh' i' H.
  - simpl in H. injection H as <- <- _. reflexivity.
  - simpl in H. destruct (nth_error (processes g) i) as [p|] eqn:Hp.
    + destruct (is_alive (clock sh) p).
      * apply IH in H. simpl in H. exact H.
      * pose proof (remove_at_length _ _ _ _ Hp) as Hl.
        destruct (queue g) as [|next_video q] eqn:Hq.
        -- apply IH in H. unfold load in *. simpl in H. rewrite Hq. simpl. lia.
        -- apply IH in H. unfold load in *. simpl in H.
           rewrite List.length_app in H. simpl in H. rewrite Hq. simpl. lia.
    + injection H as <- <- _. reflexivity.
Qed.

Lemma poll_all_load : forall is_alive gpus gpu_id sh gpus' sh',
  poll_all is_alive gpu_id gpus sh = (gpus', sh') ->
  completed_videos sh' + total_load gpus' = completed_videos sh + total_load gpus.
Proof.
  intros is_alive. induction gpus as [|g rest IH]; intros gpu_id sh gpus' sh' H.
  - simpl in H. injection H as <- <-. reflexivity.
  - cbn [poll_all] in H.
    destruct (poll_gpu is_alive gpu_id g sh) as [[g1 sh1] i1] eqn:Hp.
    destruct (poll_all is_alive (S gpu_id) rest sh1) as [rest1 sh2] eqn:Hr.
    injection H as <- <-. apply IH in Hr. unfold poll_gpu in Hp. apply poll_load in Hp.
    unfold total_load in *. simpl. lia.
Qed.

Lemma main_loop_load : forall is_alive fuel gpus sh gpus' sh' b,
  main_loop is_alive fuel gpus sh = (gpus', sh', b) ->
  completed_videos sh' + total_load gpus' = completed_videos sh + total_load gpus.
Proof.
  intros is_alive. induction fuel as [|fuel IH]; intros gpus sh gpus' sh' b H.
  - simpl in H. injection H as <- <- _. reflexivity.
  - cbn [main_loop] in H. destruct (busy gpus sh).
    + destruct (poll_all is_alive 0 gpus sh) as [gpus1 sh1] eqn:Hp.
      apply IH in H. apply poll_all_load in Hp. simpl in H. lia.
    + injection H as <- <- _. reflexivity.
Qed.

Lemma fill_load : forall n gpu_id g sh g' sh',
  fill n gpu_id g sh = (g', sh') ->
  load g' = load g /\ completed_videos sh' = completed_videos sh.
Proof.
  induction n as [|n IH]; intros gpu_id g sh g' sh' H.
  - simpl in H. injection H as <- <-. split; reflexivity.
  - simpl in H. destruct (queue g) as [|v q] eqn:Hq.
    + apply IH in H. exact H.
    + apply IH in H. destruct H as [H1 H2]. unfold load in *. simpl in *.
      rewrite List.length_app in H1. simpl in H1. rewrite Hq. simpl.
      split; [lia|exact H2].
Qed.

Lemma fill_all_load : forall gpus gpu_id sh gpus' sh',
  fill_all gpu_id gpus sh = (gpus', sh') ->
  total_load gpus' = total_load gpus /\ completed_videos sh' = completed_videos sh.
Proof.
  induction gpus as [|g rest IH]; intros gpu_id sh gpus' sh' H.
  - simpl in H. injection H as <- <-. split; reflexivity.
  - cbn [fill_all] in H.
    destruct (fill (Nat.min processes_per_gpu (List.length (queue g))) gpu_id g sh)
      as [g1 sh1] eqn:Hf.
    destruct (fill_all (S gpu_id) rest sh1) as [rest1 sh2] eqn:Hr.
    injection H as <- <-. apply IH in Hr. apply fill_load in Hf.
    unfold total_load in *. simpl. destruct Hr, Hf. split; [lia|congruence].
Qed.

Lemma drain_completed : forall gpus gpu_id sh,
  completed_videos (drain gpu_id gpus sh) = completed_videos sh.
Proof.
  induction gpus as [|g rest IH]; intros gpu_id sh; [reflexivity|].
  simpl. rewrite IH.
  generalize sh. induction (processes g) as [|p ps IHp]; intros sh0; [reflexivity|].
  simpl. rewrite IHp. reflexivity.
Qed.

Lemma total_load_start : forall groups,
  total_load (map (fun videos => mkGpu [] videos) groups)
  = List.length (List.concat groups).
Proof.
  induction groups as [|grp rest IH]; [reflexivity|].
  unfold total_load in *. simpl. rewrite List.length_app, IH. reflexivity.
Qed.

Lemma total_load_idle : forall gpus,
  Forall idle gpus -> total_load gpus = 0.
Proof.
  induction 1 as [|g rest [Hp Hq] _ IH]; [reflexivity|].
  unfold total_load in *. simpl. rewrite IH. unfold load. rewrite Hp, Hq. reflexivity.
Qed.

Lemma sum_queues_idle : forall gpus,
  Forall idle gpus -> sum_queues gpus = 0.
Proof.
  induction 1 as [|g rest [Hp Hq] _ IH]; [reflexivity|].
  simpl. rewrite Hq, IH. reflexivity.
Qed.

Lemma groups_hold_the_list : forall num_gpus video_list groups,
  gpu_video_groups num_gpus video_list = Ok groups ->
  List.length (List.concat groups) = List.length video_list.
Proof.
  intros num_gpus video_list groups H.
  destruct (Nat.eq_dec num_gpus 0) as [->|Hn].
  - rewrite gpu_video_groups_no_gpu in H. destruct video_list; [|discriminate].
    injection H as <-. reflexivity.
  - destruct (group_videos_ok num_gpus video_list 0 (repeat [] num_gpus) Hn
                (repeat_length _ _)) as [groups' [H1 [_ HP]]].
    unfold gpu_video_groups in H. rewrite H in H1. injection H1 as <-.
    rewrite (Permutation_length HP), concat_repeat_nil. reflexivity.
Qed.

Lemma schedule_load : forall is_alive fuel num_gpus video_list gpus sh stopped,
  schedule is_alive fuel num_gpus video_list = Ok (gpus, sh, stopped) ->
  completed_videos sh + total_load gpus = List.length video_list.
Proof.
  intros is_alive fuel num_gpus video_list gpus sh stopped H.
  unfold schedule in H.
  destruct (gpu_video_groups num_gpus video_list) as [groups|e] eqn:Hg;
    simpl in H; [|discriminate].
  destruct (fill_all 0 (map (fun videos => mkGpu [] videos) groups) (mkShared 0 0 0 []))
    as [gpus1 sh1] eqn:Hf.
  destruct (main_loop is_alive fuel gpus1
              (mkShared (Z.of_nat (sum_queues gpus1)) 0 (clock sh1) (trace sh1)))
    as [[gpus2 sh3] b] eqn:Hm.
  apply fill_all_load in Hf. destruct Hf as [Hf _].
  apply main_loop_load in Hm. simpl in Hm.
  rewrite total_load_start, (groups_hold_the_list _ _ _ Hg) in Hf.
  destruct b; injection H as <- <- _.
  - rewrite drain_completed. lia.
  - lia.
Qed.

Lemma fill_all_idle : forall gpus gpu_id sh,
  Forall idle gpus -> fill_all gpu_id gpus sh = (gpus, sh).
Proof.
  induction gpus as [|g rest IH]; intros gpu_id sh H; [reflexivity|].
  inversion H as [|? ? [Hp Hq] Hrest]; subst.
  cbn [fill_all]. rewrite Hq. simpl. rewrite IH by exact Hrest. reflexivity.
Qed.

Lemma main_loop_idle : forall is_alive fuel gpus sh,
  busy gpus sh = false -> main_loop is_alive fuel gpus sh = (gpus, sh, true).
Proof.
  intros is_alive [|fuel] gpus sh H; simpl; rewrite H; reflexivity.
Qed.

Lemma schedule_nothing : forall is_alive fuel num_gpus,
  schedule is_alive fuel num_gpus []
  = Ok (repeat (mkGpu [] []) num_gpus, mkShared 0 0 0 [], true).
Proof.
  intros is_alive fuel num_gpus. unfold schedule, gpu_video_groups.
  cbn [group_videos bind]. rewrite map_repeat.
  assert (Hidle : Forall idle (repeat (mkGpu [] []) num_gpus)).
  { apply Forall_forall. intros g Hg. apply repeat_spec in Hg. subst g.
    split; reflexivity. }
  rewrite fill_all_idle by exact Hidle.
  rewrite (sum_queues_idle _ Hidle). cbn [clock trace Z.of_nat].
  rewrite main_loop_idle.
  - rewrite drain_idle by exact Hidle. reflexivity.
  - apply idle_not_busy; [exact Hidle|]. cbn [remaining_videos].
    rewrite (sum_queues_idle _ Hidle). reflexivity.
Qed.

End DealFacts.

(** ** The list of videos: lines, names, order *)

Module VideoListFacts.
Import VideoList.
Local Open Scope string_scope.

(** *** Stripping *)

Definition no_leading_space (s : string) : Prop :=
  match s with
  | EmptyString => True
  | String c _ => isspace c = false
  end.

Lemma lstrip_no_leading_space : forall s, no_leading_space (lstrip s).
Proof.
  induction s as [|c rest IH]; simpl; [exact I|].
  destruct (isspace c) eqn:E; [exact IH|exact E].
Qed.

Lemma lstrip_fixed : forall s, no_leading_space s -> lstrip s = s.
Proof.
  intros [|c rest] H; simpl; [reflexivity|]. simpl in H. rewrite H. reflexivity.
Qed.

Lemma rstrip_no_leading_space : forall s,
  no_leading_space s -> no_leading_space (rstrip s).
Proof.
  intros [|c rest] H; simpl; [exact I|]. simpl in H.
  destruct (rstrip rest); [rewrite H|]; exact H.
Qed.

Lemma rstrip_idempotent : forall s, rstrip (rstrip s) = rstrip s.
Proof.
  induction s as [|c rest IH]; simpl; [reflexivity|].
  destruct (rstrip rest) as [|c' rest'] eqn:E.
  - destruct (isspace c) eqn:Ec; simpl; [reflexivity|]. rewrite Ec. reflexivity.
  - change (rstrip (String c (String c' rest'))) with
      (match rstrip (String c' rest') with
       | EmptyString => if isspace c then EmptyString else String c EmptyString
       | String c1 rest1 => String c (String c1 rest1)
       end).
    rewrite IH. reflexivity.
Qed.

Lemma strip_stripped : forall s,
  lstrip (strip s) = strip s /\ rstrip (strip s) = strip s.
Proof.
  intros s. unfold strip. split.
  - apply lstrip_fixed. apply rstrip_no_leading_space. apply lstrip_no_leading_space.
  - apply rstrip_idempotent.
Qed.

(** *** Line feeds *)

(** A line feed can only be the last character. *)
Fixpoint line_like (s : string) : Prop :=
  match s with
  | EmptyString => True
  | String c rest => (c = line_feed -> rest = EmptyString) /\ line_like rest
  end.

Lemma readlines_line_like : forall text line,
  In line (readlines text) -> line_like line.
Proof.
  induction text as [|c rest IH]; intros line H; simpl in H; [destruct H|].
  destruct (Ascii.eqb c line_feed) eqn:E.
  - destruct H as [<-|H]; [|apply IH; exact H]. simpl. auto.
  - apply Ascii.eqb_neq in E.
    destruct (readlines rest) as [|l ls] eqn:El.
    + destruct H as [<-|[]]. simpl. split; [intros Hc; contradiction|exact I].
    + destruct H as [<-|H]; [|apply IH; right; exact H].
      simpl. split; [intros Hc; contradiction|]. apply IH. left. reflexivity.
Qed.

Lemma lstrip_line_like : forall s, line_like s -> line_like (lstrip s).
Proof.
  induction s as [|c rest IH]; intros H; simpl; [exact I|].
  destruct (isspace c); [apply IH; apply H|exact H].
Qed.

Lemma rstrip_no_line_feed : forall s c,
  line_like s -> In c (list_ascii_of_string (rstrip s)) -> c <> line_feed.
Proof.
  induction s as [|c0 rest IH]; intros c Hll H; simpl in H; [destruct H|].
  destruct Hll as [Hlast Hl].
  destruct (rstrip rest) as [|c' rest'] eqn:E.
  - destruct (isspace c0) eqn:Es; simpl in H; [destruct H|].
    destruct H as [<-|[]]. intros ->. vm_compute in Es. discriminate.
  - destruct H as [<-|H].
    + intros ->. rewrite (Hlast eq_refl) in E. discriminate.
    + apply IH; [exact Hl|exact H].
Qed.

(** *** Counting lines *)

Fixpoint line_feeds (text : string) : nat :=
  match text with
  | EmptyString => 0
  | String c rest =>
      if Ascii.eqb c line_feed then S (line_feeds rest) else line_feeds rest
  end.

(** The text ends in a line without a line feed. *)
Fixpoint unfinished (text : string) : bool :=
  match text with
  | EmptyString => false
  | String c EmptyString => negb (Ascii.eqb c line_feed)
  | String _ rest => unfinished rest
  end.

Lemma readlines_nil : forall text, readlines text = [] -> text = EmptyString.
Proof.
  intros [|c rest] H; [reflexivity|]. simpl in H.
  destruct (Ascii.eqb c line_feed); [discriminate|].
  destruct (readlines rest); discriminate.
Qed.

Lemma readlines_length : forall text,
  List.length (readlines text)
  = line_feeds text + (if unfinished text then 1 else 0).
Proof.
  induction text as [|c rest IH]; [reflexivity|].
  cbn [readlines line_feeds].
  destruct (Ascii.eqb c line_feed) eqn:E.
  - cbn [List.length]. rewrite IH.
    destruct rest as [|c1 rest1]; [simpl; rewrite E; reflexivity|].
    reflexivity.
  - destruct (readlines rest) as [|l ls] eqn:El.
    + apply readlines_nil in El. subst rest. simpl. rewrite E. reflexivity.
    + cbn [List.length] in *. rewrite IH.
      destruct rest as [|c1 rest1]; [discriminate|]. reflexivity.
Qed.

Lemma readlines_concat : forall text, String.concat "" (readlines text) = text.
Proof.
  induction text as [|c rest IH]; [reflexivity|]. cbn [readlines].
  destruct (Ascii.eqb c line_feed) eqn:E.
  - destruct (readlines rest) as [|l ls] eqn:El.
    + apply readlines_nil in El. subst rest. reflexivity.
    + change (String.concat "" (String c "" :: l :: ls))
        with (String c (String.concat "" (l :: ls))).
      rewrite IH. reflexivity.
  - destruct (readlines rest) as [|l ls] eqn:El.
    + apply readlines_nil in El. subst rest. reflexivity.
    + rewrite <- IH. destruct ls as [|l2 ls2]; reflexivity.
Qed.

(** *** Order *)

Lemma ascii_compare_refl : forall c, Ascii.compare c c = Eq.
Proof. intros c. unfold Ascii.compare. apply N.compare_refl. Qed.

Lemma leb_trans : forall a b c,
  String.leb a b = true -> String.leb b c = true -> String.leb a c = true.
Proof.
  unfold String.leb.
  induction a as [|c1 a IH]; intros [|c2 b] [|c3 c]; simpl; intros H1 H2;
    try reflexivity; try discriminate.
  unfold Ascii.compare in *.
  destruct (N.compare_spec (N_of_ascii c1) (N_of_ascii c2)) as [E12|L12|G12];
    [| |discriminate].
  - rewrite E12.
    destruct (N.compare_spec (N_of_ascii c2) (N_of_ascii c3)) as [E23|L23|G23];
      [|reflexivity|discriminate].
    apply IH with (b := b); assumption.
  - destruct (N.compare_spec (N_of_ascii c2) (N_of_ascii c3)) as [E23|L23|G23];
      [| |discriminate].
    + rewrite <- E23. rewrite (proj2 (N.compare_lt_iff _ _) L12). reflexivity.
    + rewrite (proj2 (N.compare_lt_iff _ _) (N.lt_trans _ _ _ L12 L23)). reflexivity.
Qed.

(** Ascending order: every element is below all later ones. *)
Fixpoint ascending (l : list string) : Prop :=
  match l with
  | [] => True
  | x :: rest => Forall (fun y => String.leb x y = true) rest /\ ascending rest
  end.

Lemma insert_perm : forall x l, Permutation (insert x l) (x :: l).
Proof.
  intros x. induction l as [|y rest IH]; simpl; [apply Permutation_refl|].
  destruct (String.leb x y); [apply Permutation_refl|].
  apply perm_trans with (y :: x :: rest); [apply perm_skip; exact IH|apply perm_swap].
Qed.

Lemma sorted_perm : forall l, Permutation (sorted l) l.
Proof.
  induction l as [|x rest IH]; simpl; [apply perm_nil|].
  apply perm_trans with (x :: sorted rest); [apply insert_perm|].
  apply perm_skip. exact IH.
Qed.

Lemma insert_ascending : forall x l, ascending l -> ascending (insert x l).
Proof.
  intros x. induction l as [|y rest IH]; intros H; simpl.
  - split; [constructor|exact I].
  - destruct H as [Hy Hrest]. destruct (String.leb x y) eqn:E.
    + split; [|split; assumption].
      constructor; [exact E|].
      apply Forall_forall. intros z Hz. rewrite Forall_forall in Hy.
      exact (leb_trans x y z E (Hy z Hz)).
    + split; [|apply IH; exact Hrest].
      apply Forall_forall. intros z Hz.
      apply (Permutation_in _ (insert_perm x rest)) in Hz.
      destruct Hz as [<-|Hz].
      * destruct (String.leb_total x y) as [H|H]; [congruence|exact H].
      * rewrite Forall_forall in Hy. exact (Hy z Hz).
Qed.

Lemma sorted_ascending : forall l, ascending (sorted l).
Proof.
  induction l as [|x rest IH]; simpl; [exact I|]. apply insert_ascending. exact IH.
Qed.

Lemma leb_refl : forall s, String.leb s s = true.
Proof.
  intros s. destruct (String.leb_total s s) as [H|H]; exact H.
Qed.

Lemma ascending_unique : forall l l',
  Permutation l l' -> ascending l -> ascending l' -> l = l'.
Proof.
  induction l as [|x t IH]; intros l' HP Hl Hl'.
  - apply Permutation_nil in HP. symmetry. exact HP.
  - destruct l' as [|y t']; [apply Permutation_sym, Permutation_nil in HP; discriminate|].
    destruct Hl as [Hx Ht]. destruct Hl' as [Hy Ht'].
    rewrite Forall_forall in Hx, Hy.
    assert (Hxy : String.leb x y = true).
    { assert (Hin : In y (x :: t))
        by (apply (Permutation_in _ (Permutation_sym HP)); left; reflexivity).
      destruct Hin as [<-|Hin]; [apply leb_refl|apply Hx; exact Hin]. }
    assert (Hyx : String.leb y x = true).
    { assert (Hin : In x (y :: t'))
        by (apply (Permutation_in _ HP); left; reflexivity).
      destruct Hin as [<-|Hin]; [apply leb_refl|apply Hy; exact Hin]. }
    pose proof (String.leb_antisym x y Hxy Hyx) as Heq. subst y.
    f_equal. apply IH; [exact (Permutation_cons_inv HP)|exact Ht|exact Ht'].
Qed.

Lemma sorted_of_permutation : forall l l',
  Permutation l l' -> sorted l = sorted l'.
Proof.
  intros l l' HP. apply ascending_unique.
  - apply perm_trans with l; [apply sorted_perm|].
    apply perm_trans with l'; [exact HP|apply Permutation_sym, sorted_perm].
  - apply sorted_ascending.
  - apply sorted_ascending.
Qed.

End VideoListFacts.

(** ** The frame loop *)

Module FramesFacts.
Import Frames.

Lemma sampling_rate_positive : forall raw, 1 <= sampling_rate raw.
Proof.
  intros raw. unfold sampling_rate. destruct (raw <? 1)%Z eqn:E; [lia|].
  apply Z.ltb_ge in E. lia.
Qed.

Lemma skip_skipn : forall (Frame : Type) n (cap : list Frame),
  skip n cap = skipn n cap.
Proof.
  intros Frame. induction n as [|n IH]; intros cap; [reflexivity|].
  simpl. destruct cap as [|f rest]; simpl.
  - rewrite IH. apply skipn_nil.
  - apply IH.
Qed.

Lemma nth_error_skipn : forall (A : Type) n (l : list A) k,
  nth_error (skipn n l) k = nth_error l (n + k).
Proof.
  intros A. induction n as [|n IH]; intros l k; [reflexivity|].
  destruct l as [|a rest]; simpl.
  - destruct k; reflexivity.
  - apply IH.
Qed.

(** The [k]-th call of [imwrite]: the frame [k * rate] frames after the
    start, under the name of index [(a + k) * rate], as long as [k] is
    below the number of indices and the capture has this frame. *)
Lemma frames_loop_nth : forall (Frame : Type) (frame_filename : nat -> string)
  rate n a (cap : list Frame) k,
  1 <= rate ->
  nth_error (frames_loop frame_filename (map (fun j => j * rate) (seq a n)) rate cap) k
  = if k <? n
    then option_map (fun frame => (frame_filename ((a + k) * rate), frame))
           (nth_error cap (k * rate))
    else None.
Proof.
  intros Frame frame_filename rate. induction n as [|n IH]; intros a cap k Hr.
  - simpl. destruct k; reflexivity.
  - cbn [seq map frames_loop]. destruct cap as [|f rest]; cbn [read].
    + assert (Hnil : forall j, nth_error (@nil Frame) j = None)
        by (intros [|j]; reflexivity).
      assert (Hnil' : forall j, nth_error (@nil (string * Frame)) j = None)
        by (intros [|j]; reflexivity).
      rewrite Hnil', Hnil. destruct (k <? S n); reflexivity.
    + destruct k as [|k].
      * cbn [nth_error]. rewrite Nat.add_0_r. reflexivity.
      * cbn [nth_error]. rewrite IH by exact Hr. rewrite skip_skipn.
        change (S k <? S n) with (k <? n).
        destruct (k <? n); [|reflexivity].
        rewrite nth_error_skipn.
        replace (S k * rate) with (S (rate - 1 + k * rate)) by lia.
        cbn [nth_error]. replace (a + S k) with (S a + k) by lia. reflexivity.
Qed.

Lemma below_range : forall stop rate k,
  1 <= rate -> (k <? (stop + rate - 1) / rate) = (k * rate <? stop).
Proof.
  intros stop rate k Hr.
  destruct (k * rate <? stop) eqn:E.
  - apply Nat.ltb_lt in E. apply Nat.ltb_lt.
    apply Nat.div_le_lower_bound; [lia|]. 
    rewrite Nat.mul_comm. simpl. lia.
  - apply Nat.ltb_ge in E. apply Nat.ltb_ge.
    assert (H : (stop + rate - 1) / rate < S k); [|lia].
    apply Nat.Div0.div_lt_upper_bound. rewrite Nat.mul_comm. simpl. lia.
Qed.

End FramesFacts.

(** ** The rows of a job, the logged lines and the result files *)

Module ResultFacts.
Import VideoCut VideoCutFacts JobFacts Report.
Local Open Scope string_scope.

(** *** Where the messages of a process go *)

Lemma stream_sinks : forall messages handler sinks,
  handler <> FileHandler ->
  snd (fold_left emit messages (handler, sinks)) =
  mkSinks (log_file sinks)
    (stderr sinks ++ map (String.append "ERROR:root:") messages)%list.
Proof.
  induction messages as [|msg rest IH]; intros handler sinks Hh; simpl.
  - rewrite app_nil_r. destruct sinks; reflexivity.
  - destruct handler; [|congruence|]; rewrite IH by discriminate; simpl;
      rewrite <- app_assoc; reflexivity.
Qed.

Lemma file_sinks : forall messages sinks,
  snd (fold_left emit messages (FileHandler, sinks)) =
  mkSinks (log_file sinks ++ messages)%list (stderr sinks).
Proof.
  induction messages as [|msg rest IH]; intros sinks; simpl.
  - rewrite app_nil_r. destruct sinks; reflexivity.
  - rewrite IH. simpl. rewrite <- app_assoc. reflexivity.
Qed.

(** The messages of the process of a video are lines of the standard error
    stream; the log file of the main process gets none of them. *)
Lemma process_sinks_stderr : forall messages,
  process_sinks messages =
  mkSinks [] (map (String.append "ERROR:root:") messages).
Proof.
  intros messages. unfold process_sinks, logging_sinks.
  rewrite stream_sinks by discriminate. reflexivity.
Qed.

(** *** The cameras a duration reads *)

(** The per-camera parameter vectors of a model directory. *)
Definition cameras_of (d : Dir) : list (list float) :=
  match pycolmap_Reconstruction d with
  | Ok r => cameras r
  | Raise _ => []
  end.

(** The directories of a listing with their counts of registered images,
    when all of them can be read. *)
Fixpoint checkpoint_counts (entries : list (string * Node))
  : option (list (string * nat)) :=
  match entries with
  | [] => Some []
  | (_, RegularFile) :: rest => checkpoint_counts rest
  | (path, Directory d) :: rest =>
      match pycolmap_Reconstruction d, checkpoint_counts rest with
      | Ok r, Some counts => Some ((path, num_reg_images r) :: counts)
      | _, _ => None
      end
  end.

Definition largest_count (counts : list (string * nat)) : nat :=
  fold_right Nat.max 0 (map snd counts).

(** The checkpoint with the largest count of registered images, the first
    listed among equals, when every checkpoint can be read and one of them
    has a registered image. *)
Definition largest_checkpoint (entries : list (string * Node)) : option string :=
  match checkpoint_counts entries with
  | None => None
  | Some counts =>
      let n := largest_count counts in
      if Nat.eqb n 0 then None
      else option_map fst (find (fun c => Nat.eqb (snd c) n) counts)
  end.

(** The directory under the name of this checkpoint. *)
Definition selected_checkpoint (env : JobEnv) : option Dir :=
  match models env with
  | None => None
  | Some entries =>
      match largest_checkpoint entries with
      | Some path =>
          match dget String.eqb path entries with
          | Some (Directory d) => Some d
          | _ => None
          end
      | None => None
      end
  end.

(** The per-camera parameter vectors of a duration: those of the sparse
    model when the block completed, those of the selected checkpoint when
    the deadline expired, none when the block failed. *)
Definition cameras_read (env : JobEnv) : list (list float) :=
  match block env with
  | Completes _ => cameras_of (sparse env)
  | Interrupted _ =>
      match selected_checkpoint env with
      | Some checkpoint => cameras_of checkpoint
      | None => []
      end
  | Fails _ _ => []
  end.



(** The loop of the recovery selects this checkpoint. *)
Lemma largest_model_counts : forall entries largest_path largest_num_images,
  largest_model entries largest_path largest_num_images =
  match checkpoint_counts entries with
  | None => Raise (ValueError "cannot read the reconstruction")
  | Some counts =>
      let n := largest_count counts in
      Ok (if Nat.leb n largest_num_images then (largest_path, largest_num_images)
          else (option_map fst (find (fun c => Nat.eqb (snd c) n) counts), n))
  end.
Proof.
  induction entries as [|[path [|d]] rest IH]; intros lp ln.
  - reflexivity.
  - simpl. apply IH.
  - simpl. unfold pycolmap_Reconstruction at 1 2.
    destruct (dget String.eqb "cameras.bin" d) as [[| ps | |]|];
      try (destruct (dget String.eqb "images.bin" d) as [[| | |]|];
           destruct (dget String.eqb "points3D.bin" d) as [[| | |]|]; reflexivity).
    destruct (dget String.eqb "images.bin" d) as [[c | | |]|];
      try (destruct (dget String.eqb "points3D.bin" d) as [[| | |]|]; reflexivity).
    destruct (dget String.eqb "points3D.bin" d) as [[| | |]|]; try reflexivity.
    cbn [bind num_reg_images].
    destruct (Nat.ltb ln c) eqn:E; rewrite IH;
      (destruct (checkpoint_counts rest) as [counts|]; [|reflexivity]);
      cbv zeta; unfold largest_count; cbn [map snd fold_right find];
      fold (largest_count counts); f_equal.
    + apply Nat.ltb_lt in E.
      destruct (Nat.leb (largest_count counts) c) eqn:E1.
      * apply Nat.leb_le in E1. rewrite (Nat.max_l c _ E1).
        rewrite Nat.eqb_refl.
        destruct (Nat.leb c ln) eqn:E2; [apply Nat.leb_le in E2; lia|reflexivity].
      * apply Nat.leb_gt in E1. rewrite (Nat.max_r c _ (Nat.lt_le_incl _ _ E1)).
        destruct (Nat.leb (largest_count counts) ln) eqn:E2;
          [apply Nat.leb_le in E2; lia|].
        destruct (Nat.eqb c (largest_count counts)) eqn:E3;
          [apply Nat.eqb_eq in E3; lia|reflexivity].
    + apply Nat.ltb_ge in E.
      destruct (Nat.leb (largest_count counts) ln) eqn:E1.
      * apply Nat.leb_le in E1.
        destruct (Nat.leb (Nat.max c (largest_count counts)) ln) eqn:E2;
          [reflexivity|apply Nat.leb_gt in E2; lia].
      * apply Nat.leb_gt in E1.
        rewrite (Nat.max_r c (largest_count counts)) by lia.
        destruct (Nat.leb (largest_count counts) ln) eqn:E2;
          [apply Nat.leb_le in E2; lia|].
        destruct (Nat.eqb c (largest_count counts)) eqn:E3;
          [apply Nat.eqb_eq in E3; lia|reflexivity].
Qed.

Lemma largest_model_checkpoint : forall entries,
  match largest_model entries None 0 with
  | Ok (selected, _) => selected = largest_checkpoint entries
  | Raise _ => largest_checkpoint entries = None
  end.
Proof.
  intros entries. rewrite largest_model_counts. unfold largest_checkpoint.
  destruct (checkpoint_counts entries) as [counts|]; [|reflexivity].
  cbv zeta. destruct (largest_count counts) as [|n]; reflexivity.
Qed.


Lemma promote_files : forall names checkpoint sparse0 promoted,
  promote names checkpoint sparse0 = Ok promoted ->
  forall f, In f names -> dget String.eqb f checkpoint <> None.
Proof.
  induction names as [|name rest IH]; intros ck sp promoted H f Hf; [destruct Hf|].
  simpl in H. destruct (dget String.eqb name ck) as [file|] eqn:E; [|discriminate].
  destruct Hf as [<-|Hf]; [congruence|]. eapply IH; eauto.
Qed.

(** The promoted directory reads as the checkpoint does. *)
Lemma promoted_reads_the_same : forall checkpoint sparse0 promoted,
  promote model_files checkpoint sparse0 = Ok promoted ->
  pycolmap_Reconstruction promoted = pycolmap_Reconstruction checkpoint.
Proof.
  intros ck sp promoted H.
  destruct (promote_spec model_files ck sp (promote_files _ _ _ _ H))
    as [promoted' [Hrun Hget]].
  rewrite H in Hrun. injection Hrun as <-.
  unfold pycolmap_Reconstruction. rewrite !Hget. reflexivity.
Qed.

Lemma unread_without_files : forall d e,
  check_files model_files d = Raise e -> cameras_of d = [].
Proof.
  intros d e H. unfold cameras_of.
  destruct (pycolmap_Reconstruction d) as [r|e'] eqn:Hr; [|reflexivity].
  rewrite (check_files_present model_files d (readable_files d r Hr)) in H.
  discriminate.
Qed.

Lemma unread_unpromoted : forall d sparse0 e,
  promote model_files d sparse0 = Raise e -> cameras_of d = [].
Proof.
  intros d sp e H. unfold cameras_of.
  destruct (pycolmap_Reconstruction d) as [r|e'] eqn:Hr; [|reflexivity].
  destruct (promoted_reads_as_checkpoint d sp r Hr) as [promoted [Hp _]].
  rewrite Hp in H. discriminate.
Qed.

Section Job.
Variables (mean std : list float -> float).

(** The exceptions of the [try] block of a duration carry their message:
    what the handlers see is the timeout of [time_limit], the
    [RuntimeError] of a missing file, the [ValueError] of a model or of a
    reduction, or what the block raised. *)
Lemma attempt_raises : forall timeout env duration acc e acc',
  attempt mean std timeout env duration acc = (Raise e, acc') ->
  exists msg,
    e = TimeoutException msg \/ e = RuntimeError msg \/ e = ValueError msg \/
    exists class_name, e = Error class_name msg.
Proof.
  intros timeout [blk sp mdl el] duration acc e acc'.
  unfold attempt, bindM, lift, time_limit. cbn [block sparse].
  destruct blk as [[]|cause|class_name msg]; cbn [run_block fst]; intros H.
  - destruct (check_files model_files sp) as [[]|e0] eqn:Hc.
    + unfold collect_cameras, bindM, lift, append_out, set_param in H.
      destruct (pycolmap_Reconstruction sp) as [r|e0] eqn:Hr.
      * destruct (mean_std mean std (cameras r)) as [summary|e0] eqn:Hm;
          [discriminate|].
        destruct (mean_std_raises _ _ _ _ Hm) as [msg ->].
        injection H as <- _. exists msg. auto.
      * destruct (pycolmap_raises _ _ Hr) as [msg ->].
        injection H as <- _. exists msg. auto.
    + destruct (check_files_raises _ _ _ Hc) as [msg ->].
      injection H as <- _. exists msg. auto.
  - injection H as <- _. exists "Task timed out". auto.
  - injection H as <- _. exists msg. right. right. right. exists class_name.
    reflexivity.
Qed.

(** The rows a duration appends are the cameras it reads, whether or not
    their reduction then succeeds. *)
Lemma rows_added : forall video_name timeout duration env,
  camera_params_out_duration (added mean std video_name timeout (duration, env))
  = cameras_read env.
Proof.
  intros video_name timeout duration [blk sp mdl el].
  unfold added, cameras_read, selected_checkpoint, empty_acc.
  unfold process_duration, try_except, attempt, bindM, lift, time_limit.
  cbn [block sparse models elapsed_time].
  destruct blk as [[]|cause|class_name msg]; cbn [run_block fst].
  - destruct (check_files model_files sp) as [[]|e] eqn:Hc.
    + unfold collect_cameras, bindM, lift, append_out, set_param, cameras_of.
      destruct (pycolmap_Reconstruction sp) as [r|e] eqn:Hr.
      * cbn [camera_params_out_duration app].
        destruct (mean_std mean std (cameras r)) as [summary|e] eqn:Hm;
          [reflexivity|].
        destruct (mean_std_raises _ _ _ _ Hm) as [msg ->]. reflexivity.
      * destruct (pycolmap_raises _ _ Hr) as [msg ->]. reflexivity.
    + rewrite (unread_without_files sp e Hc).
      destruct (check_files_raises _ _ _ Hc) as [msg ->]. reflexivity.
  - unfold on_timeout, try_except, recover, bindM, lift, raise, print.
    cbn [block sparse models elapsed_time].
    destruct mdl as [entries|]; [|reflexivity].
    pose proof (largest_model_checkpoint entries) as Hsel.
    destruct (largest_model entries None 0) as [[[path|] n]|e] eqn:Hl;
      rewrite <- ?Hsel, ?Hsel.
    + cbn [camera_params camera_params_out_duration error_log stdout].
      destruct (dget String.eqb path entries) as [[|d]|] eqn:Hd;
        [reflexivity| |reflexivity].
      destruct (promote model_files d sp) as [promoted|e] eqn:Hp.
      * unfold collect_cameras, bindM, lift, append_out, set_param, cameras_of.
        rewrite (promoted_reads_the_same d sp promoted Hp).
        destruct (pycolmap_Reconstruction d) as [r|e] eqn:Hr.
        -- cbn [camera_params_out_duration app].
           destruct (mean_std mean std (cameras r)) as [summary|e] eqn:Hm;
             [reflexivity|].
           destruct (mean_std_raises _ _ _ _ Hm) as [msg ->]. reflexivity.
        -- destruct (pycolmap_raises _ _ Hr) as [msg ->]. reflexivity.
      * rewrite (unread_unpromoted d sp e Hp).
        destruct (promote_raises _ _ _ _ Hp) as [msg ->]. reflexivity.
    + reflexivity.
    + rewrite (largest_model_raises _ _ _ _ Hl). reflexivity.
  - reflexivity.
Qed.


(** A recovery whose checkpoint has cameras that cannot be reduced: the
    cameras are in the pool of the video, no summary is stored, and the
    timeout is logged. *)
Lemma unreduced_path : forall video_name timeout duration env acc
    entries path n checkpoint r e,
  timed_out timeout env ->
  models env = Some entries ->
  largest_model entries None 0 = Ok (Some path, n) ->
  dget String.eqb path entries = Some (Directory checkpoint) ->
  pycolmap_Reconstruction checkpoint = Ok r ->
  mean_std mean std (cameras r) = Raise e ->
  process_duration mean std video_name timeout (duration, env) acc =
  (Ok tt, mkAcc (camera_params acc)
            (camera_params_out_duration acc ++ cameras r)%list
            (error_log acc ++ [timeout_line video_name duration env])%list
            (stdout acc ++ [largest_message path n;
                            ("Error processing " ++ video_name ++ " "
                               ++ str duration ++ "s: Timeout")%string])%list).
Proof.
  intros video_name timeout duration env acc entries path n ck r e
    Ht Hm Hl Hd Hr Hs.
  rewrite (timeout_path mean std) by exact Ht.
  destruct (promoted_reads_as_checkpoint ck (sparse env) r Hr)
    as [promoted [Hp [Hr' _]]].
  destruct (mean_std_raises _ _ _ _ Hs) as [msg ->].
  unfold on_timeout, try_except, recover, collect_cameras, bindM, lift, print,
    append_out, set_param, logging_error, timeout_line.
  rewrite Hm, Hl. cbn [stdout camera_params camera_params_out_duration error_log].
  rewrite Hd, Hp, Hr'. cbn [cameras]. rewrite Hs.
  cbn [is_Exception camera_params camera_params_out_duration error_log stdout].
  rewrite <- app_assoc. reflexivity.
Qed.

(** With distinct names in the listing, the selected checkpoint is a
    readable directory of the listing. *)
Lemma selected_is_listed : forall entries path n,
  NoDup (dkeys entries) ->
  largest_model entries None 0 = Ok (Some path, n) ->
  exists d r,
    In (path, Directory d) entries /\
    dget String.eqb path entries = Some (Directory d) /\
    pycolmap_Reconstruction d = Ok r /\ num_reg_images r = n /\ 0 < n /\
    (forall q d', In (q, Directory d') entries -> count_of d' <= n).
Proof.
  intros entries path n Hnd Hl.
  destruct (largest_model_first entries None 0 path n Hl)
    as [[H1 _]|[before [d [after [He [[r Hr] [Hc [Hpos [Hb Ha]]]]]]]]];
    [discriminate|].
  assert (Hin : In (path, Directory d) entries).
  { rewrite He. apply in_or_app. right. left. reflexivity. }
  exists d, r. split; [exact Hin|].
  split; [apply dget_in_nodup; assumption|]. split; [exact Hr|].
  split; [unfold count_of in Hc; rewrite Hr in Hc; exact Hc|].
  split; [exact Hpos|].
  intros q d' Hq. rewrite He in Hq. apply in_app_or in Hq.
  destruct Hq as [Hq|[Hq|Hq]].
  - apply Nat.lt_le_incl. eapply Hb; eauto.
  - injection Hq as _ <-. rewrite Hc. apply le_n.
  - eapply Ha; eauto.
Qed.

(** The pool of a video that writes a result file. *)
Lemma pool_of_result : forall video_name timeout jobs m,
  result_file (process_single_video mean std video_name timeout jobs) = Some m ->
  exists total,
    dget String.eqb "total" m = Some total /\
    mean_std mean std (flat_map (fun job => cameras_read (snd job)) jobs) = Ok total.
Proof.
  intros video_name timeout jobs m H. unfold process_single_video in H.
  destruct (process_durations mean std video_name timeout jobs empty_acc)
    as [[u|e] acc] eqn:Hrun; [|discriminate].
  destruct (process_durations_out mean std video_name timeout jobs empty_acc u acc Hrun)
    as [Hout _].
  simpl in Hout.
  assert (Hpool : flat_map (fun job => camera_params_out_duration
                                         (added mean std video_name timeout job)) jobs
                  = flat_map (fun job => cameras_read (snd job)) jobs).
  { clear. induction jobs as [|[duration env] rest IH]; [reflexivity|].
    simpl. rewrite rows_added, IH. reflexivity. }
  rewrite Hpool in Hout.
  destruct (camera_params_out_duration acc) as [|row rows] eqn:Eout; [discriminate|].
  destruct (mean_std mean std (row :: rows)) as [total|e] eqn:Ems; [|discriminate].
  simpl in H. injection H as <-. exists total. split.
  - apply (dget_dset_same String.eqb String.eqb_eq).
  - rewrite <- Hout. exact Ems.
Qed.


(** A video whose pool cannot be reduced writes no result file. *)
Lemma ragged_pool_no_result : forall video_name timeout jobs e,
  mean_std mean std (flat_map (fun job => cameras_read (snd job)) jobs) = Raise e ->
  result_file (process_single_video mean std video_name timeout jobs) = None.
Proof.
  intros video_name timeout jobs e He.
  destruct (result_file (process_single_video mean std video_name timeout jobs))
    as [m|] eqn:E; [|reflexivity].
  destruct (pool_of_result video_name timeout jobs m E) as [total [_ Ht]].
  rewrite Ht in He. discriminate.
Qed.
End Job.

(** *** The result files during a run *)

Section Collect.
Variable video_basename : string -> string.
Variable outputs : string -> Output.

Definition video_of (step : Step) : string :=
  match step with
  | Ends video_name | Joins video_name => video_name
  end.

(** Whether the process of a video writes a result file. *)
Definition has_result (video_name : string) : bool :=
  match result_file (outputs video_name) with
  | Some _ => true
  | None => false
  end.

(** The result files after the steps of a history. *)
Definition files_after (history : list Step) (files : ResultFiles) : ResultFiles :=
  fold_left (fun fs step =>
               match step with
               | Ends video_name => save_result video_basename outputs video_name fs
               | Joins _ => fs
               end) history files.

Lemma collect_acc : forall history files acc,
  collect video_basename outputs history files acc
  = (acc ++ collect video_basename outputs history files [])%list.
Proof.
  induction history as [|[v|v] rest IH]; intros files acc; simpl.
  - rewrite app_nil_r. reflexivity.
  - apply IH.
  - rewrite IH.
    rewrite (IH files (collect_result video_basename v files [])).
    unfold collect_result.
    destruct (dget String.eqb (video_basename v) files) as [result|];
      [rewrite <- app_assoc|]; reflexivity.
Qed.

Lemma collect_app : forall h1 h2 files acc,
  collect video_basename outputs (h1 ++ h2) files acc
  = collect video_basename outputs h2 (files_after h1 files)
      (collect video_basename outputs h1 files acc).
Proof.
  induction h1 as [|[v|v] rest IH]; intros h2 files acc; simpl;
    [reflexivity|apply IH|apply IH].
Qed.

Lemma saved_file : forall v files b m,
  dget String.eqb b (save_result video_basename outputs v files) = Some m ->
  dget String.eqb b files = Some m \/
  (video_basename v = b /\ result_file (outputs v) = Some m).
Proof.
  intros v files b m H. unfold save_result in H.
  destruct (result_file (outputs v)) as [result|] eqn:E; [|left; exact H].
  rewrite (dget_dset String.eqb String.eqb_eq) in H.
  destruct (String.eqb (video_basename v) b) eqn:Eb.
  - right. apply String.eqb_eq in Eb. split; [exact Eb|congruence].
  - left. exact H.
Qed.

(** Every collected row is the file of a joined video, as an earlier run
    left it or as a process of this run wrote it. *)
Lemma collect_rows : forall history files acc b m,
  In (b, m) (collect video_basename outputs history files acc) ->
  In (b, m) acc \/
  (exists v, In (Joins v) history /\ b = video_basename v) /\
  (dget String.eqb b files = Some m \/
   exists w, In (Ends w) history /\ video_basename w = b /\
             result_file (outputs w) = Some m).
Proof.
  induction history as [|[v|v] rest IH]; intros files acc b m H; simpl in H.
  - left. exact H.
  - destruct (IH _ _ _ _ H) as [Hin|[[j [Hj Hb]] Hfile]]; [left; exact Hin|].
    right. split; [exists j; split; [right; exact Hj|exact Hb]|].
    destruct Hfile as [Hg|[w [Hw [Hbw Hr]]]].
    + destruct (saved_file v files b m Hg) as [Hold|[Hbv Hr]]; [left; exact Hold|].
      right. exists v. split; [left; reflexivity|]. split; assumption.
    + right. exists w. split; [right; exact Hw|]. split; assumption.
  - destruct (IH _ _ _ _ H) as [Hin|[[j [Hj Hb]] Hfile]].
    + unfold collect_result in Hin.
      destruct (dget String.eqb (video_basename v) files) as [result|] eqn:Eg;
        [|left; exact Hin].
      apply in_app_or in Hin. destruct Hin as [Hin|[Heq|[]]]; [left; exact Hin|].
      injection Heq as <- <-. right.
      split; [exists v; split; [left; reflexivity|reflexivity]|]. left. exact Eg.
    + right. split; [exists j; split; [right; exact Hj|exact Hb]|].
      destruct Hfile as [Hg|[w [Hw [Hbw Hr]]]]; [left; exact Hg|].
      right. exists w. split; [right; exact Hw|]. split; assumption.
Qed.

(** The steps of the videos without a result change nothing, when no file
    of their basename is there and no video of their basename writes one. *)
Lemma collect_without : forall history files acc,
  (forall v, In (Joins v) history -> has_result v = false ->
     dget String.eqb (video_basename v) files = None /\
     forall w, In (Ends w) history -> video_basename w = video_basename v ->
               has_result w = false) ->
  collect video_basename outputs history files acc
  = collect video_basename outputs
      (filter (fun step => has_result (video_of step)) history) files acc.
Proof.
  induction history as [|[v|v] rest IH]; intros files acc H; [reflexivity| |].
  - cbn [filter collect video_of]. destruct (has_result v) eqn:Ev.
    + cbn [collect]. apply IH.
      intros j Hj Hnone. destruct (H j (or_intror Hj) Hnone) as [Hg Hw]. split.
      * unfold save_result.
        destruct (result_file (outputs v)) as [result|]; [|exact Hg].
        rewrite (dget_dset_other String.eqb String.eqb_eq); [exact Hg|].
        intros Heq. specialize (Hw v (or_introl eq_refl) Heq). congruence.
      * intros w Hin. apply Hw. right. exact Hin.
    + assert (Hs : save_result video_basename outputs v files = files).
      { unfold save_result. unfold has_result in Ev.
        destruct (result_file (outputs v)); [discriminate|reflexivity]. }
      rewrite Hs. apply IH.
      intros j Hj Hnone. destruct (H j (or_intror Hj) Hnone) as [Hg Hw].
      split; [exact Hg|]. intros w Hin. apply Hw. right. exact Hin.
  - assert (Hrest : forall j, In (Joins j) rest -> has_result j = false ->
              dget String.eqb (video_basename j) files = None /\
              forall w, In (Ends w) rest -> video_basename w = video_basename j ->
                        has_result w = false).
    { intros j Hj Hnone. destruct (H j (or_intror Hj) Hnone) as [Hg Hw].
      split; [exact Hg|]. intros w Hin. apply Hw. right. exact Hin. }
    cbn [filter collect video_of]. destruct (has_result v) eqn:E.
    + cbn [collect]. apply IH. exact Hrest.
    + destruct (H v (or_introl eq_refl) E) as [Hg _].
      unfold collect_result. rewrite Hg. apply IH. exact Hrest.
Qed.

(** The rows collected after a point have the basenames of the videos
    joined after it. *)
Lemma collect_names : forall history files b m,
  In (b, m) (collect video_basename outputs history files []) ->
  exists v, In (Joins v) history /\ b = video_basename v.
Proof.
  intros history files b m H.
  destruct (collect_rows history files [] b m H) as [[]|[Hj _]]. exact Hj.
Qed.

(** The row of a basename is its file as the last join of the basename
    finds it. *)
Lemma last_join_row : forall before v after files m,
  (forall w, In (Joins w) after -> video_basename w <> video_basename v) ->
  dget String.eqb (video_basename v) (files_after before files) = Some m ->
  m <> [] ->
  dget String.eqb (video_basename v)
    (all_camera_params
       (all_results video_basename outputs (before ++ Joins v :: after) files))
  = Some m.
Proof.
  intros before v after files m Hafter Hfile Hne.
  unfold all_results. rewrite collect_app. simpl.
  unfold collect_result at 1. rewrite Hfile.
  rewrite collect_acc. rewrite all_camera_params_fold, fold_left_app.
  rewrite fold_keep_other.
  - rewrite fold_left_app. simpl. destruct m as [|kv m']; [congruence|].
    apply (dget_dset_same String.eqb String.eqb_eq).
  - intros name camera Hin Hname. exfalso.
    destruct (collect_names _ _ _ _ Hin) as [w [Hw Hb]].
    apply (Hafter w Hw). congruence.
Qed.

(** The file of a basename is the result written last. *)
Lemma file_written_last : forall h1 w h2 files m,
  result_file (outputs w) = Some m ->
  (forall w', In (Ends w') h2 -> video_basename w' = video_basename w ->
              result_file (outputs w') = None) ->
  dget String.eqb (video_basename w) (files_after (h1 ++ Ends w :: h2) files)
  = Some m.
Proof.
  intros h1 w h2 files m Hm Hlater. unfold files_after.
  rewrite fold_left_app. simpl.
  set (fs := fold_left _ h1 files). unfold save_result at 2. rewrite Hm.
  assert (Hnow : dget String.eqb (video_basename w)
                   (dset String.eqb (video_basename w) m fs) = Some m)
    by apply (dget_dset_same String.eqb String.eqb_eq).
  revert Hnow. generalize (dset String.eqb (video_basename w) m fs).
  induction h2 as [|[v|v] rest IH]; intros fs' Hnow; simpl; [exact Hnow| |].
  - apply IH.
    + intros w' Hin. apply Hlater. right. exact Hin.
    + unfold save_result. destruct (result_file (outputs v)) as [result|] eqn:E;
        [|exact Hnow].
      rewrite (dget_dset_other String.eqb String.eqb_eq); [exact Hnow|].
      intros Heq. rewrite (Hlater v (or_introl eq_refl) Heq) in E. discriminate.
  - apply IH; [|exact Hnow]. intros w' Hin. apply Hlater. right. exact Hin.
Qed.

End Collect.

Import Scheduler SchedulerFacts.


End ResultFacts.

(** * The specified properties *)

Import CameraStats CameraStatsFacts VideoCut Scheduler SchedulerFacts Report.
Unset Implicit Arguments.
Local Open Scope string_scope.

(** C1. For every number of GPUs other than zero, every video list and
    every behaviour of [is_alive]: the videos are split into one group per
    GPU and every video is in exactly one group; at every moment of every
    run, however long it is followed, no GPU has more than four processes
    in flight; the videos started on a GPU are a prefix of its group, in
    the group's order, and while videos of the group still wait four
    processes are in flight; and when no process lives for ever the loop
    stops, with every group started in full, in order, every started
    process joined once and nothing left in flight. *)
Theorem schedule_runs_each_job_once :
  forall (is_alive : nat -> Process -> bool) (num_gpus : nat) (video_list : list string),
    num_gpus <> 0 ->
    exists groups,
      gpu_video_groups num_gpus video_list = Ok groups /\
      List.length groups = num_gpus /\
      Permutation (List.concat groups) video_list /\
      (forall fuel, exists gpus sh stopped,
         schedule is_alive fuel num_gpus video_list = Ok (gpus, sh, stopped) /\
         always_within (trace sh) /\
         forall gpu_id, exists waiting,
           (started gpu_id (trace sh) ++ waiting)%list = nth gpu_id groups [] /\
           (waiting <> [] -> in_flight gpu_id (trace sh) = processes_per_gpu)) /\
      (forall lifetime,
         (forall t p, started_at p + lifetime <= t -> is_alive t p = false) ->
         exists fuel gpus sh,
           schedule is_alive fuel num_gpus video_list = Ok (gpus, sh, true) /\
           always_within (trace sh) /\
           forall gpu_id,
             started gpu_id (trace sh) = nth gpu_id groups [] /\
             Permutation (joined gpu_id (trace sh)) (nth gpu_id groups []) /\
             in_flight gpu_id (trace sh) = 0).
Proof.
  intros is_alive num_gpus video_list Hn.
  destruct (group_videos_ok num_gpus video_list 0 (repeat [] num_gpus) Hn
              (repeat_length _ _)) as [groups [Hg [Hlen Hperm]]].
  rewrite concat_repeat_nil in Hperm. simpl in Hperm.
  exists groups. split; [exact Hg|]. split; [exact Hlen|]. split; [exact Hperm|].
  split.
  - intros fuel.
    destruct (schedule_inv is_alive fuel num_gpus video_list groups Hg)
      as [gpus [sh [stopped [Hrun [HS [_ Hother]]]]]].
    exists gpus, sh, stopped. split; [exact Hrun|]. split; [apply HS|].
    intros gpu_id.
    destruct (per_gpu gpus groups sh gpu_id HS Hother)
      as [waiting [running [A [B [_ [_ [E _]]]]]]].
    exists waiting. split; [exact A|]. intros Hw. rewrite B. now apply E.
  - intros lifetime Hend.
    destruct (schedule_stops is_alive lifetime num_gpus video_list groups Hend Hg)
      as [fuel [gpus [sh Hrun]]].
    destruct (schedule_inv is_alive fuel num_gpus video_list groups Hg)
      as [gpus' [sh' [stopped' [Hrun' [HS [Hidle Hother]]]]]].
    rewrite Hrun in Hrun'. inversion Hrun'; subst gpus' sh' stopped'.
    exists fuel, gpus, sh. split; [exact Hrun|]. split; [apply HS|].
    intros gpu_id.
    destruct (per_gpu gpus groups sh gpu_id HS Hother)
      as [waiting [running [A [B [_ [D [_ F]]]]]]].
    destruct (F (Hidle eq_refl)) as [Hw Hr]. subst waiting running.
    rewrite app_nil_r in A, D. simpl in B.
    split; [exact A|]. split; [|exact B]. rewrite <- A. exact D.
Qed.

(** Two GPUs, five videos, processes that live for three looks of the
    loop. *)
Lemma schedule_runs_each_job_once_witness :
  2 <> 0 /\
  exists groups,
    gpu_video_groups 2 ["a"; "b"; "c"; "d"; "e"] = Ok groups /\
    List.length groups = 2.
Proof.
  split; [discriminate|].
  destruct (schedule_runs_each_job_once
              (fun t p => Nat.ltb t (started_at p + 3)) 2 ["a"; "b"; "c"; "d"; "e"])
    as [groups [Hg [Hlen _]]]; [discriminate|].
  exists groups. split; [exact Hg | exact Hlen].
Defined.

(** The video is listed with [x] in bucket [k] of the duration, and in no
    other bucket of the duration. *)
Definition listed_only (detailed : dict string listing) (d video_name : string)
  (k : key) (x : detail) : Prop :=
  (exists bucket, entry_of detailed d k = Some bucket /\ In (video_name, x) bucket) /\
  (forall k' x' bucket', In k' all_keys ->
     entry_of detailed d k' = Some bucket' ->
     In (video_name, x') bucket' -> k' = k /\ x' = x).

(** C2, as the code has it. For every aggregate with one row per video,
    every duration of the list and every video of the aggregate: a video
    with a summary for the duration is listed in the bucket of the first
    threshold of 10, 100, 1000, +inf that strictly exceeds the absolute
    value of the designated field, and in no other bucket; a video with no
    summary for the duration is listed in the 'failed' bucket, and in no
    other; a bucket lists nothing else; and the recall of a bucket is the
    length of its listing divided by the number of videos of the aggregate
    (times the number of times the duration is in the list). A value equal
    to a finite threshold is not below it: it goes to the bucket of the
    next threshold (10 to "< 100", 100 to "< 1000", 1000 to "< inf"). *)
Theorem magnitude_buckets_and_recall :
  forall (camera_stats : CameraDict) (durations : list string) (param_index : nat),
    NoDup (dkeys camera_stats) ->
    (forall video_name camera d, In (video_name, camera) camera_stats ->
       In d durations -> indexable param_index camera d) ->
    exists recall detailed,
      analyze_camera_stats_magnitude camera_stats durations param_index
        = Ok (recall, detailed) /\
      (forall d video_name camera,
         In d durations -> In (video_name, camera) camera_stats ->
         match dget String.eqb d camera with
         | None => listed_only detailed d video_name KFailed DFailed
         | Some summary =>
             forall v m, nth_error summary param_index = Some v ->
               find (lt_mag (abs v)) magnitudes = Some m ->
               listed_only detailed d video_name (KMag m) (DValue (abs v))
         end) /\
      (forall d k, In d durations -> In k all_keys ->
         exists bucket,
           entry_of detailed d k = Some bucket /\
           (forall video_name x, In (video_name, x) bucket ->
              exists camera, In (video_name, camera) camera_stats /\
                             placement param_index camera d = Ok (Some (k, x))) /\
           (camera_stats <> [] ->
            exists rates,
              dget String.eqb d recall = Some rates /\
              dget key_eqb k rates =
              Some (ratio (List.length bucket)
                      (List.length camera_stats * count_occ string_dec durations d)))) /\
      find (lt_mag (abs (to_float (MInt 10)))) magnitudes = Some (MInt 100) /\
      find (lt_mag (abs (to_float (MInt 100)))) magnitudes = Some (MInt 1000) /\
      find (lt_mag (abs (to_float (MInt 1000)))) magnitudes = Some MInf.
Proof.
  intros cs ds pi Hnd Hidx.
  destruct (@analyze_spec cs ds pi Hidx) as [recall [detailed [Hrun [Hent Hrec]]]].
  exists recall, detailed. split; [exact Hrun|]. split; [|split].
  - intros d v cam Hd Hin.
    assert (Hev : In (v, cam, d) (events cs ds)) by (apply in_events; auto).
    assert (Hlisted : forall k x, In k all_keys ->
              placement pi cam d = Ok (Some (k, x)) -> listed_only detailed d v k x).
    { intros k x Hk Hp. split.
      - exists (hits pi d k (events cs ds)). split; [apply Hent; auto|].
        apply in_hits. eauto.
      - intros k' x' bucket' Hk' Hb' Hin'.
        rewrite (Hent d k' Hd Hk') in Hb'. inversion Hb'; subst bucket'.
        apply in_hits in Hin'. destruct Hin' as [cam' [Hev' Hp']].
        apply in_events in Hev'. destruct Hev' as [Hin'' _].
        rewrite (@unique_row _ cs v cam' cam Hnd Hin'' Hin) in Hp'.
        rewrite Hp in Hp'. inversion Hp'. auto. }
    destruct (dget String.eqb d cam) as [summary|] eqn:Hget.
    + intros v0 m Hv0 Hf. apply Hlisted.
      * apply magnitudes_in_keys. eapply find_some_in; eauto.
      * unfold placement. now rewrite Hget, Hv0, Hf.
    + apply Hlisted; [apply failed_in_keys|].
      unfold placement. now rewrite Hget.
  - intros d k Hd Hk. exists (hits pi d k (events cs ds)).
    split; [apply Hent; auto|]. split.
    + intros v x Hin. apply in_hits in Hin. destruct Hin as [cam [Hev Hp]].
      apply in_events in Hev. exists cam. tauto.
    + intros Hne. rewrite (Hrec d Hd), visits_events.
      assert (Hpos : 0 < List.length cs * count_occ string_dec ds d).
      { apply Nat.mul_pos_pos.
        - destruct cs; [congruence|simpl; lia].
        - apply count_occ_In. exact Hd. }
      apply Nat.ltb_lt in Hpos. rewrite Hpos.
      eexists. split; [reflexivity|].
      apply (@dget_map_keys _ (fun k0 => ratio (List.length (hits pi d k0 (events cs ds)))
                                      (List.length cs * count_occ string_dec ds d))).
      exact Hk.
  - repeat split; reflexivity.
Qed.

Import VideoCutFacts JobFacts ResultFacts.

Definition sample_stats : CameraDict :=
  [("A", [("30", [0; 0; 0; 0; 5]%float); ("60", [0; 0; 0; 0; 50]%float)]);
   ("B", [("60", [0; 0; 0; 0; 8]%float)])].

Lemma magnitude_buckets_and_recall_witness :
  NoDup (dkeys sample_stats) /\
  exists recall detailed,
    analyze_camera_stats_magnitude sample_stats ["30"; "60"] 4 = Ok (recall, detailed).
Proof.
  assert (Hnd : NoDup (dkeys sample_stats)).
  { unfold sample_stats. simpl. repeat constructor; simpl; intuition discriminate. }
  split; [exact Hnd|].
  destruct (magnitude_buckets_and_recall sample_stats ["30"; "60"] 4 Hnd)
    as [recall [detailed [Hrun _]]].
  - intros video_name camera d Hin Hd summary Hs.
    unfold sample_stats in Hin. simpl in Hin, Hd.
    destruct Hin as [Hin|[Hin|[]]]; inversion Hin; subst;
      destruct Hd as [Hd|[Hd|[]]]; subst; simpl in Hs;
      try discriminate; inversion Hs; subst; simpl; lia.
  - exists recall, detailed. exact Hrun.
Defined.

(** C2 as stated fails: the value 10 equals the first threshold, and the
    video is not listed below it (bucket "< 10", recall 0) but in the next
    bucket ("< 100", recall 1). *)
Lemma tie_lands_in_the_next_bucket :
  analyze_camera_stats_magnitude [("A", [("30", [0; 0; 0; 0; 10]%float)])] ["30"] 4 =
  Ok ([("30", [(KMag (MInt 10), Qmake 0 1); (KMag (MInt 100), Qmake 1 1);
               (KMag (MInt 1000), Qmake 0 1); (KMag MInf, Qmake 0 1);
               (KFailed, Qmake 0 1)])],
      [("30", [(KMag (MInt 10), []); (KMag (MInt 100), [("A", DValue 10%float)]);
               (KMag (MInt 1000), []); (KMag MInf, []); (KFailed, [])])]).
Proof. vm_compute. reflexivity. Qed.

(** C3 at a failing input: one video whose designated field is NaN (or an
    infinity) for the duration. It is counted in the total, no threshold,
    not even +inf, is above its absolute value, so it is in no bucket, not
    in 'failed' either, and the recalls of the duration sum to 0, not 1. *)
Theorem nan_field_is_counted_in_no_bucket :
  analyze_camera_stats_magnitude [("A", [("30", [0; 0; 0; 0; nan]%float)])] ["30"] 4 =
  Ok ([("30", [(KMag (MInt 10), Qmake 0 1); (KMag (MInt 100), Qmake 0 1);
               (KMag (MInt 1000), Qmake 0 1); (KMag MInf, Qmake 0 1);
               (KFailed, Qmake 0 1)])],
      [("30", [(KMag (MInt 10), []); (KMag (MInt 100), []);
               (KMag (MInt 1000), []); (KMag MInf, []); (KFailed, [])])]) /\
  analyze_camera_stats_magnitude [("A", [("30", [0; 0; 0; 0; infinity]%float)])]
    ["30"] 4 =
  analyze_camera_stats_magnitude [("A", [("30", [0; 0; 0; 0; nan]%float)])] ["30"] 4 /\
  Qeq (recall_sum [(KMag (MInt 10), Qmake 0 1); (KMag (MInt 100), Qmake 0 1);
                   (KMag (MInt 1000), Qmake 0 1); (KMag MInf, Qmake 0 1);
                   (KFailed, Qmake 0 1)]) (Qmake 0 1).
Proof. split; [|split]; vm_compute; reflexivity. Qed.

(** C10. Whatever raised it, the timer or a user before the deadline, a
    [KeyboardInterrupt] in the guarded block leaves [time_limit] as
    [TimeoutException("Task timed out")]; the timer is started once and
    cancelled once on every exit path, normal, interrupted or failed; and
    [process_single_video] answers an interrupted block with the handler
    of [TimeoutException], which is the recovery. *)
Theorem time_limit_reports_every_interrupt_as_timeout :
  forall (mean std : list float -> float) (A : Type) (seconds : nat) (body : Block A),
    snd (time_limit seconds body) = [TimerStart seconds; TimerCancel] /\
    (forall cause, fst (time_limit seconds (@Interrupted A cause))
                   = Raise (TimeoutException "Task timed out")) /\
    (run_block body = Raise KeyboardInterrupt ->
     fst (time_limit seconds body) = Raise (TimeoutException "Task timed out")) /\
    (forall a : A, fst (time_limit seconds (Completes a)) = Ok a) /\
    (forall video_name timeout duration env acc cause,
       block env = Interrupted cause ->
       process_duration mean std video_name timeout (duration, env) acc =
       on_timeout mean std video_name env duration acc).
Proof.
  intros mean std A seconds body. split; [reflexivity|]. split; [reflexivity|].
  split; [|split].
  - intros H. unfold time_limit. simpl. rewrite H. reflexivity.
  - reflexivity.
  - intros video_name timeout duration env acc cause Hb.
    apply timeout_path. unfold timed_out. rewrite Hb. simpl. eauto.
Qed.

(** Three checkpoints with 3, 7 and 5 registered images, and a stray file. *)
Definition checkpoint (n : nat) (params : list (list float)) : Node :=
  Directory [("images.bin", ImagesBin n); ("cameras.bin", CamerasBin params);
             ("points3D.bin", Points3DBin)].

Definition three_checkpoints : dict string Node :=
  [("0", checkpoint 3 [[1; 2; 3; 4]%float]);
   ("1", checkpoint 7 [[5; 6; 7; 8]%float]);
   ("2", checkpoint 5 [[9; 10; 11; 12]%float]);
   ("notes.txt", RegularFile)].

Definition timed_out_job : JobEnv :=
  {| block := Interrupted FromTimer; sparse := [("cameras.bin", Unreadable)];
     models := Some three_checkpoints; elapsed_time := 3600 |}.

(** C5, as the code has it. When the deadline of a job has expired and the
    [models] directory lists checkpoints that can all be read, one of them
    with a registered image: the recovery selects the checkpoint whose
    count of registered images is the largest of all, the first listed
    among equals, puts its three files in the place of those of the sparse
    directory, and the job goes on with them: it adds the cameras of the checkpoint to the rows of the video
    and stores their summary under the key of the duration, or logs its
    timeout when they have no summary. When there is no [models]
    directory, when one of its directories cannot be read, or when none of
    them has a registered image (there may be none at all), nothing is
    promoted: the job stores no summary, adds no camera and logs its
    timeout. *)
Theorem recovery_promotes_the_largest_checkpoint :
  forall (mean std : list float -> float) (video_name : string)
         (timeout duration : nat) (env : JobEnv) (acc : Acc),
    timed_out timeout env ->
    let notice := ("Error processing " ++ video_name ++ " " ++ str duration
                     ++ "s: Timeout")%string in
    (forall entries,
       models env = Some entries -> NoDup (dkeys entries) ->
       (forall path d, In (path, Directory d) entries -> readable d) ->
       (exists path d, In (path, Directory d) entries /\ 0 < count_of d) ->
       exists path d r promoted,
         largest_model entries None 0 = Ok (Some path, num_reg_images r) /\
         In (path, Directory d) entries /\
         pycolmap_Reconstruction d = Ok r /\
         (forall path' d', In (path', Directory d') entries ->
            count_of d' <= num_reg_images r) /\
         (exists before after,
            entries = (before ++ (path, Directory d) :: after)%list /\
            forall path' d', In (path', Directory d') before ->
              count_of d' < num_reg_images r) /\
         promote model_files d (sparse env) = Ok promoted /\
         (forall f, In f model_files ->
            dget String.eqb f promoted = dget String.eqb f d) /\
         pycolmap_Reconstruction promoted = Ok r /\
         process_duration mean std video_name timeout (duration, env) acc =
         (Ok tt,
          match mean_std mean std (cameras r) with
          | Ok summary =>
              mkAcc (dset String.eqb (str duration) summary (camera_params acc))
                (camera_params_out_duration acc ++ cameras r)%list
                (error_log acc)
                (stdout acc ++ [largest_message path (num_reg_images r)])%list
          | Raise _ =>
              mkAcc (camera_params acc)
                (camera_params_out_duration acc ++ cameras r)%list
                (error_log acc ++ [timeout_line video_name duration env])%list
                (stdout acc ++ [largest_message path (num_reg_images r); notice])%list
          end)) /\
    ((models env = None \/
      exists entries,
        models env = Some entries /\
        ((exists path d, In (path, Directory d) entries /\ ~ readable d) \/
         (forall path d, In (path, Directory d) entries ->
            readable d /\ count_of d = 0))) ->
     process_duration mean std video_name timeout (duration, env) acc =
     (Ok tt, mkAcc (camera_params acc) (camera_params_out_duration acc)
               (error_log acc ++ [timeout_line video_name duration env])%list
               (stdout acc ++ [notice])%list)).
Proof.
  intros mean std video_name timeout duration env acc Ht notice. split.
  - intros entries Hm Hnd Hread [p0 [d0 [Hin0 Hpos]]].
    destruct (largest_model_spec entries None 0 Hread)
      as [path' [n [Hl [_ [Hmax Hsel]]]]].
    destruct Hsel as [[Hp Hn]|[path [d0' [Hp _]]]].
    { subst. specialize (Hmax p0 d0 Hin0). lia. }
    subst path'.
    destruct (largest_model_first entries None 0 path n Hl)
      as [[Hp _]|[before [d [after [He [[r Hr] [Hc [_ [Hb _]]]]]]]]]; [discriminate|].
    assert (Hin : In (path, Directory d) entries).
    { rewrite He. apply in_or_app. right. left. reflexivity. }
    assert (Hn : n = num_reg_images r).
    { unfold count_of in Hc. rewrite Hr in Hc. congruence. }
    clear Hc. subst n.
    destruct (promoted_reads_as_checkpoint d (sparse env) r Hr)
      as [promoted [Hpr [Hr' Hfiles]]].
    exists path, d, r, promoted.
    split; [exact Hl|]. split; [exact Hin|]. split; [exact Hr|].
    split; [exact Hmax|].
    split; [exists before, after; split; [exact He|exact Hb]|].
    split; [exact Hpr|]. split; [exact Hfiles|].
    split; [exact Hr'|].
    pose proof (dget_in_nodup _ entries path (Directory d) Hnd Hin) as Hd.
    destruct (mean_std mean std (cameras r)) as [summary|e] eqn:Hs.
    + apply (recovered_path mean std video_name timeout duration env acc
               entries path (num_reg_images r) d r summary Ht Hm Hl Hd Hr Hs).
    + apply (unreduced_path mean std video_name timeout duration env acc
               entries path (num_reg_images r) d r e Ht Hm Hl Hd Hr Hs).
  - intros Hnone. apply failed_path; [exact Ht|].
    unfold no_checkpoint.
    destruct Hnone as [Hm|[entries [Hm Hbad]]]; rewrite Hm; [exact I|].
    destruct Hbad as [[path [d [Hin Hbad]]]|Hzero].
    + destruct (largest_model_unreadable entries None 0 path d Hin) as [e He].
      * intros r Hr. apply Hbad. exists r. exact Hr.
      * rewrite He. exact I.
    + destruct (largest_model_spec entries None 0
                  (fun path d Hin => proj1 (Hzero path d Hin)))
        as [path' [n [Hl [_ [_ Hsel]]]]].
      rewrite Hl.
      destruct Hsel as [[-> _]|[path [d [_ [Hin [Hc Hlt]]]]]]; [exact I|].
      destruct (Hzero path d Hin) as [_ Hz]. lia.
Qed.

(** With the counts 3, 7 and 5, the checkpoint with 7 is the one promoted,
    and the job stores the summary of its camera. *)
Lemma recovery_promotes_the_largest_checkpoint_witness :
  timed_out 3600 timed_out_job /\
  exists d promoted,
    largest_model three_checkpoints None 0 = Ok (Some "1", 7) /\
    In ("1", Directory d) three_checkpoints /\
    promote model_files d (sparse timed_out_job) = Ok promoted /\
    camera_params_out_duration
      (snd (process_duration Sample.mean Sample.std "video" 3600
              (30, timed_out_job) empty_acc)) = [[5; 6; 7; 8]%float].
Proof.
  assert (Ht : timed_out 3600 timed_out_job).
  { exists "Task timed out". reflexivity. }
  split; [exact Ht|].
  destruct (recovery_promotes_the_largest_checkpoint Sample.mean Sample.std "video"
              3600 30 timed_out_job empty_acc Ht) as [Hsel _].
  destruct (Hsel three_checkpoints eq_refl) as [path [d [r [promoted H]]]].
  - unfold three_checkpoints. simpl. repeat constructor; simpl; intuition discriminate.
  - intros path d Hin. unfold three_checkpoints in Hin. simpl in Hin.
    destruct Hin as [Hin|[Hin|[Hin|[Hin|[]]]]]; inversion Hin; subst;
      eexists; reflexivity.
  - exists "1". eexists. split; [right; left; reflexivity|]. vm_compute. lia.
  - destruct H as [Hl [Hin [_ [_ [_ [Hp _]]]]]].
    assert (E : largest_model three_checkpoints None 0 = Ok (Some "1", 7))
      by reflexivity.
    rewrite E in Hl. injection Hl as <- _.
    exists d, promoted. split; [exact E|]. split; [exact Hin|].
    split; [exact Hp|]. vm_compute. reflexivity.
Defined.

(** A checkpoint with 9 registered images beside a directory that cannot
    be read, and a lone checkpoint without registered image. *)
Definition mixed_checkpoints_job : JobEnv :=
  {| block := Interrupted FromTimer; sparse := [];
     models := Some [("0", checkpoint 9 [[1; 2; 3; 4]%float]);
                     ("1", Directory [("images.bin", Unreadable)])];
     elapsed_time := 3600 |}.

Definition unregistered_checkpoint_job : JobEnv :=
  {| block := Interrupted FromTimer; sparse := [];
     models := Some [("0", checkpoint 0 [[1; 2; 3; 4]%float])];
     elapsed_time := 3600 |}.

(** C5 as stated fails: the checkpoint with the largest count is not
    promoted when another directory of [models] cannot be read, nor when
    its count is 0; the job stores nothing and logs its timeout, although
    a checkpoint exists. *)
Lemma checkpoint_is_lost_beside_an_unreadable_one :
  process_duration Sample.mean Sample.std "video" 3600 (30, mixed_checkpoints_job)
    empty_acc
  = (Ok tt, mkAcc [] [] ["video 30s: Timeout after 3600 seconds"]
              ["Error processing video 30s: Timeout"]) /\
  process_duration Sample.mean Sample.std "video" 3600
    (30, unregistered_checkpoint_job) empty_acc
  = (Ok tt, mkAcc [] [] ["video 30s: Timeout after 3600 seconds"]
              ["Error processing video 30s: Timeout"]) /\
  result_file (process_single_video Sample.mean Sample.std "video" 3600
                 [(30, mixed_checkpoints_job)]) = None.
Proof. repeat split; vm_compute; reflexivity. Qed.

(** The job a success would be if the sparse directory held the files of
    the checkpoint [d]. *)
Definition success_on (d : Dir) (env : JobEnv) : JobEnv :=
  {| block := Completes tt; sparse := d; models := models env;
     elapsed_time := elapsed_time env |}.

(** C6, as the code has it. A job whose deadline expired and whose
    recovery selects a readable checkpoint with a summary stores, under
    the key of its duration, the summary of the cameras parsed from the
    checkpoint's files, and adds these cameras to the rows of the total:
    what a success on the same files stores. Nothing marks it as
    recovered in what reaches the reports: it logs nothing, and replacing
    it by that success changes neither the result file of the video nor
    its log; only the "Largest model" line on standard output tells them
    apart. *)
Theorem recovered_job_stores_what_a_success_would :
  forall (mean std : list float -> float) (video_name : string)
         (timeout duration : nat) (env : JobEnv)
         (entries : dict string Node) (path : string) (n : nat)
         (d : Dir) (r : Reconstruction) (summary : list float),
    timed_out timeout env ->
    models env = Some entries ->
    largest_model entries None 0 = Ok (Some path, n) ->
    dget String.eqb path entries = Some (Directory d) ->
    pycolmap_Reconstruction d = Ok r ->
    mean_std mean std (cameras r) = Ok summary ->
    (forall acc,
       process_duration mean std video_name timeout (duration, env) acc =
       (Ok tt, mkAcc (dset String.eqb (str duration) summary (camera_params acc))
                 (camera_params_out_duration acc ++ cameras r)%list
                 (error_log acc)
                 (stdout acc ++ [largest_message path n])%list) /\
       process_duration mean std video_name timeout (duration, success_on d env) acc =
       (Ok tt, mkAcc (dset String.eqb (str duration) summary (camera_params acc))
                 (camera_params_out_duration acc ++ cameras r)%list
                 (error_log acc) (stdout acc))) /\
    (forall before after,
       let recovered := process_single_video mean std video_name timeout
                          (before ++ (duration, env) :: after)%list in
       let succeeded := process_single_video mean std video_name timeout
                          (before ++ (duration, success_on d env) :: after)%list in
       result_file recovered = result_file succeeded /\
       logged recovered = logged succeeded /\
       uncaught recovered = uncaught succeeded).
Proof.
  intros mean std video_name timeout duration env entries path n d r summary
    Ht Hm Hl Hd Hr Hs.
  assert (Hboth : forall acc,
    process_duration mean std video_name timeout (duration, env) acc =
    (Ok tt, mkAcc (dset String.eqb (str duration) summary (camera_params acc))
              (camera_params_out_duration acc ++ cameras r)%list
              (error_log acc)
              (stdout acc ++ [largest_message path n])%list) /\
    process_duration mean std video_name timeout (duration, success_on d env) acc =
    (Ok tt, mkAcc (dset String.eqb (str duration) summary (camera_params acc))
              (camera_params_out_duration acc ++ cameras r)%list
              (error_log acc) (stdout acc))).
  { intros acc. split.
    - eapply recovered_path; eauto.
    - apply (success_path mean std video_name timeout duration (success_on d env)
               acc r summary); auto.
      apply (check_files_present model_files d (readable_files d r Hr)). }
  split; [exact Hboth|].
  intros before after. apply interchangeable_jobs.
  intros acc. destruct (Hboth acc) as [H1 H2]. rewrite H1, H2. simpl.
  split; [reflexivity|]. repeat split.
Qed.

Definition succeeded_job : JobEnv :=
  {| block := Completes tt;
     sparse := [("images.bin", ImagesBin 7);
                ("cameras.bin", CamerasBin [[5; 6; 7; 8]%float]);
                ("points3D.bin", Points3DBin)];
     models := None; elapsed_time := 40 |}.

Lemma recovered_job_stores_what_a_success_would_witness :
  timed_out 3600 timed_out_job /\
  result_file (process_single_video Sample.mean Sample.std "video" 3600
                 [(30, timed_out_job)]) =
  result_file (process_single_video Sample.mean Sample.std "video" 3600
                 [(30, success_on [("images.bin", ImagesBin 7);
                                   ("cameras.bin", CamerasBin [[5; 6; 7; 8]%float]);
                                   ("points3D.bin", Points3DBin)] timed_out_job)]).
Proof.
  assert (Ht : timed_out 3600 timed_out_job).
  { exists "Task timed out". reflexivity. }
  split; [exact Ht|].
  destruct (recovered_job_stores_what_a_success_would Sample.mean Sample.std "video"
              3600 30 timed_out_job three_checkpoints "1" 7
              [("images.bin", ImagesBin 7);
               ("cameras.bin", CamerasBin [[5; 6; 7; 8]%float]);
               ("points3D.bin", Points3DBin)]
              {| cameras := [[5; 6; 7; 8]%float]; num_reg_images := 7 |}
              (map Sample.mean [[5]; [6]; [7]; [8]]%float
               ++ map Sample.std [[5]; [6]; [7]; [8]]%float)%list
              Ht eq_refl eq_refl eq_refl eq_refl eq_refl) as [_ Hwhole].
  destruct (Hwhole [] []) as [Hfile _]. exact Hfile.
Defined.

(** C6 as stated fails: a recovered job and a successful one with the same
    cameras leave the same result file and the same (empty) log, so the
    aggregate and the recall tables made from them are the same; nothing
    of the recovery is left in them. *)
Lemma recovered_and_succeeded_report_alike :
  let recovered := process_single_video Sample.mean Sample.std "video" 3600
                     [(30, timed_out_job)] in
  let succeeded := process_single_video Sample.mean Sample.std "video" 3600
                     [(30, succeeded_job)] in
  block timed_out_job = Interrupted FromTimer /\
  block succeeded_job = Completes tt /\
  result_file recovered <> None /\
  result_file recovered = result_file succeeded /\
  logged recovered = [] /\ logged succeeded = [] /\
  report (fun v => v) (fun _ => recovered) [Ends "video"; Joins "video"] [] [30] =
  report (fun v => v) (fun _ => succeeded) [Ends "video"; Joins "video"] [] [30].
Proof.
  cbv zeta. repeat split; try (vm_compute; reflexivity). vm_compute. discriminate.
Qed.


Definition lost_job : JobEnv :=
  {| block := Interrupted FromTimer; sparse := []; models := None; elapsed_time := 5 |}.


(** A checkpoint whose two cameras have 4 and 3 parameters: the timeout at
    60 s is logged as above, and the video loses the result of its
    successful 30 s as well. *)
Definition ragged_checkpoint_job : JobEnv :=
  {| block := Interrupted FromTimer; sparse := [];
     models := Some [("0", checkpoint 6 [[1; 2; 3; 4]; [1; 2; 3]]%float)];
     elapsed_time := 3600 |}.

Lemma unusable_checkpoint_costs_the_other_durations :
  result_file (process_single_video Sample.mean Sample.std "video" 3600
                 [(30, succeeded_job)]) <> None /\
  result_file (process_single_video Sample.mean Sample.std "video" 3600
                 [(30, succeeded_job); (60, lost_job)]) <> None /\
  let output := process_single_video Sample.mean Sample.std "video" 3600
                  [(30, succeeded_job); (60, ragged_checkpoint_job)] in
  logged output = ["video 60s: Timeout after 3600 seconds"] /\
  result_file output = None /\
  uncaught output = Some (ValueError "inhomogeneous shape").
Proof.
  split; [vm_compute; discriminate|]. split; [vm_compute; discriminate|].
  cbv zeta. repeat split; vm_compute; reflexivity.
Qed.



(** One camera at 30 s, two cameras at 60 s. *)
Definition one_camera_job : JobEnv :=
  {| block := Completes tt;
     sparse := [("images.bin", ImagesBin 9);
                ("cameras.bin", CamerasBin [[1; 2; 3; 4]%float]);
                ("points3D.bin", Points3DBin)];
     models := None; elapsed_time := 10 |}.

Definition two_cameras_job : JobEnv :=
  {| block := Completes tt;
     sparse := [("images.bin", ImagesBin 20);
                ("cameras.bin", CamerasBin [[3; 4; 5; 6]; [5; 6; 7; 8]]%float);
                ("points3D.bin", Points3DBin)];
     models := None; elapsed_time := 20 |}.

Definition two_durations_file : dict string (list float) :=
  Eval vm_compute in
    match result_file (process_single_video Sample.mean Sample.std "video" 3600
                         [(30, one_camera_job); (60, two_cameras_job)]) with
    | Some m => m
    | None => []
    end.




(** With these two durations the pooled mean of the first parameter is 3,
    the mean of the two per-duration means (1 and 4) is 2.5. *)
Lemma pooled_mean_is_not_the_mean_of_means :
  option_map (fun total => nth 0 total 0%float)
    (dget String.eqb "total" two_durations_file) = Some 3%float /\
  option_map (fun s => nth 0 s 0%float) (dget String.eqb "30" two_durations_file)
    = Some 1%float /\
  option_map (fun s => nth 0 s 0%float) (dget String.eqb "60" two_durations_file)
    = Some 4%float /\
  Sample.mean [1; 4]%float = 2.5%float.
Proof. repeat split; vm_compute; reflexivity. Qed.

(** C4, as the code has it. A video none of whose durations stores a
    summary writes no result file. A video without a result file gives no
    row to the aggregate and is counted in no bucket and no total, the
    tables being those of the run without it, provided that the output
    directory holds no result file of its basename from an earlier run and
    that no other video of its basename writes one: the main process loads
    the file it finds under the basename, whoever wrote it. For a duration
    for which no row of a non-empty aggregate has a summary, every
    magnitude bucket has recall 0 and 'failed' has recall 1; when the
    aggregate is empty no recall is reported at all. *)
Theorem videos_without_result_are_left_out :
  forall (mean std : list float -> float) (video_basename : string -> string)
         (timeout : nat) (jobs_of : string -> list (nat * JobEnv)),
    let outputs :=
      fun v => process_single_video mean std v timeout (jobs_of v) in
    (forall v,
       (forall job, In job (jobs_of v) ->
                    camera_params (added mean std v timeout job) = []) ->
       has_result outputs v = false) /\
    (forall history files durations,
       (forall v, In (Joins v) history -> has_result outputs v = false ->
          dget String.eqb (video_basename v) files = None /\
          forall w, In (Ends w) history -> video_basename w = video_basename v ->
                    has_result outputs w = false) ->
       let kept := filter (fun step => has_result outputs (video_of step)) history in
       (forall v, In (Joins v) history -> has_result outputs v = false ->
          dget String.eqb (video_basename v)
            (all_camera_params (all_results video_basename outputs history files))
          = None) /\
       all_camera_params (all_results video_basename outputs history files) =
       all_camera_params (all_results video_basename outputs kept files) /\
       report video_basename outputs history files durations =
       report video_basename outputs kept files durations) /\
    (forall (camera_stats : CameraDict) durations param_index d,
       camera_stats <> [] -> In d durations ->
       (forall video_name camera d', In (video_name, camera) camera_stats ->
          In d' durations -> indexable param_index camera d') ->
       (forall video_name camera, In (video_name, camera) camera_stats ->
          dget String.eqb d camera = None) ->
       exists recall detailed n,
         analyze_camera_stats_magnitude camera_stats durations param_index
           = Ok (recall, detailed) /\
         0 < n /\
         dget String.eqb d recall =
           Some (map (fun k => (k, if key_eqb k KFailed then ratio n n else ratio 0 n))
                   all_keys) /\
         Qeq (ratio n n) (Qmake 1 1) /\ Qeq (ratio 0 n) (Qmake 0 1)) /\
    (forall durations param_index,
       exists detailed,
         analyze_camera_stats_magnitude [] durations param_index = Ok ([], detailed)).
Proof.
  intros mean std video_basename timeout jobs_of outputs.
  split; [|split; [|split]].
  - intros v Hall. unfold has_result, outputs.
    now rewrite (no_summary_no_file mean std v timeout (jobs_of v) Hall).
  - intros history files durations Hclean kept.
    assert (Hres : all_results video_basename outputs history files =
                   all_results video_basename outputs kept files).
    { unfold all_results, kept. apply collect_without. exact Hclean. }
    split; [|unfold report; rewrite <- Hres; auto].
    intros v Hj Hnone. destruct (Hclean v Hj Hnone) as [Hfile Hothers].
    destruct (dget String.eqb (video_basename v)
                (all_camera_params (all_results video_basename outputs history files)))
      as [row|] eqn:Erow; [|reflexivity].
    exfalso. apply dget_in in Erow. rewrite all_camera_params_fold in Erow.
    destruct (in_fold_keep _ _ _ _ Erow) as [[]|Hin].
    destruct (collect_rows video_basename outputs history files [] _ _ Hin)
      as [[]|[_ [Hold|[w [Hw [Hb Hr]]]]]].
    + congruence.
    + specialize (Hothers w Hw Hb). unfold has_result in Hothers.
      rewrite Hr in Hothers. discriminate.
  - intros cs ds pi d Hne Hd Hidx Hnone.
    destruct (@analyze_spec cs ds pi Hidx) as [recall [detailed [Hrun [_ Hrec]]]].
    exists recall, detailed, (visits d (events cs ds)).
    assert (Hpos : 0 < visits d (events cs ds)).
    { rewrite visits_events. apply Nat.mul_pos_pos.
      - destruct cs; [congruence|simpl; lia].
      - apply count_occ_In. exact Hd. }
    split; [exact Hrun|]. split; [exact Hpos|]. split.
    + rewrite (Hrec d Hd). apply Nat.ltb_lt in Hpos. rewrite Hpos. f_equal.
      apply map_ext. intros k. f_equal.
      rewrite hits_all_failed.
      * destruct (key_eqb k KFailed); reflexivity.
      * intros v cam Hin. apply in_events in Hin. apply (Hnone v cam). tauto.
    + split; [now apply ratio_all | apply ratio_none].
  - intros durations pi. apply analyze_empty.
Qed.

Definition good_job : JobEnv :=
  {| block := Completes tt;
     sparse := [("images.bin", ImagesBin 30);
                ("cameras.bin", CamerasBin [[1000; 960; 540; 0]%float]);
                ("points3D.bin", Points3DBin)];
     models := None; elapsed_time := 100 |}.

Definition broken_job : JobEnv :=
  {| block := Fails "RuntimeError" "no frames"; sparse := []; models := None;
     elapsed_time := 1 |}.

Definition two_videos (v : string) : Output :=
  process_single_video Sample.mean Sample.std v 3600
    (if String.eqb v "A" then [(30, good_job)] else [(30, broken_job)]).

(** Video A has a result, video C has none: C gives no row, and the
    tables are those of A alone. *)
Lemma videos_without_result_are_left_out_witness :
  has_result two_videos "C" = false /\
  dget String.eqb "C"
    (all_camera_params
       (all_results (fun v => v) two_videos
          [Ends "A"; Joins "A"; Ends "C"; Joins "C"] [])) = None /\
  dkeys (all_camera_params
           (all_results (fun v => v) two_videos
              [Ends "A"; Joins "A"; Ends "C"; Joins "C"] [])) = ["A"] /\
  report (fun v => v) two_videos [Ends "A"; Joins "A"; Ends "C"; Joins "C"] [] [30] =
  report (fun v => v) two_videos [Ends "A"; Joins "A"] [] [30].
Proof.
  destruct (videos_without_result_are_left_out Sample.mean Sample.std (fun v => v) 3600
              (fun v => if String.eqb v "A" then [(30, good_job)]
                        else [(30, broken_job)]))
    as [Hnone [Hout _]].
  assert (HC : has_result two_videos "C" = false).
  { apply (Hnone "C"). intros job [<-|[]]. vm_compute. reflexivity. }
  split; [exact HC|].
  destruct (Hout [Ends "A"; Joins "A"; Ends "C"; Joins "C"] [] [30]) as [Hrow [_ Hrep]].
  { intros v _ Hv. split; [reflexivity|].
    intros w _ Heq. simpl in Heq. subst w. exact Hv. }
  split; [apply (Hrow "C"); [right; right; right; left; reflexivity|exact HC]|].
  split; [vm_compute; reflexivity|].
  assert (Hk : filter (fun step => has_result two_videos (video_of step))
                 [Ends "A"; Joins "A"; Ends "C"; Joins "C"]
               = [Ends "A"; Joins "A"]) by (vm_compute; reflexivity).
  fold two_videos in Hrep. rewrite Hk in Hrep. exact Hrep.
Defined.

(** C4 as stated fails: video C fails at its only duration; it is in no
    listing, not in 'failed' either, and the recall of 'failed' at 30 s is
    0 of 1 video, not 1 of 2; and when C is the only video no recall at
    all is reported for 30 s, not a 'failed' recall of 1. *)
Lemma failed_video_is_not_counted_as_failed :
  report (fun v => v) two_videos [Ends "A"; Joins "A"; Ends "C"; Joins "C"] [] [30] =
  Ok ([("30", [(KMag (MInt 10), Qmake 1 1); (KMag (MInt 100), Qmake 0 1);
               (KMag (MInt 1000), Qmake 0 1); (KMag MInf, Qmake 0 1);
               (KFailed, Qmake 0 1)])],
      [("30", [(KMag (MInt 10), [("A", DValue 0%float)]); (KMag (MInt 100), []);
               (KMag (MInt 1000), []); (KMag MInf, []); (KFailed, [])])]) /\
  report (fun v => v) two_videos [Ends "C"; Joins "C"] [] [30] =
  Ok ([],
      [("30", [(KMag (MInt 10), []); (KMag (MInt 100), []);
               (KMag (MInt 1000), []); (KMag MInf, []); (KFailed, [])])]).
Proof. split; vm_compute; reflexivity. Qed.

(** The condition on the output directory is needed: with the result file
    of an earlier run under its basename, video C, which writes nothing
    in this run, has the row of that file; and so has a video whose
    namesake of another directory writes one. *)
Lemma stale_result_file_gives_a_row :
  has_result two_videos "C" = false /\
  dget String.eqb "C"
    (all_camera_params
       (all_results (fun v => v) two_videos [Ends "C"; Joins "C"]
          [("C", [("total", [1; 2; 3; 4; 5]%float)])]))
  = Some [("total", [1; 2; 3; 4; 5]%float)] /\
  dkeys (all_camera_params
           (all_results (fun _ => "x") two_videos
              [Ends "A"; Ends "C"; Joins "C"; Joins "A"] []))
  = ["x"].
Proof. repeat split; vm_compute; reflexivity. Qed.

(** C9 at a failing input. The seed of a job is the global seed plus the
    interpreter's [hash] of the video name modulo 10000 plus the duration;
    two interpreters whose hashes of the name differ modulo 10000 give the
    same job different seeds from the same global seed. *)
Theorem job_seed_follows_the_interpreter_hash :
  forall (hash1 hash2 : string -> Z) (seed : Z) (video_name : string) (duration : Z),
    (hash1 video_name mod 10000 <> hash2 video_name mod 10000)%Z ->
    video_seed hash1 seed video_name duration
      = (seed + hash1 video_name mod 10000 + duration)%Z /\
    process_seed hash1 seed video_name <> process_seed hash2 seed video_name /\
    video_seed hash1 seed video_name duration
      <> video_seed hash2 seed video_name duration.
Proof.
  intros hash1 hash2 seed video_name duration H.
  unfold video_seed, process_seed. repeat split; lia.
Qed.

Lemma job_seed_follows_the_interpreter_hash_witness :
  ((fun _ : string => 1%Z) "a" mod 10000 <> (fun _ : string => 2%Z) "a" mod 10000)%Z /\
  video_seed (fun _ => 1%Z) 42 "a" 30 <> video_seed (fun _ => 2%Z) 42 "a" 30.
Proof.
  assert (H : ((fun _ : string => 1%Z) "a" mod 10000
               <> (fun _ : string => 2%Z) "a" mod 10000)%Z).
  { vm_compute. discriminate. }
  split; [exact H|].
  destruct (job_seed_follows_the_interpreter_hash (fun _ => 1%Z) (fun _ => 2%Z)
              42%Z "a" 30%Z H) as [_ [_ Hd]].
  exact Hd.
Defined.

(** * Further properties of the code *)

Import AnalysisFacts.

(** ** The analysis of [camera_stats.py] *)

(** X1. The analysis either returns its two tables or raises [IndexError],
    nothing else. It returns exactly when every summary a row has for a
    listed duration is longer than [param_index]; it raises exactly when
    some row has, for a listed duration, a summary with no entry at
    [param_index]. *)
Theorem analysis_fails_only_on_a_short_summary :
  forall (camera_stats : CameraDict) (durations : list string) (param_index : nat),
    ((exists tables,
        analyze_camera_stats_magnitude camera_stats durations param_index = Ok tables) /\
     (forall video_name camera d summary,
        In (video_name, camera) camera_stats -> In d durations ->
        dget String.eqb d camera = Some summary ->
        param_index < List.length summary)) \/
    (analyze_camera_stats_magnitude camera_stats durations param_index
       = Raise IndexError /\
     (exists video_name camera d summary,
        In (video_name, camera) camera_stats /\ In d durations /\
        dget String.eqb d camera = Some summary /\
        List.length summary <= param_index)).
Proof.
  intros camera_stats durations param_index.
  destruct (analyze_cases camera_stats durations param_index)
    as [[Hok Hidx]|[Hr [v [c [d [Hv [Hd [s [Hs Hl]]]]]]]]].
  - left. split; [exact Hok|].
    intros video_name camera d summary Hin Hd Hs.
    exact (Hidx video_name camera d Hin Hd summary Hs).
  - right. split; [exact Hr|]. exists v, c, d, s. repeat split; assumption.
Qed.

(** X2. An entry of a row under a key that is not among the listed
    durations is never read: deleting such a key from every row (the
    ['total'] summary of a result file, say) changes neither the outcome
    nor any table. *)
Theorem unlisted_key_is_never_read :
  forall (camera_stats : CameraDict) (durations : list string) (param_index : nat)
         (k : string),
    ~ In k durations ->
    analyze_camera_stats_magnitude
      (map (fun row => (fst row, dremove String.eqb k (snd row))) camera_stats)
      durations param_index
    = analyze_camera_stats_magnitude camera_stats durations param_index.
Proof.
  intros camera_stats durations param_index k Hk.
  apply analyze_same_fields.
  induction camera_stats as [|[v c] rest IH]; simpl; constructor; [|exact IH].
  split; [reflexivity|]. intros d Hd. unfold field. simpl.
  rewrite dget_dremove_other; [reflexivity|].
  intros ->. exact (Hk Hd).
Qed.

Definition row_with_total : CameraDict :=
  [("A", [("30", [1; 2; 3; 4; 5]%float); ("total", [1; 2; 3]%float)])].

Lemma unlisted_key_is_never_read_witness :
  ~ In "total" ["30"] /\
  analyze_camera_stats_magnitude
    (map (fun row => (fst row, dremove String.eqb "total" (snd row))) row_with_total)
    ["30"] 4
  = analyze_camera_stats_magnitude row_with_total ["30"] 4.
Proof.
  assert (H : ~ In "total" ["30"]).
  { intros [H|[]]. discriminate. }
  split; [exact H|].
  exact (unlisted_key_is_never_read row_with_total ["30"] 4 "total" H).
Defined.

(** X3. The recall table does not depend on the order of the rows of the
    aggregate: for a permutation of the rows the analysis returns as well,
    every duration has the same recalls, and every bucket lists the same
    videos, possibly in another order. *)
Theorem recall_ignores_the_order_of_rows :
  forall (camera_stats camera_stats' : CameraDict) (durations : list string)
         (param_index : nat) recall detailed,
    Permutation camera_stats camera_stats' ->
    analyze_camera_stats_magnitude camera_stats durations param_index
      = Ok (recall, detailed) ->
    exists recall' detailed',
      analyze_camera_stats_magnitude camera_stats' durations param_index
        = Ok (recall', detailed') /\
      (forall d, dget String.eqb d recall' = dget String.eqb d recall) /\
      (forall d k, In d durations -> In k Plot.magnitudes ->
         exists videos videos',
           entry_of detailed d k = Some videos /\
           entry_of detailed' d k = Some videos' /\
           Permutation videos videos').
Proof.
  intros camera_stats camera_stats' durations pi recall detailed HP H.
  destruct (analyze_tables camera_stats durations pi recall detailed H)
    as [Hidx [Hd [Hr _]]].
  assert (Hidx' : forall video_name camera d, In (video_name, camera) camera_stats' ->
                    In d durations -> indexable pi camera d).
  { intros v c d Hin. apply (Hidx v).
    exact (Permutation_in _ (Permutation_sym HP) Hin). }
  destruct (@analyze_spec camera_stats' durations pi Hidx')
    as [recall' [detailed' [H' [Hd' Hr']]]].
  exists recall', detailed'. split; [exact H'|].
  pose proof (events_perm camera_stats camera_stats' durations HP) as HE.
  split.
  - intros d. destruct (in_dec string_dec d durations) as [Hy|Hn].
    + rewrite (Hr d Hy), (Hr' d Hy).
      assert (Hv : visits d (events camera_stats' durations)
                   = visits d (events camera_stats durations)).
      { rewrite !visits_events. rewrite (Permutation_length HP). reflexivity. }
      rewrite Hv. destruct (Nat.ltb 0 (visits d (events camera_stats durations)));
        [|reflexivity].
      f_equal. apply map_ext. intros k.
      rewrite (Permutation_length (hits_perm pi d k _ _ HE)). reflexivity.
    + rewrite (recall_keys_listed camera_stats durations pi _ _ d H Hn).
      exact (recall_keys_listed camera_stats' durations pi _ _ d H' Hn).
  - intros d k Hy Hk. rewrite plot_magnitudes_all_keys in Hk.
    exists (hits pi d k (events camera_stats durations)),
           (hits pi d k (events camera_stats' durations)).
    split; [exact (Hd d k Hy Hk)|]. split; [exact (Hd' d k Hy Hk)|].
    apply hits_perm. exact HE.
Qed.

Definition two_rows : CameraDict :=
  [("A", [("30", [1; 2; 3; 4; 5]%float)]); ("B", [("30", [1; 2; 3; 4; 50]%float)])].

Definition two_rows_swapped : CameraDict :=
  [("B", [("30", [1; 2; 3; 4; 50]%float)]); ("A", [("30", [1; 2; 3; 4; 5]%float)])].

Definition two_rows_tables : dict string (dict key Q) * dict string listing :=
  Eval vm_compute in
    match analyze_camera_stats_magnitude two_rows ["30"] 4 with
    | Ok tables => tables
    | Raise _ => ([], [])
    end.

Lemma recall_ignores_the_order_of_rows_witness :
  Permutation two_rows two_rows_swapped /\
  analyze_camera_stats_magnitude two_rows ["30"] 4
    = Ok (fst two_rows_tables, snd two_rows_tables) /\
  exists recall' detailed',
    analyze_camera_stats_magnitude two_rows_swapped ["30"] 4 = Ok (recall', detailed') /\
    (forall d, dget String.eqb d recall' = dget String.eqb d (fst two_rows_tables)).
Proof.
  assert (HP : Permutation two_rows two_rows_swapped) by apply perm_swap.
  assert (H : analyze_camera_stats_magnitude two_rows ["30"] 4
              = Ok (fst two_rows_tables, snd two_rows_tables))
    by (vm_compute; reflexivity).
  split; [exact HP|]. split; [exact H|].
  destruct (recall_ignores_the_order_of_rows two_rows two_rows_swapped ["30"] 4
              (fst two_rows_tables) (snd two_rows_tables) HP H)
    as [recall' [detailed' [H1 [H2 _]]]].
  exists recall', detailed'. split; [exact H1|exact H2].
Defined.

(** X4. Of a row the analysis reads, for each listed duration, only
    whether there is a summary and the absolute value of the summary's
    entry at [param_index]: two aggregates with the same video names, row
    by row, that agree on this give the same outcome and the same tables,
    whatever the other entries and the signs are. *)
Theorem analysis_reads_the_magnitude_of_one_field :
  forall (camera_stats camera_stats' : CameraDict) (durations : list string)
         (param_index : nat),
    Forall2 (fun row row' : string * Camera =>
               fst row = fst row' /\
               forall d, In d durations ->
                 match dget String.eqb d (snd row), dget String.eqb d (snd row') with
                 | None, None => True
                 | Some summary, Some summary' =>
                     option_map abs (nth_error summary param_index)
                     = option_map abs (nth_error summary' param_index)
                 | _, _ => False
                 end)
            camera_stats camera_stats' ->
    analyze_camera_stats_magnitude camera_stats durations param_index
    = analyze_camera_stats_magnitude camera_stats' durations param_index.
Proof.
  intros camera_stats camera_stats' durations param_index H.
  apply analyze_same_fields.
  induction H as [|row row' l l' [Hn Hf] _ IH]; constructor; [|exact IH].
  split; [exact Hn|]. intros d Hd. specialize (Hf d Hd). unfold field.
  destruct (dget String.eqb d (snd row)), (dget String.eqb d (snd row'));
    simpl; try contradiction; [|reflexivity].
  rewrite Hf. reflexivity.
Qed.

Lemma analysis_reads_the_magnitude_of_one_field_witness :
  analyze_camera_stats_magnitude [("A", [("30", [1; 2; 3; 4; -5]%float)])] ["30"] 4
  = analyze_camera_stats_magnitude [("A", [("30", [9; 9; 9; 9; 5; 9]%float)])] ["30"] 4.
Proof.
  apply analysis_reads_the_magnitude_of_one_field.
  constructor; [|constructor].
  split; [reflexivity|].
  intros d [<-|[]]. vm_compute. reflexivity.
Defined.

(** X5. The tables the analysis returns are what [plot_magnitude_recall]
    expects: every lookup of the bar chart and of the report's overall
    statistics succeeds (no [KeyError]); the report has one block per
    duration of the recall table, each a listed duration; and in a block
    every one of the five lines shows a recall that is the printed number
    of videos divided by the number of rows of the aggregate times the
    number of times the duration is listed. *)
Theorem plot_lookups_succeed_on_the_analysis :
  forall (camera_stats : CameraDict) (durations : list string) (param_index : nat)
         recall detailed,
    analyze_camera_stats_magnitude camera_stats durations param_index
      = Ok (recall, detailed) ->
    exists heights rows,
      Plot.bars recall = Ok heights /\
      map fst heights = Plot.magnitudes /\
      Plot.overall_statistics recall detailed = Ok rows /\
      map fst rows = dkeys recall /\
      forall d lines, In (d, lines) rows ->
        In d durations /\
        lines = map (fun k =>
                       (k,
                        ratio (bucket_size detailed d k)
                          (List.length camera_stats * count_occ string_dec durations d),
                        bucket_size detailed d k))
                    Plot.magnitudes.
Proof.
  intros camera_stats durations pi recall detailed H.
  destruct (analyze_tables camera_stats durations pi recall detailed H)
    as [_ [Hd [_ Hk]]].
  set (evs := events camera_stats durations) in *.
  set (rate := fun d k => ratio (List.length (hits pi d k evs)) (visits d evs)).
  assert (Hrec : forall d k, In d (dkeys recall) -> In k Plot.magnitudes ->
            (inner <- dindex String.eqb d recall ;; dindex key_eqb k inner)
            = Ok (rate d k)).
  { intros d k Hin Hkm. destruct (Hk d Hin) as [_ Hg].
    unfold dindex at 1. rewrite Hg. cbn [bind]. unfold dindex.
    rewrite (@dget_map_keys Q (fun k0 => ratio (List.length (hits pi d k0 evs))
                                           (visits d evs)) all_keys k Hkm).
    reflexivity. }
  assert (Hsize : forall d k, In d (dkeys recall) -> In k Plot.magnitudes ->
            entry_of detailed d k = Some (hits pi d k evs)).
  { intros d k Hin Hkm. destruct (Hk d Hin) as [Hl _]. exact (Hd d k Hl Hkm). }
  exists (map (fun k => (k, map (fun d => rate d k) (dkeys recall))) Plot.magnitudes).
  exists (map (fun d => (d, map (fun k => (k, rate d k, bucket_size detailed d k))
                             Plot.magnitudes)) (dkeys recall)).
  split; [|split; [|split; [|split]]].
  - unfold Plot.bars. apply mapM_ok. intros k Hkm.
    rewrite (mapM_ok _ _ _ (fun d => rate d k) (dkeys recall)); [reflexivity|].
    intros d Hin. exact (Hrec d k Hin Hkm).
  - reflexivity.
  - unfold Plot.overall_statistics. apply mapM_ok. intros d Hin.
    rewrite (mapM_ok _ _ _ (fun k => (k, rate d k, bucket_size detailed d k))
               Plot.magnitudes); [reflexivity|].
    intros k Hkm. pose proof (Hrec d k Hin Hkm) as Hr.
    pose proof (Hsize d k Hin Hkm) as Hs.
    destruct (dindex String.eqb d recall) as [inner|e]; cbn [bind] in Hr |- *;
      [|discriminate].
    rewrite Hr. cbn [bind].
    pose proof (entry_of_lookup _ new_listing detailed d k _ Hs) as Hl.
    destruct (dindex key_eqb k (fst (ddindex String.eqb new_listing d detailed)))
      as [videos|e] eqn:E.
    + pose proof (eq_trans (eq_sym E) Hl) as Heq. injection Heq as ->.
      cbn [bind]. unfold bucket_size. rewrite Hs. reflexivity.
    + pose proof (eq_trans (eq_sym E) Hl) as Heq. discriminate Heq.
  - rewrite map_map. cbn [fst]. apply map_id.
  - intros d lines Hin. apply in_map_iff in Hin. destruct Hin as [d' [Heq Hin]].
    pose proof (f_equal fst Heq) as Hd1. pose proof (f_equal snd Heq) as Hd2.
    cbn [fst snd] in Hd1, Hd2. subst d' lines. destruct (Hk d Hin) as [Hl _].
    split; [exact Hl|].
    apply map_ext_in. intros k Hkm.
    unfold bucket_size. rewrite (Hsize d k Hin Hkm). unfold rate.
    unfold evs. rewrite visits_events. reflexivity.
Qed.

Lemma plot_lookups_succeed_on_the_analysis_witness :
  analyze_camera_stats_magnitude two_rows ["30"] 4
    = Ok (fst two_rows_tables, snd two_rows_tables) /\
  exists heights rows,
    Plot.bars (fst two_rows_tables) = Ok heights /\
    map fst heights = Plot.magnitudes /\
    Plot.overall_statistics (fst two_rows_tables) (snd two_rows_tables) = Ok rows /\
    map fst rows = dkeys (fst two_rows_tables).
Proof.
  assert (H : analyze_camera_stats_magnitude two_rows ["30"] 4
              = Ok (fst two_rows_tables, snd two_rows_tables))
    by (vm_compute; reflexivity).
  split; [exact H|].
  destruct (plot_lookups_succeed_on_the_analysis two_rows ["30"] 4
              (fst two_rows_tables) (snd two_rows_tables) H)
    as [heights [rows [H1 [H2 [H3 [H4 _]]]]]].
  exists heights, rows. repeat split; assumption.
Defined.

(** ** One video: [process_single_video] *)

Import JobFacts ResultFacts.

(** X6. A duration whose guarded block completes, is interrupted, or
    fails with an exception derived from [Exception], and which no
    interrupt reaches outside the block, ends in exactly one of two ways
    and without an exception, whatever the directories hold: it stores
    one summary under its own key and hands nothing to [logging.error], or
    it stores nothing and hands exactly one message to [logging.error],
    which starts with the video name and the duration. *)
Theorem every_duration_stores_a_summary_or_logs_one_line :
  forall (mean std : list float -> float) (video_name : string) (timeout duration : nat)
         (env : JobEnv) (acc : Acc),
    exists acc',
      process_duration mean std video_name timeout (duration, env) acc = (Ok tt, acc') /\
      ((exists summary,
          camera_params acc'
            = dset String.eqb (str duration) summary (camera_params acc) /\
          error_log acc' = error_log acc) \/
       (exists reason,
          camera_params acc' = camera_params acc /\
          error_log acc'
            = (error_log acc
               ++ [(video_name ++ " " ++ str duration ++ "s: " ++ reason)%string])%list)).
Proof.
  intros mean std video_name timeout duration env acc.
  rewrite process_duration_frame.
  destruct (job_outcome mean std video_name timeout duration env) as [Hok Hcase].
  rewrite Hok. eexists. split; [reflexivity|].
  destruct Hcase as [[summary [Hp Hl]]|[reason [Hp Hl]]].
  - left. exists summary. unfold merge. simpl. rewrite Hp, Hl.
    split; [reflexivity|apply app_nil_r].
  - right. exists reason. unfold merge. simpl. rewrite Hp, Hl.
    split; reflexivity.
Qed.

(** X7. When the guarded block completes but one of [images.bin],
    [cameras.bin], [points3D.bin] is not in the sparse directory, the
    duration logs "<video> <duration>s: <file> reconstruction failed" for
    the first missing file, in this order, and stores nothing; the
    checkpoints of the [models] directory are not looked at, whatever they
    hold. *)
Theorem missing_output_file_is_logged_without_recovery :
  forall (mean std : list float -> float) (video_name : string) (timeout duration : nat)
         (env : JobEnv) (acc : Acc) (filename : string),
    run_block (block env) = Ok tt ->
    first_missing model_files (sparse env) = Some filename ->
    process_duration mean std video_name timeout (duration, env) acc =
    (Ok tt,
     mkAcc (camera_params acc) (camera_params_out_duration acc)
       (error_log acc
        ++ [(video_name ++ " " ++ str duration ++ "s: " ++ filename
              ++ " reconstruction failed")%string])%list
       (stdout acc
        ++ [("Error processing " ++ video_name ++ " " ++ str duration ++ "s: "
              ++ filename ++ " reconstruction failed")%string])%list).
Proof.
  intros mean std video_name timeout duration env acc filename Hb Hm.
  unfold process_duration, try_except, attempt, bindM, lift, time_limit.
  rewrite Hb. cbn [fst]. rewrite check_files_first_missing, Hm.
  reflexivity.
Qed.

Definition sparse_model (num_reg : nat) (params : list (list float)) : Dir :=
  [("images.bin", ImagesBin num_reg); ("cameras.bin", CamerasBin params);
   ("points3D.bin", Points3DBin)].

Definition no_cameras_job : JobEnv :=
  {| block := Completes tt;
     sparse := [("images.bin", ImagesBin 4); ("points3D.bin", Points3DBin)];
     models := Some [("0", Directory (sparse_model 9 [[1; 2; 3; 4]%float]))];
     elapsed_time := 12 |}.

Lemma missing_output_file_is_logged_without_recovery_witness :
  run_block (block no_cameras_job) = Ok tt /\
  first_missing model_files (sparse no_cameras_job) = Some "cameras.bin" /\
  process_duration Sample.mean Sample.std "video" 3600 (30, no_cameras_job) empty_acc =
  (Ok tt, mkAcc [] [] ["video 30s: cameras.bin reconstruction failed"]
            ["Error processing video 30s: cameras.bin reconstruction failed"]).
Proof.
  split; [reflexivity|]. split; [reflexivity|].
  exact (missing_output_file_is_logged_without_recovery Sample.mean Sample.std
           "video" 3600 30 no_cameras_job empty_acc "cameras.bin" eq_refl eq_refl).
Defined.

(** X8. When the code called in the guarded block raises an exception
    derived from [Exception], of whatever class, the duration hands
    "<video> <duration>s: <message of the exception>" to [logging.error],
    prints the matching line and stores nothing: only a timeout starts
    the recovery, the checkpoints are not looked at. In the process of the
    video the message comes out as a line of the standard error stream. *)
Theorem failed_block_is_logged_without_recovery :
  forall (mean std : list float -> float) (video_name : string) (timeout duration : nat)
         (env : JobEnv) (acc : Acc) (class_name msg : string),
    block env = Fails class_name msg ->
    let message := (video_name ++ " " ++ str duration ++ "s: " ++ msg)%string in
    process_duration mean std video_name timeout (duration, env) acc =
    (Ok tt,
     mkAcc (camera_params acc) (camera_params_out_duration acc)
       (error_log acc ++ [message])%list
       (stdout acc
        ++ [("Error processing " ++ video_name ++ " " ++ str duration ++ "s: "
              ++ msg)%string])%list) /\
    process_sinks (error_log acc ++ [message]) =
    mkSinks [] (stderr (process_sinks (error_log acc))
                ++ [("ERROR:root:" ++ message)%string])%list.
Proof.
  intros mean std video_name timeout duration env acc class_name msg Hb message.
  split.
  - unfold process_duration, try_except, attempt, bindM, lift, time_limit.
    rewrite Hb. reflexivity.
  - rewrite !process_sinks_stderr. cbn [stderr]. rewrite map_app. reflexivity.
Qed.

Definition crashed_job : JobEnv :=
  {| block := Fails "RuntimeError" "CUDA out of memory";
     sparse := [];
     models := Some [("0", Directory (sparse_model 9 [[1; 2; 3; 4]%float]))];
     elapsed_time := 3 |}.

(** A video without frame rate: line 50 divides by zero, and the message
    is the one of the interpreter. *)
Definition no_frame_rate_job : JobEnv :=
  {| block := Fails "ZeroDivisionError" "division by zero";
     sparse := []; models := None; elapsed_time := 0 |}.

Lemma failed_block_is_logged_without_recovery_witness :
  process_duration Sample.mean Sample.std "video" 3600 (30, crashed_job) empty_acc =
  (Ok tt, mkAcc [] [] ["video 30s: CUDA out of memory"]
            ["Error processing video 30s: CUDA out of memory"]) /\
  process_duration Sample.mean Sample.std "video" 3600 (30, no_frame_rate_job) empty_acc =
  (Ok tt, mkAcc [] [] ["video 30s: division by zero"]
            ["Error processing video 30s: division by zero"]).
Proof.
  split.
  - apply (failed_block_is_logged_without_recovery Sample.mean Sample.std "video" 3600
             30 crashed_job empty_acc "RuntimeError" "CUDA out of memory" eq_refl).
  - apply (failed_block_is_logged_without_recovery Sample.mean Sample.std "video" 3600
             30 no_frame_rate_job empty_acc "ZeroDivisionError"
             "division by zero" eq_refl).
Defined.

(** X9. One checkpoint directory that [pycolmap] cannot read makes the
    whole recovery fail, wherever it is listed and whatever the other
    checkpoints hold: the timed-out duration logs its timeout line and
    stores nothing. *)
Theorem unreadable_checkpoint_aborts_the_recovery :
  forall (mean std : list float -> float) (video_name : string) (timeout duration : nat)
         (env : JobEnv) (acc : Acc) (entries : dict string Node) (path : string)
         (d : Dir),
    timed_out timeout env ->
    models env = Some entries ->
    In (path, Directory d) entries ->
    (forall r, pycolmap_Reconstruction d <> Ok r) ->
    process_duration mean std video_name timeout (duration, env) acc =
    (Ok tt,
     mkAcc (camera_params acc) (camera_params_out_duration acc)
       (error_log acc
        ++ [(video_name ++ " " ++ str duration ++ "s: Timeout after "
              ++ str (elapsed_time env) ++ " seconds")%string])%list
       (stdout acc
        ++ [("Error processing " ++ video_name ++ " " ++ str duration
              ++ "s: Timeout")%string])%list).
Proof.
  intros mean std video_name timeout duration env acc entries path d Ht Hm Hin Hbad.
  apply failed_path; [exact Ht|].
  unfold no_checkpoint. rewrite Hm.
  destruct (largest_model_unreadable entries None 0 path d Hin Hbad) as [e He].
  rewrite He. exact I.
Qed.

Definition half_written_job : JobEnv :=
  {| block := Interrupted FromTimer;
     sparse := [];
     models := Some [("0", Directory (sparse_model 9 [[1; 2; 3; 4]%float]));
                     ("1", Directory [("images.bin", ImagesBin 2)])];
     elapsed_time := 3600 |}.

Lemma unreadable_checkpoint_aborts_the_recovery_witness :
  timed_out 3600 half_written_job /\
  process_duration Sample.mean Sample.std "video" 3600 (30, half_written_job) empty_acc =
  (Ok tt, mkAcc [] [] ["video 30s: Timeout after 3600 seconds"]
            ["Error processing video 30s: Timeout"]).
Proof.
  assert (Ht : timed_out 3600 half_written_job) by (exists "Task timed out"; reflexivity).
  split; [exact Ht|].
  apply (unreadable_checkpoint_aborts_the_recovery Sample.mean Sample.std "video" 3600 30
           half_written_job empty_acc
           [("0", Directory (sparse_model 9 [[1; 2; 3; 4]%float]));
            ("1", Directory [("images.bin", ImagesBin 2)])]
           "1" [("images.bin", ImagesBin 2)]).
  - exact Ht.
  - reflexivity.
  - right. left. reflexivity.
  - intros r H. discriminate H.
Defined.

(** X10. Among the checkpoints with the largest number of registered
    images the recovery keeps the first one listed: every directory listed
    before the selected one has strictly fewer registered images, every
    directory after it at most as many; and the selected one has at least
    one. *)
Theorem first_of_the_largest_checkpoints_is_kept :
  forall (entries : list (string * Node)) (path : string) (n : nat),
    largest_model entries None 0 = Ok (Some path, n) ->
    exists before d after reconstruction,
      entries = (before ++ (path, Directory d) :: after)%list /\
      pycolmap_Reconstruction d = Ok reconstruction /\
      num_reg_images reconstruction = n /\ 0 < n /\
      (forall q d' r, In (q, Directory d') before ->
         pycolmap_Reconstruction d' = Ok r -> num_reg_images r < n) /\
      (forall q d' r, In (q, Directory d') after ->
         pycolmap_Reconstruction d' = Ok r -> num_reg_images r <= n).
Proof.
  intros entries path n H.
  destruct (largest_model_first entries None 0 path n H)
    as [[H1 _]|[before [d [after [H1 [[r Hr] [H3 [H4 [H5 H6]]]]]]]]]; [discriminate|].
  exists before, d, after, r.
  split; [exact H1|]. split; [exact Hr|].
  assert (Hc : forall d' r', pycolmap_Reconstruction d' = Ok r' ->
                             count_of d' = num_reg_images r').
  { intros d' r' E. unfold count_of. rewrite E. reflexivity. }
  split; [rewrite <- (Hc d r Hr); exact H3|]. split; [exact H4|]. split.
  - intros q d' r' Hin E. rewrite <- (Hc d' r' E). eapply H5; eauto.
  - intros q d' r' Hin E. rewrite <- (Hc d' r' E). eapply H6; eauto.
Qed.

Lemma first_of_the_largest_checkpoints_is_kept_witness :
  exists before d after reconstruction,
    [("0", Directory (sparse_model 3 [])); ("1", Directory (sparse_model 7 []));
     ("2", Directory (sparse_model 7 []))]
    = (before ++ ("1", Directory d) :: after)%list /\
    pycolmap_Reconstruction d = Ok reconstruction /\
    num_reg_images reconstruction = 7.
Proof.
  destruct (first_of_the_largest_checkpoints_is_kept
              [("0", Directory (sparse_model 3 [])); ("1", Directory (sparse_model 7 []));
               ("2", Directory (sparse_model 7 []))] "1" 7 eq_refl)
    as [before [d [after [r [H1 [H2 [H3 _]]]]]]].
  exists before, d, after, r. repeat split; assumption.
Defined.

(** X11. When two durations of a video complete and their sparse models
    hold cameras with different numbers of parameters, the pooled rows
    cannot be reduced: the process ends with an uncaught [ValueError]
    before writing its result file, and the video leaves no result although
    durations succeeded. *)
Theorem durations_with_different_cameras_lose_the_video :
  forall (mean std : list float -> float) (video_name : string) (timeout : nat)
         (jobs : list (nat * JobEnv))
         (duration1 duration2 : nat) (env1 env2 : JobEnv)
         (r1 r2 : Reconstruction) (row1 row2 : list float),
    In (duration1, env1) jobs -> In (duration2, env2) jobs ->
    run_block (block env1) = Ok tt -> run_block (block env2) = Ok tt ->
    check_files model_files (sparse env1) = Ok tt ->
    check_files model_files (sparse env2) = Ok tt ->
    pycolmap_Reconstruction (sparse env1) = Ok r1 ->
    pycolmap_Reconstruction (sparse env2) = Ok r2 ->
    In row1 (cameras r1) -> In row2 (cameras r2) ->
    List.length row1 <> List.length row2 ->
    let output := process_single_video mean std video_name timeout jobs in
    result_file output = None /\
    uncaught output = Some (ValueError "inhomogeneous shape").
Proof.
  intros mean std video_name timeout jobs duration1 duration2 env1 env2 r1 r2 row1 row2
    Hj1 Hj2 Hb1 Hb2 Hc1 Hc2 Hp1 Hp2 Hr1 Hr2 Hne output.
  unfold output, process_single_video.
  pose proof (process_durations_ok mean std video_name timeout jobs empty_acc) as Hok.
  destruct (process_durations mean std video_name timeout jobs empty_acc)
    as [[[]|e] acc] eqn:E; simpl in Hok; [|discriminate].
  destruct (process_durations_out mean std video_name timeout jobs empty_acc tt acc E)
    as [Hout _].
  simpl in Hout.
  assert (Hin : forall duration env r row,
            In (duration, env) jobs -> run_block (block env) = Ok tt ->
            check_files model_files (sparse env) = Ok tt ->
            pycolmap_Reconstruction (sparse env) = Ok r -> In row (cameras r) ->
            In row (camera_params_out_duration acc)).
  { intros duration env r row Hj Hb Hc Hp Hr. rewrite Hout.
    apply in_flat_map. exists (duration, env). split; [exact Hj|].
    rewrite (completed_block_rows mean std video_name timeout duration env r Hb Hc Hp).
    exact Hr. }
  pose proof (Hin _ _ _ _ Hj1 Hb1 Hc1 Hp1 Hr1) as Hi1.
  pose proof (Hin _ _ _ _ Hj2 Hb2 Hc2 Hp2 Hr2) as Hi2.
  pose proof (mean_std_ragged mean std _ _ _ Hi1 Hi2 Hne) as Hm.
  destruct (camera_params_out_duration acc) as [|row rest]; [destruct Hi1|].
  rewrite Hm. split; reflexivity.
Qed.

Definition pinhole_job : JobEnv :=
  {| block := Completes tt; sparse := sparse_model 20 [[1000; 1000; 960; 540]%float];
     models := None; elapsed_time := 50 |}.

Definition simple_radial_job : JobEnv :=
  {| block := Completes tt; sparse := sparse_model 30 [[1000; 960; 540]%float];
     models := None; elapsed_time := 70 |}.

Lemma durations_with_different_cameras_lose_the_video_witness :
  result_file (process_single_video Sample.mean Sample.std "video" 3600
                 [(30, pinhole_job); (60, simple_radial_job)]) = None /\
  uncaught (process_single_video Sample.mean Sample.std "video" 3600
              [(30, pinhole_job); (60, simple_radial_job)])
  = Some (ValueError "inhomogeneous shape").
Proof.
  apply (durations_with_different_cameras_lose_the_video Sample.mean Sample.std
           "video" 3600 [(30, pinhole_job); (60, simple_radial_job)]
           30 60 pinhole_job simple_radial_job
           {| cameras := [[1000; 1000; 960; 540]%float]; num_reg_images := 20 |}
           {| cameras := [[1000; 960; 540]%float]; num_reg_images := 30 |}
           [1000; 1000; 960; 540]%float [1000; 960; 540]%float).
  - left. reflexivity.
  - right. left. reflexivity.
  - reflexivity.
  - reflexivity.
  - reflexivity.
  - reflexivity.
  - reflexivity.
  - reflexivity.
  - left. reflexivity.
  - left. reflexivity.
  - simpl. discriminate.
Defined.

(** X12. All entries of a written result file, the summaries of the
    durations and ['total'], have one and the same length, twice the number
    of parameters of a camera. *)
Theorem result_file_entries_have_one_length :
  forall (mean std : list float -> float) (video_name : string) (timeout : nat)
         (jobs : list (nat * JobEnv)) (m : dict string (list float)),
    result_file (process_single_video mean std video_name timeout jobs) = Some m ->
    exists n,
      (forall k summary, In (k, summary) m -> List.length summary = 2 * n) /\
      (forall duration env r row,
         In (duration, env) jobs -> run_block (block env) = Ok tt ->
         check_files model_files (sparse env) = Ok tt ->
         pycolmap_Reconstruction (sparse env) = Ok r -> In row (cameras r) ->
         List.length row = n).
Proof.
  intros mean std video_name timeout jobs m H.
  unfold process_single_video in H.
  destruct (process_durations mean std video_name timeout jobs empty_acc)
    as [[[]|e] acc] eqn:E; [|discriminate].
  destruct (process_durations_out mean std video_name timeout jobs empty_acc tt acc E)
    as [Hout _].
  simpl in Hout.
  destruct (camera_params_out_duration acc) as [|row0 rest] eqn:Eo; [discriminate|].
  destruct (mean_std mean std (row0 :: rest)) as [total|e] eqn:Em; [|discriminate].
  injection H as <-.
  destruct (mean_std_length mean std _ _ Em) as [_ [n [Hall Hlen]]].
  rewrite Forall_forall in Hall.
  exists n. split.
  - intros k summary Hin.
    destruct (in_dset _ _ _ _ _ _ Hin) as [Heq|Hold]; [injection Heq as _ ->; exact Hlen|].
    destruct (process_durations_params mean std video_name timeout jobs empty_acc tt acc
                E k summary Hold) as [[]|[job [Hj Hs]]].
    destruct (mean_std_length mean std _ _ Hs) as [Hne [n' [Hall' Hlen']]].
    rewrite Forall_forall in Hall'.
    destruct (camera_params_out_duration (added mean std video_name timeout job))
      as [|row rows] eqn:Ea; [congruence|].
    assert (Hrow : In row (row0 :: rest)).
    { rewrite Hout. apply in_flat_map. exists job. split; [exact Hj|].
      rewrite Ea. left. reflexivity. }
    rewrite Hlen'. rewrite <- (Hall' row (or_introl eq_refl)).
    rewrite (Hall row Hrow). reflexivity.
  - intros duration env r row Hj Hb Hc Hp Hr. apply Hall. rewrite Hout.
    apply in_flat_map. exists (duration, env). split; [exact Hj|].
    rewrite (completed_block_rows mean std video_name timeout duration env r Hb Hc Hp).
    exact Hr.
Qed.

Definition pinhole_file : dict string (list float) :=
  Eval vm_compute in
    match result_file (process_single_video Sample.mean Sample.std "video" 3600
                         [(30, pinhole_job); (60, crashed_job)]) with
    | Some m => m
    | None => []
    end.

Lemma result_file_entries_have_one_length_witness :
  result_file (process_single_video Sample.mean Sample.std "video" 3600
                 [(30, pinhole_job); (60, crashed_job)]) = Some pinhole_file /\
  exists n, forall k summary, In (k, summary) pinhole_file ->
                              List.length summary = 2 * n.
Proof.
  assert (H : result_file (process_single_video Sample.mean Sample.std "video" 3600
                             [(30, pinhole_job); (60, crashed_job)]) = Some pinhole_file)
    by (vm_compute; reflexivity).
  split; [exact H|].
  destruct (result_file_entries_have_one_length Sample.mean Sample.std "video" 3600
              [(30, pinhole_job); (60, crashed_job)] pinhole_file H) as [n [Hn _]].
  exists n. exact Hn.
Defined.

(** ** The aggregate of [process_videos] *)

(** X13. The aggregate has at most one row per basename. The row of a
    basename is the result file of that name as the last join of a video
    of this basename finds it in the output directory, when it is not
    empty: the result written last by a process of this basename,
    whichever of them is joined last. *)
Theorem aggregate_keeps_the_last_result_of_a_basename :
  forall (video_basename : string -> string) (outputs : string -> Output)
         (before after : list Step) (files : ResultFiles) (v : string)
         (m : dict string (list float)),
    (forall w, In (Joins w) after -> video_basename w <> video_basename v) ->
    dget String.eqb (video_basename v) (files_after video_basename outputs before files)
    = Some m ->
    m <> [] ->
    let aggregate :=
      all_camera_params
        (all_results video_basename outputs (before ++ Joins v :: after) files) in
    NoDup (dkeys aggregate) /\
    dget String.eqb (video_basename v) aggregate = Some m /\
    (forall h1 w h2 result,
       before = (h1 ++ Ends w :: h2)%list ->
       video_basename w = video_basename v ->
       result_file (outputs w) = Some result ->
       (forall w', In (Ends w') h2 -> video_basename w' = video_basename v ->
                   result_file (outputs w') = None) ->
       m = result).
Proof.
  intros video_basename outputs before after files v m Hafter Hfile Hne aggregate.
  split; [|split].
  - unfold aggregate. rewrite all_camera_params_fold.
    apply fold_keep_nodup. constructor.
  - apply last_join_row; assumption.
  - intros h1 w h2 result Hb Hw Hr Hlater. subst before.
    rewrite <- Hw in Hfile.
    rewrite (file_written_last video_basename outputs h1 w h2 files result Hr) in Hfile.
    + congruence.
    + intros w' Hin Hb'. apply Hlater; [exact Hin|congruence].
Qed.

Definition same_basename_outputs (v : string) : Output :=
  {| result_file := if String.eqb v "a/x" then Some [("total", [1]%float)]
                    else Some [("total", [2]%float)];
     logged := []; printed := []; uncaught := None |}.

(** [b/x] ends first and is joined last; the row is what [a/x] wrote. *)
Lemma aggregate_keeps_the_last_result_of_a_basename_witness :
  dget String.eqb "x"
    (all_camera_params
       (all_results (fun _ => "x") same_basename_outputs
          ([Ends "b/x"; Ends "a/x"; Joins "a/x"] ++ Joins "b/x" :: []) []))
  = Some [("total", [1]%float)].
Proof.
  apply (aggregate_keeps_the_last_result_of_a_basename (fun _ => "x")
           same_basename_outputs [Ends "b/x"; Ends "a/x"; Joins "a/x"] [] [] "b/x"
           [("total", [1]%float)]).
  - intros w [].
  - reflexivity.
  - discriminate.
Defined.

(** X14. The analysis at the end of [process_videos] cannot fail when
    every entry of every collected result file has more than four values:
    the report of the 5th parameter then returns its tables, for every
    order in which the processes end and are joined and whatever the
    output directory held before. *)
Theorem report_returns_when_the_summaries_are_long_enough :
  forall (video_basename : string -> string) (outputs : string -> Output)
         (history : list Step) (files : ResultFiles) (durations : list nat),
    (forall name m k summary,
       In (name, m) (all_results video_basename outputs history files) ->
       In (k, summary) m ->
       4 < List.length summary) ->
    exists tables, report video_basename outputs history files durations = Ok tables.
Proof.
  intros video_basename outputs history files durations H. unfold report.
  destruct (@analyze_spec
              (all_camera_params (all_results video_basename outputs history files))
              (map str durations) 4) as [recall [detailed [Hr _]]].
  - intros name camera d Hin _ summary Hs.
    rewrite all_camera_params_fold in Hin.
    destruct (in_fold_keep _ _ _ _ Hin) as [[]|Hres].
    apply (H name camera d summary Hres). apply dget_in. exact Hs.
  - exists (recall, detailed). exact Hr.
Qed.

Definition pinhole_outputs (v : string) : Output :=
  process_single_video Sample.mean Sample.std v 3600
    [(30, pinhole_job); (60, crashed_job)].

Lemma pinhole_outputs_file : forall v,
  result_file (pinhole_outputs v) = Some pinhole_file.
Proof. intros v. vm_compute. reflexivity. Qed.

Lemma pinhole_file_long : forall k summary,
  In (k, summary) pinhole_file -> 4 < List.length summary.
Proof.
  intros k summary Hin. vm_compute in Hin.
  destruct Hin as [Heq|[Heq|[]]]; injection Heq as _ <-; simpl; lia.
Qed.

Lemma report_returns_when_the_summaries_are_long_enough_witness :
  exists tables,
    report (fun v => v) pinhole_outputs [Ends "A"; Ends "B"; Joins "B"; Joins "A"] []
      [30; 60] = Ok tables.
Proof.
  apply report_returns_when_the_summaries_are_long_enough.
  intros name m k summary Hin Hk.
  destruct (collect_rows (fun v => v) pinhole_outputs _ _ _ _ _ Hin)
    as [[]|[_ [Hold|[w [_ [_ Hr]]]]]]; [discriminate|].
  rewrite pinhole_outputs_file in Hr. injection Hr as <-.
  apply (pinhole_file_long k summary Hk).
Defined.

(** ** The scheduler of [process_videos] *)

Import DealFacts.

(** X15. The sorted videos are dealt to the GPUs in turn: the video at
    index [i] of the list is the entry number [i / num_gpus] of the group
    of GPU [i % num_gpus]. *)
Theorem videos_are_dealt_round_robin :
  forall (num_gpus : nat) (video_list : list string) (groups : list (list string)),
    gpu_video_groups num_gpus video_list = Ok groups ->
    forall i, i < List.length video_list ->
      nth_error (nth (i mod num_gpus) groups []) (i / num_gpus)
      = nth_error video_list i.
Proof.
  intros num_gpus video_list groups H i Hi.
  destruct (Nat.eq_dec num_gpus 0) as [->|Hn].
  - rewrite gpu_video_groups_no_gpu in H. destruct video_list; [simpl in Hi; lia|].
    discriminate.
  - destruct (gpu_video_groups_deals num_gpus video_list groups Hn H)
      as [_ [_ [_ Hpos]]].
    apply Hpos. exact Hi.
Qed.

Lemma videos_are_dealt_round_robin_witness :
  gpu_video_groups 2 ["a"; "b"; "c"; "d"; "e"] = Ok [["a"; "c"; "e"]; ["b"; "d"]] /\
  nth_error (nth (3 mod 2) [["a"; "c"; "e"]; ["b"; "d"]] []) (3 / 2)
  = nth_error ["a"; "b"; "c"; "d"; "e"] 3.
Proof.
  assert (H : gpu_video_groups 2 ["a"; "b"; "c"; "d"; "e"]
              = Ok [["a"; "c"; "e"]; ["b"; "d"]]) by reflexivity.
  split; [exact H|].
  apply (videos_are_dealt_round_robin 2 ["a"; "b"; "c"; "d"; "e"]
           [["a"; "c"; "e"]; ["b"; "d"]] H 3).
  simpl. lia.
Defined.

(** X16. The groups are balanced: with [N] videos GPU [g] gets
    [(N + num_gpus - 1 - g) / num_gpus] of them, so that two GPUs differ by
    at most one video and a GPU with a smaller number never has fewer. *)
Theorem groups_are_balanced :
  forall (num_gpus : nat) (video_list : list string) (groups : list (list string)),
    num_gpus <> 0 ->
    gpu_video_groups num_gpus video_list = Ok groups ->
    (forall g, g < num_gpus ->
       List.length (nth g groups [])
       = (List.length video_list + num_gpus - 1 - g) / num_gpus) /\
    (forall g h, g <= h -> h < num_gpus ->
       List.length (nth h groups []) <= List.length (nth g groups []) /\
       List.length (nth g groups []) <= S (List.length (nth h groups []))).
Proof.
  intros num_gpus video_list groups Hn H.
  destruct (gpu_video_groups_deals num_gpus video_list groups Hn H)
    as [_ [_ [Hsizes _]]].
  split; [exact Hsizes|].
  intros g h Hgh Hh. rewrite !Hsizes by lia.
  set (N := List.length video_list). split.
  - apply Nat.Div0.div_le_mono. lia.
  - replace (S ((N + num_gpus - 1 - h) / num_gpus))
      with ((N + num_gpus - 1 - h + 1 * num_gpus) / num_gpus)
      by (rewrite Nat.div_add by exact Hn; lia).
    apply Nat.Div0.div_le_mono. lia.
Qed.

Lemma groups_are_balanced_witness :
  2 <> 0 /\
  gpu_video_groups 2 ["a"; "b"; "c"; "d"; "e"] = Ok [["a"; "c"; "e"]; ["b"; "d"]] /\
  List.length (nth 1 [["a"; "c"; "e"]; ["b"; "d"]] []) = (5 + 2 - 1 - 1) / 2.
Proof.
  assert (Hn : 2 <> 0) by discriminate.
  assert (H : gpu_video_groups 2 ["a"; "b"; "c"; "d"; "e"]
              = Ok [["a"; "c"; "e"]; ["b"; "d"]]) by reflexivity.
  split; [exact Hn|]. split; [exact H|].
  destruct (groups_are_balanced 2 ["a"; "b"; "c"; "d"; "e"]
              [["a"; "c"; "e"]; ["b"; "d"]] Hn H) as [Hs _].
  apply (Hs 1). lia.
Defined.

(** X17. Without a GPU the scheduling of a non-empty list fails with
    [ZeroDivisionError] at the first video, before any process is started;
    an empty list is scheduled at once, whatever the number of GPUs: no
    process is started and the loop stops in its first test. *)
Theorem no_gpu_fails_and_no_video_returns_at_once :
  forall (is_alive : nat -> Process -> bool) (fuel : nat),
    (forall video_name rest,
       schedule is_alive fuel 0 (video_name :: rest) = Raise ZeroDivisionError) /\
    (forall num_gpus,
       exists gpus sh,
         schedule is_alive fuel num_gpus [] = Ok (gpus, sh, true) /\
         trace sh = [] /\ completed_videos sh = 0).
Proof.
  intros is_alive fuel. split; [reflexivity|].
  intros num_gpus.
  exists (repeat (mkGpu [] []) num_gpus), (mkShared 0 0 0 []).
  split; [apply schedule_nothing|]. split; reflexivity.
Qed.

(** X18. The counters of the loop are consistent at every moment of every
    run: [remaining_videos] is the number of videos that still wait in the
    queues, and the completed videos, the running processes and the
    waiting videos add up to the length of the list. When the loop stops
    by its own condition [completed_videos] is the length of the list and
    [remaining_videos] is zero. *)
Theorem counters_follow_the_queues :
  forall (is_alive : nat -> Process -> bool) (fuel num_gpus : nat)
         (video_list : list string) (gpus : list Gpu) (sh : Shared) (stopped : bool),
    schedule is_alive fuel num_gpus video_list = Ok (gpus, sh, stopped) ->
    remaining_videos sh
      = Z.of_nat (list_sum (map (fun g => List.length (queue g)) gpus)) /\
    completed_videos sh
      + list_sum (map (fun g => List.length (processes g) + List.length (queue g)) gpus)
      = List.length video_list /\
    (stopped = true ->
     completed_videos sh = List.length video_list /\ remaining_videos sh = 0%Z).
Proof.
  intros is_alive fuel num_gpus video_list gpus sh stopped H.
  pose proof (schedule_load is_alive fuel num_gpus video_list gpus sh stopped H) as Hl.
  destruct (gpu_video_groups num_gpus video_list) as [groups|e] eqn:Hg;
    [|unfold schedule in H; rewrite Hg in H; discriminate].
  destruct (@schedule_inv is_alive fuel num_gpus video_list groups Hg)
    as [gpus0 [sh0 [stopped0 [H0 [[_ [_ Hrem]] [Hidle _]]]]]].
  rewrite H in H0. injection H0 as <- <- <-.
  assert (Hq : sum_queues gpus = list_sum (map (fun g => List.length (queue g)) gpus)).
  { clear. induction gpus as [|g rest IH]; [reflexivity|]. simpl. rewrite IH. reflexivity. }
  split; [rewrite Hrem, Hq; reflexivity|]. split; [exact Hl|].
  intros Hs. specialize (Hidle Hs).
  rewrite (total_load_idle _ Hidle) in Hl.
  rewrite Hrem, (sum_queues_idle _ Hidle). split; [lia|reflexivity].
Qed.

Definition short_run : list Gpu * Shared * bool :=
  Eval vm_compute in
    match schedule (fun _ _ => false) 5 1 ["a"; "b"] with
    | Ok run => run
    | Raise _ => ([], mkShared 0 0 0 [], false)
    end.

Lemma counters_follow_the_queues_witness :
  schedule (fun _ _ => false) 5 1 ["a"; "b"]
    = Ok (fst (fst short_run), snd (fst short_run), true) /\
  completed_videos (snd (fst short_run)) = 2 /\
  remaining_videos (snd (fst short_run)) = 0%Z.
Proof.
  assert (H : schedule (fun _ _ => false) 5 1 ["a"; "b"]
              = Ok (fst (fst short_run), snd (fst short_run), true))
    by (vm_compute; reflexivity).
  split; [exact H|].
  destruct (counters_follow_the_queues (fun _ _ => false) 5 1 ["a"; "b"]
              (fst (fst short_run)) (snd (fst short_run)) true H) as [_ [_ Hend]].
  exact (Hend eq_refl).
Defined.

(** X19. The loop after the monitoring loop, which joins the processes
    that are still listed, never finds one: when the monitoring loop stops
    by its own condition every GPU has an empty process list and an empty
    queue, so that the last loop joins nothing and collects no result a
    second time. *)
Theorem last_loop_finds_no_process :
  forall (is_alive : nat -> Process -> bool) (fuel num_gpus : nat)
         (video_list : list string) (gpus : list Gpu) (sh : Shared),
    schedule is_alive fuel num_gpus video_list = Ok (gpus, sh, true) ->
    Forall (fun g => processes g = [] /\ queue g = []) gpus /\
    (forall gpu_id sh0, drain gpu_id gpus sh0 = sh0).
Proof.
  intros is_alive fuel num_gpus video_list gpus sh H.
  destruct (gpu_video_groups num_gpus video_list) as [groups|e] eqn:Hg;
    [|unfold schedule in H; rewrite Hg in H; discriminate].
  destruct (@schedule_inv is_alive fuel num_gpus video_list groups Hg)
    as [gpus0 [sh0 [stopped0 [H0 [_ [Hidle _]]]]]].
  rewrite H in H0. injection H0 as <- <- <-.
  specialize (Hidle eq_refl). split; [exact Hidle|].
  intros gpu_id sh1. apply drain_idle. exact Hidle.
Qed.

Lemma last_loop_finds_no_process_witness :
  schedule (fun _ _ => false) 5 1 ["a"; "b"]
    = Ok (fst (fst short_run), snd (fst short_run), true) /\
  Forall (fun g => processes g = [] /\ queue g = []) (fst (fst short_run)).
Proof.
  assert (H : schedule (fun _ _ => false) 5 1 ["a"; "b"]
              = Ok (fst (fst short_run), snd (fst short_run), true))
    by (vm_compute; reflexivity).
  split; [exact H|].
  destruct (last_loop_finds_no_process (fun _ _ => false) 5 1 ["a"; "b"]
              (fst (fst short_run)) (snd (fst short_run)) H) as [Hidle _].
  exact Hidle.
Defined.

(** ** The list of videos: [read_video_list] and [sorted] *)

Import VideoList VideoListFacts.

(** X20. Every name [read_video_list] returns is stripped: it neither
    starts nor ends with a white-space character, so that stripping it
    again changes nothing, and it holds no line feed at all. White space
    inside a name is kept. *)
Theorem video_names_are_stripped :
  forall (text name : string),
    In name (read_video_list text) ->
    lstrip name = name /\ rstrip name = name /\ strip name = name /\
    (forall c, In c (list_ascii_of_string name) -> c <> line_feed).
Proof.
  intros text name H. unfold read_video_list in H. apply in_map_iff in H.
  destruct H as [line [<- Hline]].
  destruct (strip_stripped line) as [Hl Hr].
  split; [exact Hl|]. split; [exact Hr|]. split.
  - unfold strip at 1. rewrite Hl. exact Hr.
  - intros c Hc. unfold strip in Hc.
    apply (rstrip_no_line_feed (lstrip line) c); [|exact Hc].
    apply lstrip_line_like. exact (readlines_line_like text line Hline).
Qed.

(** The text of a file with the given lines, each ended by a line feed. *)
Definition file_of (lines : list string) : string :=
  String.concat EmptyString
    (map (fun line => line ++ String line_feed EmptyString) lines).

Lemma video_names_are_stripped_witness :
  In "my video" (read_video_list (file_of ["  a"; " my video  "; "b"])) /\
  strip "my video" = "my video".
Proof.
  assert (H : In "my video" (read_video_list (file_of ["  a"; " my video  "; "b"]))).
  { vm_compute. right. left. reflexivity. }
  split; [exact H|].
  destruct (video_names_are_stripped _ _ H) as [_ [_ [Hs _]]]. exact Hs.
Defined.

(** X21. There is one name per line of the file, blank lines included: the
    number of names is the number of line feeds of the text, plus one when
    the text ends in a line without a line feed. A blank line gives the
    empty name, which stays in the list; a line feed at the end of the
    file gives no name of its own. *)
Theorem one_name_per_line :
  forall (text : string),
    List.length (read_video_list text)
    = line_feeds text + (if unfinished text then 1 else 0) /\
    (forall line, In line (readlines text) ->
       (forall c, In c (list_ascii_of_string line) -> isspace c = true) ->
       In EmptyString (read_video_list text)).
Proof.
  intros text. split.
  - unfold read_video_list. rewrite List.length_map. apply readlines_length.
  - intros line Hline Hblank. unfold read_video_list. apply in_map_iff.
    exists line. split; [|exact Hline].
    unfold strip.
    assert (Hl : lstrip line = EmptyString).
    { clear Hline. induction line as [|c rest IH]; [reflexivity|]. simpl.
      rewrite (Hblank c (or_introl eq_refl)). apply IH.
      intros c' Hc'. apply Hblank. right. exact Hc'. }
    rewrite Hl. reflexivity.
Qed.

(** X22. [sorted] returns the names in ascending order, each as often as
    it is listed (a name listed twice is scheduled twice), and the result
    depends on the names only, not on the order of the lines: two list
    files with the same names give the same groups of videos per GPU. *)
Theorem video_groups_do_not_depend_on_the_order_of_the_lines :
  forall (names names' : list string) (num_gpus : nat),
    Permutation names names' ->
    Permutation (sorted names) names /\
    ascending (sorted names) /\
    sorted names = sorted names' /\
    gpu_video_groups num_gpus (sorted names)
    = gpu_video_groups num_gpus (sorted names').
Proof.
  intros names names' num_gpus HP.
  split; [apply sorted_perm|]. split; [apply sorted_ascending|].
  pose proof (sorted_of_permutation names names' HP) as H.
  split; [exact H|]. rewrite H. reflexivity.
Qed.

Lemma video_groups_do_not_depend_on_the_order_of_the_lines_witness :
  Permutation (read_video_list (file_of ["b"; "a"; "c"]))
              (read_video_list (file_of ["c"; "b"; "a"])) /\
  gpu_video_groups 2 (video_list (file_of ["b"; "a"; "c"]))
  = gpu_video_groups 2 (video_list (file_of ["c"; "b"; "a"])).
Proof.
  assert (HP : Permutation (read_video_list (file_of ["b"; "a"; "c"]))
                           (read_video_list (file_of ["c"; "b"; "a"]))).
  { vm_compute. apply perm_trans with ["b"; "c"; "a"].
    - apply perm_skip. apply perm_swap.
    - apply perm_swap. }
  split; [exact HP|].
  destruct (video_groups_do_not_depend_on_the_order_of_the_lines _ _ 2 HP)
    as [_ [_ [_ H]]].
  exact H.
Defined.

(** ** The frame loop of [extract_frames] *)

Import Frames FramesFacts.

(** X23. The loop of [extract_frames] writes every [sampling_rate]-th
    frame from the start position on: its [k]-th write, counted from zero,
    is the frame [k * sampling_rate] frames after the start, under the name
    computed from the index [k * sampling_rate], as long as this index is
    below [frames_to_process] and the video has such a frame; after the
    first index that fails either test nothing more is written. A rate
    that [int(video_fps / 3)] gives below 1 counts as 1, so that every
    frame is written. *)
Theorem every_sampling_rate_th_frame_is_written :
  forall (Frame : Type) (frame_filename : nat -> string)
         (frames_to_process raw_rate : Z) (cap : list Frame) (k : nat),
    let rate := sampling_rate raw_rate in
    1 <= rate /\
    ((raw_rate < 1)%Z -> rate = 1) /\
    nth_error (extract_loop frame_filename frames_to_process raw_rate cap) k
    = if (k * rate <? Z.to_nat frames_to_process)%nat
      then option_map (fun frame => (frame_filename (k * rate), frame))
             (nth_error cap (k * rate))
      else None.
Proof.
  intros Frame frame_filename frames_to_process raw_rate cap k rate.
  pose proof (sampling_rate_positive raw_rate) as Hr. fold rate in Hr.
  split; [exact Hr|]. split.
  - intros Hlt. unfold rate, sampling_rate.
    destruct (raw_rate <? 1)%Z eqn:E; [reflexivity|]. apply Z.ltb_ge in E. lia.
  - unfold extract_loop, range. fold rate.
    rewrite frames_loop_nth by exact Hr.
    rewrite below_range by exact Hr. reflexivity.
Qed.

(** ** The whole run *)



(** A video whose basename is [file] stops the run after the last join:
    its row cannot be passed to [np.savez] by keyword. *)
Lemma row_named_file_stops_the_run :
  exists fuel,
    process_videos (fun v => v) pinhole_outputs (Some "run") (fun _ _ => false)
      (fun _ => ["file"]) [] fuel 1 ["file"] [30; 60]
    = Raise TypeError.
Proof. exists 3. vm_compute. reflexivity. Qed.
